(** * lymph: a shallow embedding of the inference kernel

    The development follows the Python sources file by file:
    - [Node]       : [lymph/node.py], the node class with [trans_prob], [obs_prob]
                     and [bn_prob];
    - [Edge]       : [lymph/edge.py], the arcs with their validated parameters and
                     [comp_spread_prob];
    - [Unilateral] : [lymph/models/unilateral.py], construction and inspection,
                     parameters, data ingestion, HMM evolution, likelihood and
                     risk;
    - [Examples]   : the scenarios S1, S2, S3 and S6 of the specification.

    Python floats are read as exact rationals ([Q]); equalities between computed
    numbers are therefore stated up to [Qeq], which is the reading of
    "up to floating-point rounding".  Python ints are [Z], times and indices
    are [nat].  Mutable objects that are shared (nodes referenced by edges) live in
    a store, a list indexed by position; a dictionary is the list of its items in
    insertion order, a set is a [gset].

    The sources import modules that are not among them.  What the kernel needs
    of these is either an interface ([DistributionAPI], [MatrixAPI], [Numpy],
    [Repr]) or a definition that follows the specification and says so in its
    comment (the
    node classes of the graph, the [Param] objects, [change_base],
    [comp_obs_prob], [check_unique_names], the setter of a node's state).
    [unilateral.py] calls [bn_prob] on its lymph node levels and names the ends
    of an edge [parent] and [child]; these are read as [Node.bn_prob] of
    [node.py] and as [start] and [end] of [edge.py]. *)

From Stdlib Require Import ZArith QArith Qpower Lia Lqa Ascii String.
From stdpp Require Import base list strings gmap.

Set Default Proof Using "Type".
Local Open Scope Z_scope.

(** ** Exceptions and results *)

Inductive exn : Type :=
| ValueError
| KeyError
| IndexError
| AttributeError
| TypeError
| UnboundLocalError.

#[global] Instance exn_eq_dec : EqDecision exn.
Proof. solve_decision. Defined.

(** A call either returns a value or raises. *)
Inductive except (A : Type) : Type :=
| Ok (a : A)
| Raise (e : exn).
Arguments Ok {A} a.
Arguments Raise {A} e.

#[global] Instance except_ret : MRet except := fun A a => Ok a.

#[global] Instance except_bind : MBind except := fun A B k x =>
  match x with
  | Ok a => k a
  | Raise e => Raise e
  end.

(** A float that may be [-inf]: what [np.log] and [likelihood] return. *)
Inductive efloat : Type :=
| NegInf
| Finite (q : Q).

Definition eadd (a b : efloat) : efloat :=
  match a, b with
  | Finite x, Finite y => Finite (x + y)
  | _, _ => NegInf
  end.

(** [np.log] is not a rational function; it is a collaborator of the kernel. *)
Class Numpy : Type := { np_log : Q -> efloat }.

(** ** Vectors and matrices (numpy arrays of floats) *)

(** [np.sum] and [np.prod] *)
Fixpoint vsum (v : list Q) : Q :=
  match v with
  | [] => 0%Q
  | x :: v' => (x + vsum v')%Q
  end.

Fixpoint vprod (v : list Q) : Q :=
  match v with
  | [] => 1%Q
  | x :: v' => (x * vprod v')%Q
  end.

(** Entrywise sum and product of two vectors, product with and quotient by a
    scalar. *)
Fixpoint vadd (u v : list Q) : list Q :=
  match u, v with
  | x :: u', y :: v' => (x + y)%Q :: vadd u' v'
  | _, _ => []
  end.

Fixpoint vmul (u v : list Q) : list Q :=
  match u, v with
  | x :: u', y :: v' => (x * y)%Q :: vmul u' v'
  | _, _ => []
  end.

Fixpoint vscale (a : Q) (v : list Q) : list Q :=
  match v with
  | [] => []
  | x :: v' => (a * x)%Q :: vscale a v'
  end.

Fixpoint vdiv (v : list Q) (s : Q) : list Q :=
  match v with
  | [] => []
  | x :: v' => (x / s)%Q :: vdiv v' s
  end.

(** [np.zeros] and [np.ones] *)
Fixpoint zeros (n : nat) : list Q :=
  match n with
  | O => []
  | S k => 0%Q :: zeros k
  end.

Fixpoint ones (n : nat) : list Q :=
  match n with
  | O => []
  | S k => 1%Q :: ones k
  end.

Definition ncols (M : list (list Q)) : nat :=
  match M with
  | [] => 0%nat
  | r :: _ => length r
  end.

(** [v @ M] for a vector [v] and a matrix [M] with [n] columns: the combination
    of the rows of [M] with the entries of [v] as coefficients. *)
Fixpoint vec_mat_n (n : nat) (v : list Q) (M : list (list Q)) : list Q :=
  match v, M with
  | x :: v', r :: M' => vadd (vscale x r) (vec_mat_n n v' M')
  | _, _ => zeros n
  end.

Definition vec_mat (v : list Q) (M : list (list Q)) : list Q :=
  vec_mat_n (ncols M) v M.

Definition mat_mul (A B : list (list Q)) : list (list Q) :=
  map (fun r => vec_mat r B) A.

Definition unit_vec (n i : nat) : list Q :=
  map (fun j => if Nat.eqb i j then 1%Q else 0%Q) (seq 0 n).

Definition identity (n : nat) : list (list Q) :=
  map (unit_vec n) (seq 0 n).

(** [numpy.linalg.matrix_power] for a non-negative exponent. *)
Fixpoint mat_pow (M : list (list Q)) (n : nat) : list (list Q) :=
  match n with
  | O => identity (length M)
  | S k => mat_mul (mat_pow M k) M
  end.

(** Equality of vectors and matrices up to the representation of rationals. *)
Definition veq (u v : list Q) : Prop := Forall2 Qeq u v.
Definition meq (A B : list (list Q)) : Prop := Forall2 veq A B.

Definition in_unit_interval (x : Q) : bool := Qle_bool 0 x && Qle_bool x 1.

(** ** Insertion-ordered dictionaries (Python [dict]) *)

Fixpoint dict_get {A : Type} (k : string) (d : list (string * A)) : option A :=
  match d with
  | [] => None
  | (k', v) :: d' => if decide (k = k') then Some v else dict_get k d'
  end.

(** [d[k] = v]: replaces the value in place, a new key goes to the end. *)
Fixpoint dict_set {A : Type} (k : string) (v : A) (d : list (string * A))
  : list (string * A) :=
  match d with
  | [] => [(k, v)]
  | (k', v') :: d' =>
      if decide (k = k') then (k, v) :: d' else (k', v') :: dict_set k v d'
  end.

Definition dict_of_items {A : Type} (items : list (string * A)) : list (string * A) :=
  foldl (fun d kv => dict_set kv.1 kv.2 d) [] items.

Definition dict_keys {A : Type} (d : list (string * A)) : list string := map fst d.

Definition dict_mem {A : Type} (k : string) (d : list (string * A)) : bool :=
  bool_decide (k ∈ dict_keys d).

(** The same for a dictionary whose keys are pairs of strings. *)
Fixpoint pdict_get {A : Type} (k : string * string) (d : list ((string * string) * A))
  : option A :=
  match d with
  | [] => None
  | (k', v) :: d' => if decide (k = k') then Some v else pdict_get k d'
  end.

Fixpoint pdict_set {A : Type} (k : string * string) (v : A)
    (d : list ((string * string) * A)) : list ((string * string) * A) :=
  match d with
  | [] => [(k, v)]
  | (k', v') :: d' =>
      if decide (k = k') then (k, v) :: d' else (k', v') :: pdict_set k v d'
  end.

(** [l[i]] for a Python list, and along one axis of an array: a negative index
    counts from the end, an index out of range raises [IndexError]. *)
Definition getitem {A : Type} (l : list A) (i : Z) : except A :=
  let n := Z.of_nat (length l) in
  let j := if i <? 0 then i + n else i in
  if (0 <=? j) && (j <? n) then
    match l !! Z.to_nat j with
    | Some x => Ok x
    | None => Raise IndexError
    end
  else Raise IndexError.

(** ** lymph/node.py *)

Module Node.

(** What [node.py] reads of an incident edge: its probability [t] and its two
    end points, which are positions in the store of nodes. *)
Record Arc : Type := mkArc {
  t : Q;
  start : nat;
  end_ : nat
}.

Record Node : Type := mkNode {
  name : string;
  typ : string;
  state : Z;
  n_obs : nat;
  obs_table : list (list (list Q));
  inc : list Arc;
  out : list Arc
}.

#[global] Instance Node_inhabited : Inhabited Node :=
  populate (mkNode EmptyString "lnl" 0 0 [] [] []).

(** [str.lower] on the characters that matter here, the ASCII capitals. *)
Definition lower_ascii (c : ascii) : ascii :=
  let n := nat_of_ascii c in
  if (65 <=? n)%nat && (n <=? 90)%nat then ascii_of_nat (n + 32) else c.

Fixpoint lower (s : string) : string :=
  match s with
  | EmptyString => EmptyString
  | String c s' => String (lower_ascii c) (lower s')
  end.

(** [s[0]] *)
Definition first_char (s : string) : except ascii :=
  match s with
  | EmptyString => Raise IndexError
  | String c _ => Ok c
  end.

(** The default of [obs_table]: one modality with the identity confusion matrix. *)
Definition default_obs_table : list (list (list Q)) :=
  [[[1%Q; 0%Q]; [0%Q; 1%Q]]].

(** [Node.__init__(name, state, typ, obs_table)] *)
Definition __init__ (name : string) (state : Z) (typ : option string)
    (obs_table : list (list (list Q))) : except Node :=
  typ' ← match typ with
          | None =>
              c ← first_char (lower name);
              if decide (c = "t"%char) then Ok "tumour"%string
              else Ok "lnl"%string
          | Some ty => Ok ty
          end;
  let state' := if decide (typ' = "tumour"%string) then 1 else state in
  Ok (mkNode name typ' state' (length obs_table) obs_table [] []).

Section Probabilities.
Context `{!Numpy}.

Definition log_or_id (log : bool) (x : Q) : efloat :=
  if log then np_log x else Finite x.

(** One round of the loop of [trans_prob] over [self.inc]; [res] is the pair
    [(res[0], res[1])]. *)
Definition trans_step (nodes : list Node) (res : Q * Q) (edge : Arc) : Q * Q :=
  let s := state (nodes !!! start edge) in
  let res1 := (res.2 + res.1 * t edge * inject_Z s)%Q in
  let res0 := (res.1 * (1 - t edge) ^ s)%Q in
  (res0, res1).

(** [Node.trans_prob(log)] *)
Definition trans_prob (nodes : list Node) (self : Node) (log : bool) : list efloat :=
  if state self =? 1 then
    if log then [NegInf; Finite 0%Q] else [Finite 0%Q; Finite 1%Q]
  else
    let res := foldl (trans_step nodes) (1%Q, 0%Q) (inc self) in
    [log_or_id log res.1; log_or_id log res.2].

(** The product accumulated by the loop of [bn_prob]. *)
Definition bn_step (nodes : list Node) (res : Q) (edge : Arc) : Q :=
  (res * (1 - t edge) ^ state (nodes !!! start edge))%Q.

(** [Node.bn_prob(log=False)], the value before the optional logarithm. *)
Definition bn_prob_lin (nodes : list Node) (self : Node) : Q :=
  let res := foldl (bn_step nodes) 1%Q (inc self) in
  let res := (res * (-1) ^ state self)%Q in
  (res + inject_Z (state self))%Q.

(** [Node.bn_prob(log)] *)
Definition bn_prob (nodes : list Node) (self : Node) (log : bool) : efloat :=
  log_or_id log (bn_prob_lin nodes self).

(** One round of the loop of [obs_prob]:
    [res *= self.obs_table[i, observation[i], self.state]]. *)
Definition obs_step (self : Node) (observation : list Z) (res : Q) (i : nat)
  : except Q :=
  o ← getitem observation (Z.of_nat i);
  table ← getitem (obs_table self) (Z.of_nat i);
  row ← getitem table o;
  x ← getitem row (state self);
  Ok (res * x)%Q.

Fixpoint obs_loop (self : Node) (observation : list Z) (res : Q) (idx : list nat)
  : except Q :=
  match idx with
  | [] => Ok res
  | i :: idx' => res' ← obs_step self observation res i;
                 obs_loop self observation res' idx'
  end.

(** [Node.obs_prob(log=False, observation)], the value before the optional
    logarithm: 1 without an observation, else the product over the modalities
    [range(self.n_obs)]. *)
Definition obs_prob_lin (self : Node) (observation : option (list Z)) : except Q :=
  match observation with
  | None => Ok 1%Q
  | Some obs => obs_loop self obs 1%Q (seq 0 (n_obs self))
  end.

(** [Node.obs_prob(log, observation)] *)
Definition obs_prob (self : Node) (log : bool) (observation : option (list Z))
  : except efloat :=
  res ← obs_prob_lin self observation;
  Ok (log_or_id log res).

End Probabilities.

End Node.

(** ** lymph/edge.py *)

Module Edge.

Inductive NodeKind : Type :=
| Tumor
| LymphNodeLevel.

#[global] Instance NodeKind_eq_dec : EqDecision NodeKind.
Proof. solve_decision. Defined.

(** Modelled from the spec: the classes [Tumor] and [LymphNodeLevel] that
    [edge.py] imports are not among the sources.  A node has a name, a kind, its
    allowed states ([{0,1}] binary, [{0,1,2}] trinary, a single state for a
    tumor) and its current state. *)
Record GraphNode : Type := mkGraphNode {
  name : string;
  kind : NodeKind;
  allowed_states : list Z;
  state : Z
}.

#[global] Instance GraphNode_inhabited : Inhabited GraphNode :=
  populate (mkGraphNode EmptyString LymphNodeLevel [0; 1] 0).

Definition is_binary (n : GraphNode) : bool :=
  bool_decide (length (allowed_states n) = 2%nat).

Definition is_trinary (n : GraphNode) : bool :=
  bool_decide (length (allowed_states n) = 3%nat).

(** An edge refers to its two nodes by their position in the store; a growth
    edge refers twice to the same node. *)
Record Edge : Type := mkEdge {
  start : nat;
  end_ : nat;
  micro_mod : Q;
  spread_prob : Q
}.

#[global] Instance Edge_inhabited : Inhabited Edge :=
  populate (mkEdge 0 0 1 0).

(** [Edge.micro_mod.setter] *)
Definition set_micro_mod (new_micro_mod : Q) (self : Edge) : except Edge :=
  if negb (in_unit_interval new_micro_mod) then Raise ValueError
  else Ok (mkEdge (start self) (end_ self) new_micro_mod (spread_prob self)).

(** [Edge.spread_prob.setter] *)
Definition set_spread_prob (new_spread_prob : Q) (self : Edge) : except Edge :=
  if negb (in_unit_interval new_spread_prob) then Raise ValueError
  else Ok (mkEdge (start self) (end_ self) (micro_mod self) new_spread_prob).

(** [Edge.__init__(start, end, spread_prob, micro_mod)]: the setter of [end]
    insists on a lymph node level, then the two parameters go through their
    setters, [micro_mod] first. *)
Definition __init__ (nodes : list GraphNode) (start end_ : nat)
    (spread_prob micro_mod : Q) : except Edge :=
  match nodes !! start, nodes !! end_ with
  | Some _, Some e =>
      if decide (kind e = LymphNodeLevel) then
        self ← set_micro_mod micro_mod (mkEdge start end_ 1 0);
        set_spread_prob spread_prob self
      else Raise TypeError
  | _, _ => Raise TypeError
  end.

(** [Edge.is_growth] *)
Definition is_growth (self : Edge) : bool := Nat.eqb (start self) (end_ self).

(** [Edge.is_tumor_spread] *)
Definition is_tumor_spread (nodes : list GraphNode) (self : Edge) : bool :=
  bool_decide (kind (nodes !!! start self) = Tumor).

(** The three [if] blocks of [comp_spread_prob]; a block that does not reach a
    [return] yields [None] and control falls through to the next one. *)
Definition spread_binary (nodes : list GraphNode) (self : Edge) (new_state : Z)
  : option Q :=
  if is_binary (nodes !!! end_ self) then
    if state (nodes !!! end_ self) =? 0 then
      if new_state =? 1 then Some (spread_prob self)
      else Some (1 - spread_prob self)%Q
    else None
  else None.

Definition spread_micro (nodes : list GraphNode) (self : Edge) (new_state : Z)
  : option Q :=
  if state (nodes !!! start self) =? 1 then
    if state (nodes !!! end_ self) =? 0 then
      if new_state =? 1 then
        if negb (is_growth self) then Some (spread_prob self * micro_mod self)%Q
        else None
      else
        if negb (is_growth self) then Some (1 - spread_prob self * micro_mod self)%Q
        else None
    else if state (nodes !!! end_ self) =? 1 then
      if new_state =? 2 then
        if is_growth self then Some (spread_prob self) else None
      else
        if is_growth self then Some (1 - spread_prob self)%Q else None
    else None
  else None.

Definition spread_macro (nodes : list GraphNode) (self : Edge) (new_state : Z)
  : option Q :=
  if state (nodes !!! end_ self) =? 0 then
    if new_state =? 1 then
      if negb (is_growth self) then Some (spread_prob self) else None
    else
      if negb (is_growth self) then Some (1 - spread_prob self)%Q else None
  else None.

(** [Edge.comp_spread_prob(new_state)] *)
Definition comp_spread_prob (nodes : list GraphNode) (self : Edge) (new_state : Z)
  : Q :=
  match spread_binary nodes self new_state with
  | Some p => p
  | None =>
      match spread_micro nodes self new_state with
      | Some p => p
      | None =>
          match spread_macro nodes self new_state with
          | Some p => p
          | None => 1%Q
          end
      end
  end.

End Edge.

(** ** lymph/models/unilateral.py *)

Module Unilateral.
Import Edge.

(** *** Collaborators that are not among the sources *)

(** Modelled from the spec: [lymph.descriptors.diagnose_times.Distribution] is
    missing; [unilateral.py] uses its attribute [pmf] and its methods
    [get_param] and [update], a distribution being regenerated on a parameter
    update and the update being refused for a parameter outside its range. *)
Class DistributionAPI (D : Type) : Type := {
  pmf : D -> list Q;
  get_param : D -> Q;
  update : Q -> D -> except D
}.

(** One row of the patient table: the T-stage under [("info", "t_stage")] and,
    per modality and lymph node level, a finding that is true, false or
    missing. *)
Record Patient : Type := mkPatient {
  t_stage : string;
  diagnose : list (string * list (string * option bool))
}.

Record Unilateral (D : Type) : Type := mkUnilateral {
  tumors : list GraphNode;
  lnls : list GraphNode;
  tumor_edges : list Edge;
  lnl_edges : list Edge;
  growth_edges : list Edge;
  diag_time_dists : list (string * D);
  max_t : nat;
  modalities : list (string * list (list Q));
  _diagnose_matrices : option (list (string * list (list Q)));
  _patient_data : option (list Patient)
}.
Arguments mkUnilateral {D}.
Arguments tumors {D}.
Arguments lnls {D}.
Arguments tumor_edges {D}.
Arguments lnl_edges {D}.
Arguments growth_edges {D}.
Arguments diag_time_dists {D}.
Arguments max_t {D}.
Arguments modalities {D}.
Arguments _diagnose_matrices {D}.
Arguments _patient_data {D}.

(** The lymph node levels [l] with the states [st] in their order. *)
Fixpoint put_states (st : list Z) (l : list GraphNode) : list GraphNode :=
  match st, l with
  | s :: st', n :: l' =>
      mkGraphNode (name n) (kind n) (allowed_states n) s :: put_states st' l'
  | _, _ => l
  end.

(** The descriptor [matrix.Transition] is missing: the transition matrix is
    taken as given.  It is computed from the nodes and the edges of the graph,
    "recomputed every time the parameters along the edges of the graph are
    changed", and does not depend on the states the lymph node levels happen to
    be in. *)
Class MatrixAPI : Type := {
  transition_of :
    list GraphNode -> list GraphNode -> list Edge -> list Edge -> list Edge ->
    list (list Q);
  transition_of_states : forall ts ls te le ge st,
    transition_of ts (put_states st ls) te le ge = transition_of ts ls te le ge
}.

(** *** Methods that change the model: state passing, with the state kept when
    an exception is raised *)

Definition action (S A : Type) : Type := S -> except A * S.

#[global] Instance action_ret {S : Type} : MRet (action S) :=
  fun A a s => (Ok a, s).

#[global] Instance action_bind {S : Type} : MBind (action S) :=
  fun A B k x s =>
    match x s with
    | (Ok a, s') => k a s'
    | (Raise e, s') => (Raise e, s')
    end.

Definition lift {S A : Type} (x : except A) : action S A := fun s => (x, s).
Definition throw {S A : Type} (e : exn) : action S A := fun s => (Raise e, s).
Definition get {S : Type} : action S S := fun s => (Ok s, s).
Definition put {S : Type} (s : S) : action S unit := fun _ => (Ok (), s).

(** [for x in xs: body(x)] *)
Fixpoint for_each {S A : Type} (xs : list A) (body : A -> action S unit)
  : action S unit :=
  match xs with
  | [] => mret ()
  | x :: xs' => _ ← body x; for_each xs' body
  end.

(** The same loop when every round yields a value to be collected. *)
Fixpoint for_collect {S A B : Type} (xs : list A) (body : A -> action S B)
  : action S (list B) :=
  match xs with
  | [] => mret []
  | x :: xs' => b ← body x; bs ← for_collect xs' body; mret (b :: bs)
  end.

#[global] Instance Q_inhabited : Inhabited Q := populate 0%Q.

Section Model.
Context {D : Type} `{!DistributionAPI D} `{!MatrixAPI} `{!Numpy}.

Definition with_lnls (m : Unilateral D) (l : list GraphNode) : Unilateral D :=
  mkUnilateral (tumors m) l (tumor_edges m) (lnl_edges m) (growth_edges m)
    (diag_time_dists m) (max_t m) (modalities m) (_diagnose_matrices m)
    (_patient_data m).

Definition with_tumor_edges (m : Unilateral D) (l : list Edge) : Unilateral D :=
  mkUnilateral (tumors m) (lnls m) l (lnl_edges m) (growth_edges m)
    (diag_time_dists m) (max_t m) (modalities m) (_diagnose_matrices m)
    (_patient_data m).

Definition with_lnl_edges (m : Unilateral D) (l : list Edge) : Unilateral D :=
  mkUnilateral (tumors m) (lnls m) (tumor_edges m) l (growth_edges m)
    (diag_time_dists m) (max_t m) (modalities m) (_diagnose_matrices m)
    (_patient_data m).

Definition with_growth_edges (m : Unilateral D) (l : list Edge) : Unilateral D :=
  mkUnilateral (tumors m) (lnls m) (tumor_edges m) (lnl_edges m) l
    (diag_time_dists m) (max_t m) (modalities m) (_diagnose_matrices m)
    (_patient_data m).

Definition with_diag_time_dists (m : Unilateral D) (d : list (string * D))
  : Unilateral D :=
  mkUnilateral (tumors m) (lnls m) (tumor_edges m) (lnl_edges m) (growth_edges m)
    d (max_t m) (modalities m) (_diagnose_matrices m) (_patient_data m).

Definition with_modalities (m : Unilateral D) (d : list (string * list (list Q)))
  : Unilateral D :=
  mkUnilateral (tumors m) (lnls m) (tumor_edges m) (lnl_edges m) (growth_edges m)
    (diag_time_dists m) (max_t m) d (_diagnose_matrices m) (_patient_data m).

Definition with_diagnose_matrices (m : Unilateral D)
    (d : option (list (string * list (list Q)))) : Unilateral D :=
  mkUnilateral (tumors m) (lnls m) (tumor_edges m) (lnl_edges m) (growth_edges m)
    (diag_time_dists m) (max_t m) (modalities m) d (_patient_data m).

Definition with_patient_data (m : Unilateral D) (d : option (list Patient))
  : Unilateral D :=
  mkUnilateral (tumors m) (lnls m) (tumor_edges m) (lnl_edges m) (growth_edges m)
    (diag_time_dists m) (max_t m) (modalities m) (_diagnose_matrices m) d.

(** [Unilateral.transition_matrix] *)
Definition transition_matrix (m : Unilateral D) : list (list Q) :=
  transition_of (tumors m) (lnls m) (tumor_edges m) (lnl_edges m) (growth_edges m).

(** [Unilateral.nodes]: the store to which the edges refer. *)
Definition nodes (m : Unilateral D) : list GraphNode := tumors m ++ lnls m.

(** [Unilateral.edges] *)
Definition edges (m : Unilateral D) : list Edge :=
  tumor_edges m ++ lnl_edges m ++ growth_edges m.

(** [Unilateral.find_node(name)], as a position in [nodes]. *)
Fixpoint find_from (i : nat) (l : list GraphNode) (nm : string) : option nat :=
  match l with
  | [] => None
  | n :: l' => if decide (name n = nm) then Some i else find_from (S i) l' nm
  end.

Definition find_node (m : Unilateral D) (nm : string) : option nat :=
  find_from 0 (nodes m) nm.

(** [Unilateral.allowed_states] *)
Definition allowed_states_of (m : Unilateral D) : except (list Z) :=
  match lnls m with
  | [] => Raise IndexError
  | n :: _ => Ok (allowed_states n)
  end.

(** Modelled from the spec: the setter of a node's [state] is missing; the
    value must be one of the allowed states. *)
Definition set_state (new_state : Z) (n : GraphNode) : except GraphNode :=
  if bool_decide (new_state ∈ allowed_states n)
  then Ok (mkGraphNode (name n) (kind n) (allowed_states n) new_state)
  else Raise ValueError.

(** [lnl.state = new_state] for the [j]-th lymph node level. *)
Definition set_lnl_state (j : nat) (new_state : Z) : action (Unilateral D) unit :=
  fun m =>
    match lnls m !! j with
    | None => (Ok (), m)
    | Some n =>
        match set_state new_state n with
        | Ok n' => (Ok (), with_lnls m (<[j := n']> (lnls m)))
        | Raise e => (Raise e, m)
        end
    end.

Fixpoint assign_positional (j : nat) (args : list Z) : action (Unilateral D) unit :=
  match args with
  | [] => mret ()
  | a :: args' => _ ← set_lnl_state j a; assign_positional (S j) args'
  end.

(** [Unilateral.assign_states] with positional and keyword states: the positional states are
    paired with the lymph node levels in their order ([zip] ends with the shorter
    of the two), then the keyword states are set by name. *)
Definition assign_states (args : list Z) (kwargs : list (string * Z))
  : action (Unilateral D) unit :=
  _ ← assign_positional 0 args;
  for_each kwargs (fun kv =>
    m ← get;
    match find_node m kv.1 with
    | Some i =>
        if decide (kind (nodes m !!! i) = LymphNodeLevel)
        then set_lnl_state (i - length (tumors m)) kv.2
        else mret ()
    | None => mret ()
    end).

(** [Unilateral.get_states(as_dict)] *)
Definition get_states (m : Unilateral D) : list (string * Z) :=
  dict_of_items (map (fun n => (name n, state n)) (lnls m)).

(** *** The parameter surface *)

Inductive EdgeList : Type :=
| TumorEdges
| LnlEdges
| GrowthEdges.

Inductive Field : Type :=
| SpreadProb
| MicroMod.

(** Modelled from the spec: [lymph.descriptors.params] is missing.  A [Param]
    reads and writes one attribute of one edge through [get] and [set]; [set]
    goes through the validating setter of the edge. *)
Record Param : Type := mkParam {
  of_list : EdgeList;
  index : nat;
  field : Field
}.

Definition get_edges (l : EdgeList) (m : Unilateral D) : list Edge :=
  match l with
  | TumorEdges => tumor_edges m
  | LnlEdges => lnl_edges m
  | GrowthEdges => growth_edges m
  end.

Definition set_edges (l : EdgeList) (m : Unilateral D) (es : list Edge)
  : Unilateral D :=
  match l with
  | TumorEdges => with_tumor_edges m es
  | LnlEdges => with_lnl_edges m es
  | GrowthEdges => with_growth_edges m es
  end.

Definition read_field (f : Field) (e : Edge) : Q :=
  match f with
  | SpreadProb => spread_prob e
  | MicroMod => micro_mod e
  end.

Definition write_field (f : Field) (v : Q) (e : Edge) : except Edge :=
  match f with
  | SpreadProb => set_spread_prob v e
  | MicroMod => set_micro_mod v e
  end.

(** [edge.<field> = value] for the [i]-th edge of one of the three lists. *)
Definition set_edge_field (l : EdgeList) (i : nat) (f : Field) (v : Q)
  : action (Unilateral D) unit :=
  fun m =>
    match get_edges l m !! i with
    | None => (Ok (), m)
    | Some e =>
        match write_field f v e with
        | Ok e' => (Ok (), set_edges l m (<[i := e']> (get_edges l m)))
        | Raise err => (Raise err, m)
        end
    end.

(** [param.get()] *)
Definition Param_get (p : Param) (m : Unilateral D) : Q :=
  read_field (field p) (get_edges (of_list p) m !!! index p).

(** [param.set(value)] *)
Definition Param_set (p : Param) (v : Q) : action (Unilateral D) unit :=
  set_edge_field (of_list p) (index p) (field p) v.

(** The name of an edge, as in the keys ["spread_T_to_I"]. *)
Definition edge_name (m : Unilateral D) (e : Edge) : string :=
  name (nodes m !!! start e) +:+ "_to_" +:+ name (nodes m !!! end_ e).

(** Modelled from the spec: the entries of [edge_params], in the order that
    the docstring of [assign_params] gives for positional arguments: the spread
    of the tumor edges, then for every edge between lymph node levels its spread
    followed, in a trinary model, by its microscopic modifier, then the growth
    of every growth edge. *)
Definition edge_param_items (m : Unilateral D) : list (string * Param) :=
  imap (fun i e => ("spread_" +:+ edge_name m e, mkParam TumorEdges i SpreadProb))
       (tumor_edges m)
  ++ concat (imap (fun i e =>
       ("spread_" +:+ edge_name m e, mkParam LnlEdges i SpreadProb)
       :: (if is_trinary (nodes m !!! end_ e)
           then [("micro_" +:+ edge_name m e, mkParam LnlEdges i MicroMod)]
           else []))
       (lnl_edges m))
  ++ imap (fun i e =>
       ("growth_" +:+ name (nodes m !!! end_ e), mkParam GrowthEdges i SpreadProb))
       (growth_edges m).

(** [Unilateral.edge_params] *)
Definition edge_params (m : Unilateral D) : list (string * Param) :=
  dict_of_items (edge_param_items m).

(** The dictionary that [get_params] fills: first the edge parameters, then
    one entry per diagnose-time distribution. *)
Definition get_params_dict (m : Unilateral D) : list (string * Q) :=
  let result :=
    foldl (fun result np => dict_set np.1 (Param_get np.2 m) result)
          [] (edge_params m) in
  foldl (fun result nd => dict_set nd.1 (get_param nd.2) result)
        result (diag_time_dists m).

(** [Unilateral.get_params(as_dict)]: the dictionary, or the list of its
    values. *)
Definition get_params (as_dict : bool) (m : Unilateral D)
  : list (string * Q) + list Q :=
  if as_dict then inl (get_params_dict m) else inr (map snd (get_params_dict m)).

(** [self.diag_time_dists[key].update(value)] *)
Definition update_dist (key : string) (v : Q) : action (Unilateral D) unit :=
  fun m =>
    match dict_get key (diag_time_dists m) with
    | None => (Raise KeyError, m)
    | Some d =>
        match update v d with
        | Ok d' => (Ok (), with_diag_time_dists m (dict_set key d' (diag_time_dists m)))
        | Raise e => (Raise e, m)
        end
    end.

(** The list [params_access] of [assign_params]: the setters of the edge
    parameters followed by the [update] methods of the distributions. *)
Definition params_access (m : Unilateral D) : list (Q -> action (Unilateral D) unit) :=
  map (fun np v => Param_set np.2 v) (edge_params m)
  ++ map (fun nd v => update_dist nd.1 v) (diag_time_dists m).

(** One round of the loop of [assign_params] over the keyword arguments. *)
Definition assign_kwarg (key : string) (value : Q) : action (Unilateral D) unit :=
  m ← get;
  if dict_mem key (diag_time_dists m) then update_dist key value
  else if decide (key = "growth") then
    for_each (seq 0 (length (growth_edges m)))
             (fun i => set_edge_field GrowthEdges i SpreadProb value)
  else if decide (key = "micro_mod") then
    for_each (seq 0 (length (lnl_edges m)))
             (fun i => set_edge_field LnlEdges i MicroMod value)
  else
    match dict_get key (edge_params m) with
    | None => throw KeyError
    | Some p => Param_set p value
    end.

(** [Unilateral.assign_params] with positional and keyword parameters. *)
Definition assign_params (args : list Q) (kwargs : list (string * Q))
  : action (Unilateral D) unit :=
  m ← get;
  _ ← for_each (zip (params_access m) args) (fun sv => sv.1 sv.2);
  for_each kwargs (fun kv => assign_kwarg kv.1 kv.2).

(** *** Hidden states and diagnoses *)

(** Modelled from the spec: [lymph.helper.change_base] is missing; the digits of
    [number] in base [base], most significant first, padded to [length]. *)
Definition change_base (number base length : nat) : list Z :=
  map (fun k => Z.of_nat ((number / base ^ k) mod base)) (rev (seq 0 length)).

(** [Unilateral.state_list] *)
Definition state_list (m : Unilateral D) : except (list (list Z)) :=
  allowed ← allowed_states_of m;
  let base := length allowed in
  let n := length (lnls m) in
  Ok (map (fun i => change_base i base n) (seq 0 (base ^ n))).

(** Modelled from the spec: [LymphNodeLevel.comp_obs_prob] is missing; the
    entry of the confusion matrix at the finding and the state of the level, and
    1 for a missing finding. *)
Definition comp_obs_prob (lnl : GraphNode) (finding : option bool)
    (confusion_matrix : list (list Q)) : Q :=
  match finding with
  | None => 1%Q
  | Some b => (confusion_matrix !!! (if b then 1%nat else 0%nat))
                !!! Z.to_nat (state lnl)
  end.

(** [Unilateral.comp_diagnose_prob(diagnoses)] *)
Definition comp_diagnose_prob
    (diagnoses : list (string * list (string * option bool)))
    (m : Unilateral D) : Q :=
  foldl (fun prob modality =>
           match dict_get modality.1 diagnoses with
           | None => prob
           | Some mod_diagnose =>
               foldl (fun prob lnl =>
                        match dict_get (name lnl) mod_diagnose with
                        | None => prob
                        | Some lnl_diagnose =>
                            (prob * comp_obs_prob lnl lnl_diagnose modality.2)%Q
                        end)
                     prob (lnls m)
           end)
        1%Q (modalities m).

(** [for i, state in enumerate(self.state_list): self.assign_states(state); ...]
    collecting what [body] reads off the model in each state.  The call hands
    the state vector to [assign_states]; its entries are taken as the positional
    states of the lymph node levels. *)
Definition for_states {A : Type} (body : Unilateral D -> A)
  : action (Unilateral D) (list A) :=
  m ← get;
  sl ← lift (state_list m);
  for_collect sl (fun st => _ ← assign_states st []; m' ← get; mret (body m')).

Definition stored_matrices (m : Unilateral D) : list (string * list (list Q)) :=
  default [] (_diagnose_matrices m).

(** [Unilateral._gen_diagnose_matrices(table, t_stage)] *)
Definition _gen_diagnose_matrices (table : list Patient) (stage : string)
  : action (Unilateral D) unit :=
  m ← get;
  _ ← put (with_diagnose_matrices m (Some (stored_matrices m)));
  sl ← lift (state_list m);
  _ ← put (with_diagnose_matrices m
             (Some (dict_set stage (repeat (ones (length table)) (length sl))
                             (stored_matrices m))));
  rows ← for_states (fun m' => map (fun p => comp_diagnose_prob (diagnose p) m') table);
  m ← get;
  put (with_diagnose_matrices m (Some (dict_set stage rows (stored_matrices m)))).

(** [Unilateral.diagnose_matrices] *)
Definition diagnose_matrices (m : Unilateral D)
  : except (list (string * list (list Q))) :=
  match _diagnose_matrices m with
  | Some d => Ok d
  | None => Raise AttributeError
  end.

(** [Unilateral.load_data(data, modality_spsn, mode)]; the value is the list of
    T-stages for which a warning is emitted. *)
Definition load_data (data : list Patient)
    (modality_spsn : option (list (string * list (list Q)))) (mode : string)
  : action (Unilateral D) (list string) :=
  m ← get;
  _ ← match modality_spsn with
      | Some spsn => put (with_modalities m spsn)
      | None => if decide (modalities m = []) then throw ValueError else mret ()
      end;
  m ← get;
  _ ← put (with_diagnose_matrices m None);
  if decide (mode = "HMM") then
    let t_stages := elements (list_to_set (map t_stage data) : gset string) in
    warned ← for_collect t_stages (fun stage =>
      let table := filter (fun p => t_stage p = stage) data in
      _ ← _gen_diagnose_matrices table stage;
      m ← get;
      mret (if dict_mem stage (diag_time_dists m) then [] else [stage]));
    mret (concat warned)
  else if decide (mode = "BN") then
    _ ← _gen_diagnose_matrices data "BN";
    mret []
  else mret [].

(** [Unilateral.patient_data.setter] *)
Definition set_patient_data (patient_data : list Patient)
  : action (Unilateral D) (list string) :=
  m ← get;
  _ ← put (with_patient_data m (Some patient_data));
  load_data patient_data None "HMM".

(** *** Evolution of the hidden Markov model *)

(** The loop of [_evolve]: [n] rounds store the state and advance it, then the
    last state is stored. *)
Fixpoint evolve_rows (T : list (list Q)) (state : list Q) (n : nat)
  : list (list Q) :=
  match n with
  | O => [state]
  | S k => state :: evolve_rows T (vec_mat state T) k
  end.

(** [Unilateral._evolve(t_first, t_last)]: a vector when [t_last] is [None], a
    matrix with one row per time step otherwise. *)
Definition _evolve (t_first : nat) (t_last : option nat) (m : Unilateral D)
  : except (list Q + list (list Q)) :=
  sl ← state_list m;
  if decide (length sl = 0%nat) then Raise IndexError else
  let start_state := unit_vec (length sl) 0 in
  let state := vec_mat start_state (mat_pow (transition_matrix m) t_first) in
  match t_last with
  | None => Ok (inl state)
  | Some t_last =>
      if (t_last <? t_first)%nat then Raise ValueError
      else Ok (inr (evolve_rows (transition_matrix m) state (t_last - t_first)))
  end.

(** [_evolve(t_last=max_t)], as the likelihood and the risk call it. *)
Definition evolved_model (m : Unilateral D) : except (list (list Q)) :=
  r ← _evolve 0 (Some (max_t m)) m;
  match r with
  | inr state_probs => Ok state_probs
  | inl _ => Raise TypeError
  end.

(** *** Likelihood *)

(** [np.sum(np.log(p))] *)
Definition sum_log (p : list Q) : efloat :=
  foldr eadd (Finite 0%Q) (map np_log p).

(** The T-stages over which the HMM likelihood runs. *)
Definition likelihood_t_stages (m : Unilateral D)
    (dm : list (string * list (list Q))) : list string :=
  let stored_t_stages : gset string := list_to_set (dict_keys dm) in
  let provided_t_stages : gset string := list_to_set (dict_keys (diag_time_dists m)) in
  elements (stored_t_stages ∩ provided_t_stages).

(** [pmf @ evolved_model @ diagnose_matrices[stage]] *)
Definition stage_probs (m : Unilateral D) (evolved : list (list Q))
    (dm : list (string * list (list Q))) (stage : string) : except (list Q) :=
  match dict_get stage (diag_time_dists m), dict_get stage dm with
  | Some dist, Some C => Ok (vec_mat (vec_mat (pmf dist) evolved) C)
  | _, _ => Raise KeyError
  end.

(** One round of the loop over the T-stages. *)
Definition add_stage (log : bool) (llh : efloat) (p : list Q) : efloat :=
  if log then eadd llh (sum_log p)
  else match llh with
       | Finite l => Finite (l * vprod p)%Q
       | NegInf => NegInf
       end.

Fixpoint hmm_loop (m : Unilateral D) (evolved : list (list Q))
    (dm : list (string * list (list Q))) (log : bool) (llh : efloat)
    (t_stages : list string) : except efloat :=
  match t_stages with
  | [] => Ok llh
  | stage :: rest =>
      p ← stage_probs m evolved dm stage;
      hmm_loop m evolved dm log (add_stage log llh p) rest
  end.

(** The view of the model that [node.py] has: every node with its incident
    edges, the probability of an edge being its spread probability. *)
Definition as_arc (e : Edge) : Node.Arc :=
  Node.mkArc (spread_prob e) (start e) (end_ e).

Definition as_node (m : Unilateral D) (i : nat) (n : GraphNode) : Node.Node :=
  Node.mkNode (name n)
    (match kind n with Tumor => "tumour" | LymphNodeLevel => "lnl" end)
    (state n) 0 []
    (map as_arc (filter (fun e => end_ e = i) (edges m)))
    (map as_arc (filter (fun e => start e = i) (edges m))).

Definition node_store (m : Unilateral D) : list Node.Node :=
  imap (as_node m) (nodes m).

(** [node.bn_prob()] for the [j]-th lymph node level. *)
Definition lnl_bn_prob (m : Unilateral D) (j : nat) : Q :=
  Node.bn_prob_lin (node_store m) (node_store m !!! (length (tumors m) + j)%nat).

(** The entry of [state_probs] for the state the model is in: the product of
    [bn_prob] over the lymph node levels. *)
Definition bn_state_prob (m : Unilateral D) : Q :=
  foldl (fun prob j => (prob * lnl_bn_prob m j)%Q) 1%Q (seq 0 (length (lnls m))).

(** The vector of the Bayesian network over all hidden states. *)
Definition bn_state_probs : action (Unilateral D) (list Q) :=
  for_states bn_state_prob.

(** [Unilateral._likelihood(mode, log)] *)
Definition _likelihood (mode : string) (log : bool)
  : action (Unilateral D) efloat :=
  if decide (mode = "HMM") then
    m ← get;
    dm ← lift (diagnose_matrices m);
    let t_stages := likelihood_t_stages m dm in
    evolved ← lift (evolved_model m);
    lift (hmm_loop m evolved dm log (Finite (if log then 0%Q else 1%Q)) t_stages)
  else if decide (mode = "BN") then
    state_probs ← bn_state_probs;
    m ← get;
    dm ← lift (diagnose_matrices m);
    match dict_get "BN" dm with
    | None => throw KeyError
    | Some C =>
        let p := vec_mat state_probs C in
        mret (if log then sum_log p else Finite (vprod p))
    end
  else throw UnboundLocalError.

(** The [try] statement of [likelihood]: a [ValueError] of [assign_params]
    becomes the worst likelihood, any other exception passes. *)
Definition likelihood_given (kwargs : list (string * Q)) (log : bool)
    (mode : string) : action (Unilateral D) efloat :=
  fun m =>
    match assign_params [] kwargs m with
    | (Raise ValueError, m') => (Ok (if log then NegInf else Finite 0%Q), m')
    | (Raise e, m') => (Raise e, m')
    | (Ok _, m') => _likelihood mode log m'
    end.

(** [Unilateral.likelihood(data, given_params, log, mode)] *)
Definition likelihood (data : option (list Patient))
    (given_params : option (list (string * Q))) (log : bool) (mode : string)
  : action (Unilateral D) efloat :=
  _ ← match data return action (Unilateral D) unit with
      | Some d => _ ← set_patient_data d; mret ()
      | None => mret ()
      end;
  match given_params with
  | None => _likelihood mode log
  | Some kwargs => likelihood_given kwargs log mode
  end.

(** *** Risk *)

(** The involvement of interest: a dictionary by name of the level or an array
    in the order of the levels; [None] masks a level. *)
Inductive Involvement : Type :=
| InvolvementDict (d : list (string * option Z))
| InvolvementArray (a : list (option Z)).

Definition involvement_array (m : Unilateral D) (involvement : Involvement)
  : list (option Z) :=
  match involvement with
  | InvolvementDict d => map (fun lnl => default None (dict_get (name lnl) d)) (lnls m)
  | InvolvementArray a => a
  end.

(** [np.all(np.equal(involvement, state, where=(involvement != None), ...))] *)
Definition matches_involvement (involvement : list (option Z)) (state : list Z)
  : bool :=
  forallb (fun p => match p.1 with
                    | None => true
                    | Some v => v =? p.2
                    end)
          (zip involvement state).

(** [Unilateral.risk(involvement, given_params, given_diagnoses, t_stage, mode)]:
    the vector of posterior probabilities of all hidden states, or the single
    risk of the involvement of interest. *)
Definition risk (involvement : option Involvement)
    (given_params : option (list (string * Q)))
    (given_diagnoses : option (list (string * list (string * option bool))))
    (t_stage : string) (mode : string)
  : action (Unilateral D) (list Q + Q) :=
  _ ← match given_params return action (Unilateral D) unit with
      | Some kwargs => assign_params [] kwargs
      | None => mret ()
      end;
  let given_diagnoses := default [] given_diagnoses in
  diagnose_probs ← for_states (comp_diagnose_prob given_diagnoses);
  marg_state_probs ←
    (if decide (mode = "HMM") then
       m ← get;
       state_probs ← lift (evolved_model m);
       match dict_get t_stage (diag_time_dists m) with
       | None => throw KeyError
       | Some dist => mret (vec_mat (pmf dist) state_probs)
       end
     else if decide (mode = "BN") then bn_state_probs
     else throw UnboundLocalError);
  let joint_diag_state := vmul marg_state_probs diagnose_probs in
  let marg_diagnose_prob := vsum joint_diag_state in
  let post_state_probs := vdiv joint_diag_state marg_diagnose_prob in
  match involvement with
  | None => mret (inl post_state_probs)
  | Some inv =>
      m ← get;
      sl ← lift (state_list m);
      let marg_states :=
        map (fun st => if matches_involvement (involvement_array m inv) st
                       then 1%Q else 0%Q) sl in
      mret (inr (vsum (vmul marg_states post_state_probs)))
  end.

(** *** Construction *)

(** Modelled from the spec: [lymph.helper.check_unique_names] is missing; the
    names of the nodes must be unique across kinds. *)
Definition check_unique_names (graph : list ((string * string) * list string))
  : except unit :=
  if decide (NoDup (map (fun kv => kv.1.2) graph)) then Ok () else Raise ValueError.

(** [Unilateral.init_nodes(graph, tumor_state, allowed_lnl_states)] *)
Definition init_nodes (graph : list ((string * string) * list string))
    (tumor_state : Z) (allowed_lnl_states : list Z)
  : list GraphNode * list GraphNode :=
  foldl (fun tl kv =>
           if decide (kv.1.1 = "tumor") then
             (tl.1 ++ [mkGraphNode kv.1.2 Tumor [tumor_state] tumor_state], tl.2)
           else if decide (kv.1.1 = "lnl") then
             (tl.1, tl.2 ++ [mkGraphNode kv.1.2 LymphNodeLevel allowed_lnl_states 0])
           else tl)
        ([], []) graph.

(** [Edge(parent=start, child=end)], appended to the list it belongs to. *)
Definition add_edge (start_ : option nat) (end_name : string) (m : Unilateral D)
  : except (Unilateral D) :=
  match start_, find_node m end_name with
  | Some s, Some e =>
      new_edge ← Edge.__init__ (nodes m) s e 0 1;
      if is_tumor_spread (nodes m) new_edge
      then Ok (with_tumor_edges m (tumor_edges m ++ [new_edge]))
      else Ok (with_lnl_edges m (lnl_edges m ++ [new_edge]))
  | _, _ => Raise TypeError
  end.

Fixpoint add_edges (start_ : option nat) (end_names : list string) (m : Unilateral D)
  : except (Unilateral D) :=
  match end_names with
  | [] => Ok m
  | end_name :: rest => m' ← add_edge start_ end_name m; add_edges start_ rest m'
  end.

(** One round of the loop of [init_edges] over the items of the graph. *)
Definition init_edges_of (kv : (string * string) * list string) (m : Unilateral D)
  : except (Unilateral D) :=
  let start_ := find_node m kv.1.2 in
  m' ← match start_ with
       | Some s =>
           if bool_decide (kind (nodes m !!! s) = LymphNodeLevel)
              && is_trinary (nodes m !!! s)
           then growth_edge ← Edge.__init__ (nodes m) s s 0 1;
                Ok (with_growth_edges m (growth_edges m ++ [growth_edge]))
           else Ok m
       | None => Ok m
       end;
  add_edges start_ kv.2 m'.

(** [Unilateral.init_edges(graph)] *)
Fixpoint init_edges (graph : list ((string * string) * list string))
    (m : Unilateral D) : except (Unilateral D) :=
  match graph with
  | [] => Ok m
  | kv :: rest => m' ← init_edges_of kv m; init_edges rest m'
  end.

(** [Unilateral.__init__(graph, tumor_state, allowed_states)]; a new model has
    no distribution over diagnose times, no modality and no data. *)
Definition __init__ (graph : list ((string * string) * list string))
    (tumor_state : option Z) (allowed_states : option (list Z))
  : except (Unilateral D) :=
  let allowed_states := default [0; 1] allowed_states in
  tumor_state ← match tumor_state with
                | Some s => Ok s
                | None => match last allowed_states with
                          | Some s => Ok s
                          | None => Raise IndexError
                          end
                end;
  _ ← check_unique_names graph;
  let tl := init_nodes graph tumor_state allowed_states in
  init_edges graph (mkUnilateral tl.1 tl.2 [] [] [] [] 0 [] None None).

(** [Unilateral.binary(graph)] and [Unilateral.trinary(graph)] *)
Definition binary (graph : list ((string * string) * list string))
  : except (Unilateral D) :=
  __init__ graph None (Some [0; 1]).

Definition trinary (graph : list ((string * string) * list string))
  : except (Unilateral D) :=
  __init__ graph None (Some [0; 1; 2]).

End Model.

(** *** Inspection of a model *)

(** How a number and a node are written into a string by [str] and by an
    f-string is left open. *)
Class Repr : Type := {
  str_int : nat -> string;
  str_float : Q -> string;
  str_node : GraphNode -> string
}.

Definition newline : string := String (ascii_of_nat 10) EmptyString.

(** [sep.join(l)] *)
Fixpoint join (sep : string) (l : list string) : string :=
  match l with
  | [] => EmptyString
  | [s] => s
  | s :: l' => s +:+ sep +:+ join sep l'
  end.

Section Inspection.
Context {D : Type} `{!Repr}.

(** [Unilateral.is_binary] and [Unilateral.is_trinary]: the set of the answers
    of the lymph node levels must have one element, which is returned; [None]
    stands for the [RuntimeError] that is raised otherwise. *)
Definition is_binary_of (m : Unilateral D) : option bool :=
  let res : gset bool := list_to_set (map is_binary (lnls m)) in
  if decide (size res = 1%nat) then head (elements res) else None.

Definition is_trinary_of (m : Unilateral D) : option bool :=
  let res : gset bool := list_to_set (map is_trinary (lnls m)) in
  if decide (size res = 1%nat) then head (elements res) else None.

(** [node.out]: the setter of [start] appends every new edge to the list [out]
    of its start node, so that the list holds the edges that start there. *)
Definition out (m : Unilateral D) (i : nat) : list Edge :=
  filter (fun e => start e = i) (edges m).

(** [Unilateral.graph]: the dictionary from the kind and the name of every node
    to the set of the names of the nodes that its edges lead to. *)
Definition graph (m : Unilateral D) : list ((string * string) * gset string) :=
  foldl (fun res inode =>
           let node_type := match kind inode.2 with
                            | Tumor => "tumor"
                            | LymphNodeLevel => "lnl"
                            end in
           pdict_set (node_type, name inode.2)
             (list_to_set (map (fun o => name (nodes m !!! end_ o)) (out m inode.1)))
             res)
        [] (imap pair (nodes m)).

(** [Edge.__str__] *)
Definition edge_str (m : Unilateral D) (e : Edge) : string :=
  str_node (nodes m !!! start e) +:+ "-->" +:+ str_node (nodes m !!! end_ e).

(** [Unilateral.__str__] *)
Definition __str__ (m : Unilateral D) : string :=
  "Unilateral with " +:+ str_int (length (tumors m)) +:+ " tumors and "
  +:+ str_int (length (lnls m)) +:+ " LNLs".

(** [Unilateral.print_info()]; the value is the text that is printed. *)
Definition print_info (m : Unilateral D) : except string :=
  let num_tumors := length (tumors m) in
  let num_lnls := length (lnls m) in
  let edge_info e := edge_str m e +:+ " " +:+ str_float (spread_prob e) +:+ "%" in
  let head_ :=
    "Unilateral lymphatic system with " +:+ str_int num_tumors +:+ " tumor(s) "
    +:+ "and " +:+ str_int num_lnls +:+ " LNL(s)." +:+ newline in
  let tumor_info := join " " (map edge_info (tumor_edges m)) in
  let lnl_info := join " " (map edge_info (lnl_edges m)) in
  growth_edge ← getitem (growth_edges m) 0;
  lnl_edge ← getitem (lnl_edges m) 0;
  Ok (head_ +:+ tumor_info +:+ newline +:+ lnl_info
      +:+ newline +:+ " the growth probability is: "
      +:+ str_float (spread_prob growth_edge)
      +:+ " the micro mod is " +:+ str_float (micro_mod lnl_edge)).

End Inspection.

End Unilateral.

(** ** The scenarios of the specification, as concrete models *)

Module Examples.
Import Edge Unilateral.

(** Modelled from the spec: a distribution over diagnose times with one
    parameter in [[0,1]]; its probability mass function is regenerated from the
    parameter, and a frozen distribution ignores it. *)
Record Distribution : Type := mkDistribution {
  param : Q;
  func : Q -> list Q
}.

#[global] Instance Distribution_API : DistributionAPI Distribution := {|
  pmf d := func d (param d);
  get_param d := param d;
  update v d :=
    if in_unit_interval v then Ok (mkDistribution v (func d)) else Raise ValueError
|}.

Definition frozen (p : list Q) : Distribution := mkDistribution 0 (fun _ => p).

(** A stand-in for [np.log] that is exact at 0 and at 1. *)
#[global] Instance first_order_log : Numpy := {|
  np_log x := if Qle_bool x 0 then NegInf else Finite (x - 1)%Q
|}.

(** The transition matrix of a single binary level that the tumor reaches with
    probability 0.3, whatever the model (scenario S1). *)
Definition S1_matrix : list (list Q) := [[7 # 10; 3 # 10]; [0; 1]]%Q.

#[global] Instance S1_transitions : MatrixAPI := {|
  transition_of _ _ _ _ _ := S1_matrix;
  transition_of_states _ _ _ _ _ _ := eq_refl
|}.

Definition unwrap {A : Type} `{!Inhabited A} (x : except A) : A :=
  match x with
  | Ok a => a
  | Raise _ => inhabitant
  end.

Definition empty_model : Unilateral Distribution :=
  mkUnilateral [] [] [] [] [] [] 0 [] None None.

#[global] Instance model_inhabited : Inhabited (Unilateral Distribution) :=
  populate empty_model.

(** S1: a tumor [T] that spreads to the level [II]. *)
Definition S1_graph : list ((string * string) * list string) :=
  [(("tumor", "T"), ["II"]); (("lnl", "II"), [])].

Definition S1_model : Unilateral Distribution :=
  let m := unwrap (binary S1_graph) in
  let m := (assign_params [] [("spread_T_to_II", 3 # 10)%Q] m).2 in
  let m := with_modalities m [("CT", [[9 # 10; 2 # 10]; [1 # 10; 8 # 10]]%Q)] in
  mkUnilateral (tumors m) (lnls m) (tumor_edges m) (lnl_edges m) (growth_edges m)
    [("early", frozen [0; 1]%Q)] 1 (modalities m) None None.

(** One patient of T-stage "early" whose level [II] is found involved. *)
Definition S1_data : list Patient :=
  [mkPatient "early" [("CT", [("II", Some true)])]].

Definition S1_loaded : Unilateral Distribution :=
  Eval vm_compute in (load_data S1_data None "HMM" S1_model).2.

(** S2: the chain [T -> II -> III]. *)
Definition S2_graph : list ((string * string) * list string) :=
  [(("tumor", "T"), ["II"]); (("lnl", "II"), ["III"]); (("lnl", "III"), [])].

Definition S2_model : Unilateral Distribution :=
  (assign_params [] [("spread_T_to_II", 4 # 10); ("spread_II_to_III", 2 # 10)]%Q
     (unwrap (binary S2_graph))).2.

(** The edge from [II] to [III] of S2. *)
Definition S2_edge : Edge := lnl_edges S2_model !!! 0%nat.

(** S3: a single trinary level with its growth edge. *)
Definition S3_model : Unilateral Distribution :=
  (assign_params [] [("spread_T_to_II", 2 # 10); ("growth_II", 1 # 2)]%Q
     (unwrap (trinary S1_graph))).2.

Definition S3_growth_edge : Edge := growth_edges S3_model !!! 0%nat.

(** The nodes of S3 with the level [II] microscopically involved. *)
Definition S3_nodes_micro : list GraphNode :=
  tumors S3_model ++ put_states [1] (lnls S3_model).

(** The same chain as S2 with trinary levels. *)
Definition S2_trinary : Unilateral Distribution := unwrap (trinary S2_graph).

End Examples.

(** ** Quantities that the statements below refer to *)

(** The probability that no parent of a node spreads to it in the Bayesian
    network: the product of [(1 - t_e) ^ x_e] over the incoming edges, [x_e]
    being the state of the parent. *)
Definition no_spread_prob (nodes : list Node.Node) (arcs : list Node.Arc) : Q :=
  vprod (map (fun e => ((1 - Node.t e) ^ Node.state (nodes !!! Node.start e))%Q) arcs).

(** The model with its lymph node levels in the states [st]. *)
Definition with_states {D : Type} (m : Unilateral.Unilateral D) (st : list Z)
  : Unilateral.Unilateral D :=
  Unilateral.with_lnls m (Unilateral.put_states st (Unilateral.lnls m)).

(** All lymph node levels of the model, and there is at least one, have the
    same allowed states [0, ..., k-1]. *)
Definition uniform_levels {D : Type} (m : Unilateral.Unilateral D) : Prop :=
  Unilateral.lnls m <> [] /\
  exists k : nat,
    (0 < k)%nat /\
    Forall (fun n => Edge.allowed_states n = map Z.of_nat (seq 0 k))
           (Unilateral.lnls m).

(** Every row of the matrix has [n] entries. *)
Definition has_columns (n : nat) (M : list (list Q)) : Prop :=
  Forall (fun r => length r = n) M.

(** An [n] by [n] matrix. *)
Definition square (n : nat) (M : list (list Q)) : Prop :=
  length M = n /\ has_columns n M.

(** Every row of the matrix sums to one. *)
Definition row_stochastic (M : list (list Q)) : Prop :=
  Forall (fun r => (vsum r == 1)%Q) M.

(** The distribution concentrated on the first state, the all-healthy one:
    [(1, 0, ..., 0)] with [n] entries. *)
Definition pi_0 (n : nat) : list Q :=
  match n with
  | O => []
  | S k => 1%Q :: zeros k
  end.

(** A node of [node.py] put into the state [s]. *)
Definition node_in_state (self : Node.Node) (s : Z) : Node.Node :=
  Node.mkNode (Node.name self) (Node.typ self) s (Node.n_obs self)
    (Node.obs_table self) (Node.inc self) (Node.out self).

(** The invariant that the setters of [edge.py] maintain: both parameters of
    every edge lie in the unit interval. *)
Definition edge_in_range (e : Edge.Edge) : Prop :=
  in_unit_interval (Edge.spread_prob e) = true /\
  in_unit_interval (Edge.micro_mod e) = true.

Definition params_in_range {D : Type} (m : Unilateral.Unilateral D) : Prop :=
  Forall edge_in_range (Unilateral.tumor_edges m) /\
  Forall edge_in_range (Unilateral.lnl_edges m) /\
  Forall edge_in_range (Unilateral.growth_edges m).

(** What the keys of a bulk assignment are resolved against: the names of the
    distributions, the edge parameters, and the numbers of growth edges and of
    edges between lymph node levels. *)
Definition key_space {D : Type} (m : Unilateral.Unilateral D)
  : list string * list (string * Unilateral.Param) * nat * nat :=
  (dict_keys (Unilateral.diag_time_dists m), Unilateral.edge_params m,
   length (Unilateral.growth_edges m), length (Unilateral.lnl_edges m)).

(** The key is one that [assign_params] knows. *)
Definition known_key {D : Type} (m : Unilateral.Unilateral D) (k : string) : Prop :=
  (k ∈ dict_keys (Unilateral.diag_time_dists m)) \/
  k = "growth" \/ k = "micro_mod" \/
  is_Some (dict_get k (Unilateral.edge_params m)).

(** The key addresses the parameter of at least one edge: an edge parameter by
    its name, or one of the two aggregate keys in a model that has growth edges,
    respectively edges between lymph node levels. *)
Definition addresses_edge {D : Type} (m : Unilateral.Unilateral D) (k : string)
  : Prop :=
  (k ∉ dict_keys (Unilateral.diag_time_dists m)) /\
  ((k = "growth" /\ (0 < length (Unilateral.growth_edges m))%nat) \/
   (k = "micro_mod" /\ (0 < length (Unilateral.lnl_edges m))%nat) \/
   is_Some (dict_get k (Unilateral.edge_params m))).

(** The double-star call [assign_params] of [get_params(as_dict)]: the
    unpacking takes a mapping and refuses a list. *)
Definition reassign_params {D : Type} `{!Unilateral.DistributionAPI D}
    (as_dict : bool) : Unilateral.action (Unilateral.Unilateral D) unit :=
  fun m =>
    match Unilateral.get_params as_dict m with
    | inl kwargs => Unilateral.assign_params [] kwargs m
    | inr _ => (Raise TypeError, m)
    end.



(** A distribution over [n] states: [n] non-negative entries that sum to one;
    and a matrix of [n] such rows. *)
Definition distribution (n : nat) (v : list Q) : Prop :=
  length v = n /\ Forall (fun x => (0 <= x)%Q) v /\ (vsum v == 1)%Q.

Definition stochastic_matrix (n : nat) (M : list (list Q)) : Prop :=
  length M = n /\ Forall (distribution n) M.

(** The names under the keys of one kind, in the order of the graph. *)
Definition keys_of_kind (kind : string)
    (graph : list ((string * string) * list string)) : list string :=
  map (fun kv => kv.1.2) (filter (fun kv => kv.1.1 = kind) graph).

(** The number of edges that the keys of one kind ask for. *)
Definition ends_of_kind (kind : string)
    (graph : list ((string * string) * list string)) : nat :=
  sum_list (map (fun kv => length kv.2) (filter (fun kv => kv.1.1 = kind) graph)).

(** A graph that [Unilateral.__init__] accepts: every key that has ends is a
    tumor or a lymph node level, and every end is the name of a lymph node
    level of the graph. *)
Definition well_formed (graph : list ((string * string) * list string)) : Prop :=
  Forall (fun kv =>
            (kv.2 <> [] -> kv.1.1 = "tumor" \/ kv.1.1 = "lnl") /\
            Forall (fun end_name => end_name ∈ keys_of_kind "lnl" graph) kv.2)
         graph.

(** The position in the store [ns] of the first node of a name. *)
Definition position (ns : list Edge.GraphNode) (nm : string) : nat :=
  default 0%nat (Unilateral.find_from 0 ns nm).

(** The edges that the keys of one kind ask for, with the parameters of a new
    edge, and one growth edge per lymph node level. *)
Definition edges_of_kind (ns : list Edge.GraphNode) (kind : string)
    (graph : list ((string * string) * list string)) : list Edge.Edge :=
  concat (map (fun kv =>
                 map (fun end_name =>
                        Edge.mkEdge (position ns kv.1.2) (position ns end_name) 1 0)
                     kv.2)
              (filter (fun kv => kv.1.1 = kind) graph)).

Definition growth_edges_of (ns : list Edge.GraphNode)
    (graph : list ((string * string) * list string)) : list Edge.Edge :=
  map (fun nm => Edge.mkEdge (position ns nm) (position ns nm) 1 0)
      (keys_of_kind "lnl" graph).

(** The model with further edges at the end of its three lists. *)
Definition built {D : Type} (m : Unilateral.Unilateral D)
    (te le ge : list Edge.Edge) : Unilateral.Unilateral D :=
  Unilateral.mkUnilateral (Unilateral.tumors m) (Unilateral.lnls m)
    (Unilateral.tumor_edges m ++ te) (Unilateral.lnl_edges m ++ le)
    (Unilateral.growth_edges m ++ ge) (Unilateral.diag_time_dists m)
    (Unilateral.max_t m) (Unilateral.modalities m)
    (Unilateral._diagnose_matrices m) (Unilateral._patient_data m).

(** The model of a graph: one tumor per tumor key and one lymph node level per
    key of a level, in the order of the graph, and the edges of the graph. *)
Definition constructed {D : Type} (graph : list ((string * string) * list string))
    (tumor_state : Z) (allowed_states : list Z) : Unilateral.Unilateral D :=
  let ts := map (fun nm => Edge.mkGraphNode nm Edge.Tumor [tumor_state] tumor_state)
                (keys_of_kind "tumor" graph) in
  let ls := map (fun nm => Edge.mkGraphNode nm Edge.LymphNodeLevel allowed_states 0)
                (keys_of_kind "lnl" graph) in
  Unilateral.mkUnilateral ts ls
    (edges_of_kind (ts ++ ls) "tumor" graph) (edges_of_kind (ts ++ ls) "lnl" graph)
    (if decide (length allowed_states = 3%nat)
     then growth_edges_of (ts ++ ls) graph else [])
    [] 0 [] None None.

(** A name resolves in the store [ns] to a node with the property [P]. *)
Definition resolves_to (ns : list Edge.GraphNode) (nm : string)
    (P : Edge.GraphNode -> Prop) : Prop :=
  exists (i : nat) n,
    Unilateral.find_from 0 ns nm = Some i /\ ns !! i = Some n /\ P n.

(** An item of a graph resolves in the store: a tumor key to a tumor, the key
    of a level to a level, trinary or not as [tri] says, a key of another kind,
    which then has no ends, to nothing, and every end to a level. *)
Definition key_resolves (ns : list Edge.GraphNode) (tri : bool)
    (kv : (string * string) * list string) : Prop :=
  ((kv.1.1 = "tumor" /\ resolves_to ns kv.1.2 (fun n => Edge.kind n = Edge.Tumor)) \/
   (kv.1.1 = "lnl" /\
    resolves_to ns kv.1.2 (fun n => Edge.kind n = Edge.LymphNodeLevel /\
                                    Edge.is_trinary n = tri)) \/
   (kv.1.1 <> "tumor" /\ kv.1.1 <> "lnl" /\
    Unilateral.find_from 0 ns kv.1.2 = None /\ kv.2 = [])) /\
  Forall (fun end_name =>
            resolves_to ns end_name (fun n => Edge.kind n = Edge.LymphNodeLevel))
         kv.2.

(** The edge with the value [v] in one of its two parameters. *)
Definition with_field (f : Unilateral.Field) (v : Q) (e : Edge.Edge) : Edge.Edge :=
  match f with
  | Unilateral.SpreadProb =>
      Edge.mkEdge (Edge.start e) (Edge.end_ e) (Edge.micro_mod e) v
  | Unilateral.MicroMod =>
      Edge.mkEdge (Edge.start e) (Edge.end_ e) v (Edge.spread_prob e)
  end.

(** The name is not that of a lymph node level as [find_node] resolves it: no
    node has it, or the first node that has it is a tumor. *)
Definition names_no_level {D : Type} (m : Unilateral.Unilateral D) (nm : string)
  : Prop :=
  match Unilateral.find_node m nm with
  | Some i => Edge.kind (Unilateral.nodes m !!! i) <> Edge.LymphNodeLevel
  | None => True
  end.

(** All observations of [n] modalities, every finding being 0 or 1. *)
Fixpoint all_observations (n : nat) : list (list Z) :=
  match n with
  | O => [[]]
  | S k => map (cons 0) (all_observations k) ++ map (cons 1) (all_observations k)
  end.

(** A confusion matrix of two findings (the rows) and two states (the
    columns), each column summing to one. *)
Definition column_stochastic (table : list (list Q)) : Prop :=
  exists a b c d : Q,
    table = [[a; b]; [c; d]] /\ (a + c == 1)%Q /\ (b + d == 1)%Q.

(** The entry of a confusion matrix for the finding [o] and the state [s]. *)
Definition confusion_entry (table : list (list Q)) (o s : Z) : Q :=
  (table !!! Z.to_nat o) !!! Z.to_nat s.

(** The product of these entries over the modalities, for a node in state [s]
    and one finding per modality. *)
Fixpoint obs_product (s : Z) (tables : list (list (list Q))) (obs : list Z) : Q :=
  match tables, obs with
  | table :: tables', o :: obs' =>
      (confusion_entry table o s * obs_product s tables' obs')%Q
  | _, _ => 1%Q
  end.

(** Every parent of the node is in state 0 or 1. *)
Definition binary_parents (nodes : list Node.Node) (self : Node.Node) : Prop :=
  Forall (fun e => Node.state (nodes !!! Node.start e) = 0 \/
                   Node.state (nodes !!! Node.start e) = 1) (Node.inc self).

(** The attribute assignments [edge.spread_prob = v] and [edge.micro_mod = v]
    on an edge that lives on: a refused value raises and leaves the edge as it
    was. *)
Definition assign_field (fv : Unilateral.Field * Q)
  : Unilateral.action Edge.Edge unit :=
  fun e =>
    match Unilateral.write_field fv.1 fv.2 e with
    | Ok e' => (Ok (), e')
    | Raise err => (Raise err, e)
    end.

(** The findings of a diagnosis that the model can read: those under the name
    of one of its modalities, for one of its lymph node levels. *)
Definition known_findings {D : Type} (m : Unilateral.Unilateral D)
    (diagnoses : list (string * list (string * option bool)))
  : list (string * list (string * option bool)) :=
  map (fun kv => (kv.1, filter (fun f => f.1 ∈ map Edge.name (Unilateral.lnls m)) kv.2))
      (filter (fun kv => kv.1 ∈ dict_keys (Unilateral.modalities m)) diagnoses).

(** * Properties *)

(** ** [node.py] *)

Lemma lower_ascii_t (c : ascii) :
  Node.lower_ascii c = "t"%char <-> c = "t"%char \/ c = "T"%char.
Proof.
  destruct c as [[] [] [] [] [] [] [] []]; vm_compute;
    split; intros H; try discriminate H;
    try (destruct H as [H | H]; discriminate H);
    auto.
Qed.

Lemma node_init_tumour_state (name : string) (state : Z) (typ : option string)
    (obs_table : list (list (list Q))) (n : Node.Node) :
  Node.__init__ name state typ obs_table = Ok n ->
  Node.state n = if decide (Node.typ n = "tumour") then 1 else state.
Proof.
  unfold Node.__init__. intros H.
  destruct typ as [ty | ]; cbn in H.
  - injection H as <-. reflexivity.
  - destruct name as [ | c rest]; cbn in H; [discriminate | ].
    destruct (decide (Node.lower_ascii c = "t"%char)); cbn in H;
      injection H as <-; reflexivity.
Qed.

(** C10 (as amended): for a non-empty name and [typ=None] the kind is read off
    the first character, a tumour for 't' or 'T' and a lymph node level for
    every other character; and whenever a node is constructed, with or without
    an explicit [typ], its state is 1 if it is a tumour and the [state] argument
    otherwise. *)
Theorem node_init_kind_and_state (c : ascii) (rest name : string) (state : Z)
    (typ : option string) (obs_table : list (list (list Q))) :
  (exists n, Node.__init__ (String c rest) state None obs_table = Ok n /\
     Node.typ n = if bool_decide (c = "t"%char \/ c = "T"%char)
                  then "tumour" else "lnl") /\
  match Node.__init__ name state typ obs_table with
  | Ok n => Node.state n = if decide (Node.typ n = "tumour") then 1 else state
  | Raise _ => True
  end.
Proof.
  split.
  - unfold Node.__init__; cbn.
    destruct (decide (Node.lower_ascii c = "t"%char)) as [Hc | Hc]; cbn;
      eexists; (split; [reflexivity | ]); cbn.
    + rewrite bool_decide_eq_true_2; [reflexivity | by apply lower_ascii_t].
    + rewrite bool_decide_eq_false_2; [reflexivity | ].
      intros H; apply Hc; by apply lower_ascii_t.
  - destruct (Node.__init__ name state typ obs_table) eqn:E; [ | exact I].
    by apply node_init_tumour_state in E.
Qed.

(** C10, the claim as stated fails for the empty name: there is no first
    character to look at, the construction raises [IndexError] and yields no
    lymph node level. *)
Lemma node_init_empty_name :
  Node.__init__ EmptyString 0 None Node.default_obs_table = Raise IndexError /\
  ~ (exists n, Node.__init__ EmptyString 0 None Node.default_obs_table = Ok n /\
       Node.typ n = "lnl").
Proof.
  split; [reflexivity | ].
  intros [n [H _]]. discriminate H.
Qed.

Section NodeFacts.
Context {numpy : Numpy}.

(** An edge whose parent is healthy leaves both entries of [res] as they are. *)
Lemma trans_step_healthy_parent (nodes : list Node.Node) (res : Q * Q)
    (edge : Node.Arc) :
  Node.state (nodes !!! Node.start edge) = 0 ->
  ((Node.trans_step nodes res edge).1 == res.1)%Q /\
  ((Node.trans_step nodes res edge).2 == res.2)%Q.
Proof.
  intros Hs. unfold Node.trans_step. rewrite Hs.
  change (inject_Z 0) with 0%Q. change (((1 - Node.t edge) ^ 0)%Q) with 1%Q.
  destruct res as [r0 r1]. cbn [fst snd]. split; ring.
Qed.

Lemma foldl_bn_step (nodes : list Node.Node) (arcs : list Node.Arc) (acc : Q) :
  (foldl (Node.bn_step nodes) acc arcs == acc * no_spread_prob nodes arcs)%Q.
Proof.
  revert acc. induction arcs as [ | e arcs IH]; intros acc.
  - unfold no_spread_prob. cbn. ring.
  - cbn [foldl]. rewrite IH. unfold Node.bn_step, no_spread_prob, vprod.
    cbn [map foldr]. ring.
Qed.

(** The two cases of [bn_prob] for a binary node. *)
Lemma bn_prob_lin_binary (nodes : list Node.Node) (self : Node.Node) :
  (Node.state self = 0 ->
   (Node.bn_prob_lin nodes self == no_spread_prob nodes (Node.inc self))%Q) /\
  (Node.state self = 1 ->
   (Node.bn_prob_lin nodes self == 1 - no_spread_prob nodes (Node.inc self))%Q).
Proof.
  unfold Node.bn_prob_lin. split; intros ->; rewrite foldl_bn_step; cbn; ring.
Qed.

(** A healthy node all of whose parents are healthy stays healthy: this is what
    [trans_prob] computes, and what the claim C1 asks of an edge. *)
Lemma trans_prob_healthy_parents (nodes : list Node.Node) (self : Node.Node) :
  Node.state self = 0 ->
  Forall (fun e => Node.state (nodes !!! Node.start e) = 0) (Node.inc self) ->
  exists stay spread,
    Node.trans_prob nodes self false = [Finite stay; Finite spread] /\
    (stay == 1)%Q /\ (spread == 0)%Q.
Proof.
  intros Hs Hinc. unfold Node.trans_prob. rewrite Hs. cbn [Z.eqb Node.log_or_id].
  eexists. eexists. split; [reflexivity | ].
  assert (Hgen : forall res,
            ((foldl (Node.trans_step nodes) res (Node.inc self)).1 == res.1)%Q /\
            ((foldl (Node.trans_step nodes) res (Node.inc self)).2 == res.2)%Q).
  { induction Hinc as [ | e arcs He Harcs IH]; intros res; [by split | ].
    cbn [foldl]. destruct (IH (Node.trans_step nodes res e)) as [H1 H2].
    destruct (trans_step_healthy_parent nodes res e He) as [H3 H4].
    split; by etransitivity. }
  destruct (Hgen (1%Q, 0%Q)) as [H1 H2]. by split.
Qed.

End NodeFacts.

(** ** [edge.py] *)

Lemma comp_spread_prob_binary_healthy_child (nodes : list Edge.GraphNode)
    (e : Edge.Edge) (new_state : Z) :
  Edge.is_binary (nodes !!! Edge.end_ e) = true ->
  Edge.state (nodes !!! Edge.end_ e) = 0 ->
  Edge.comp_spread_prob nodes e new_state =
    if new_state =? 1 then Edge.spread_prob e else (1 - Edge.spread_prob e)%Q.
Proof.
  intros Hb Hs. unfold Edge.comp_spread_prob, Edge.spread_binary.
  rewrite Hb, Hs. cbn. by destruct (new_state =? 1).
Qed.

(** C1, the code at the edge from [II] to [III] of scenario S2, both levels
    binary and healthy: [comp_spread_prob] does not look at the state of the
    parent and returns the spread probability 0.2 for the step to state 1 and
    0.8 for staying healthy, where a healthy parent should contribute 0 and 1. *)
Theorem comp_spread_prob_healthy_parent_S2 :
  let nodes := Unilateral.nodes Examples.S2_model in
  let e := Examples.S2_edge in
  Edge.kind (nodes !!! Edge.start e) = Edge.LymphNodeLevel /\
  Edge.state (nodes !!! Edge.start e) = 0 /\
  Edge.is_binary (nodes !!! Edge.end_ e) = true /\
  Edge.state (nodes !!! Edge.end_ e) = 0 /\
  Edge.comp_spread_prob nodes e 1 = (2 # 10)%Q /\
  Edge.comp_spread_prob nodes e 0 = (1 - (2 # 10))%Q.
Proof. repeat split. Qed.

(** The same scenario through [Node.trans_prob]: the healthy level [II] does
    not spread to [III], and the step from (0,0) to (1,0) has probability
    [0.4 * 1]. *)
Lemma trans_prob_S2 :
  let store := Unilateral.node_store Examples.S2_model in
  exists II_stay II_spread III_stay III_spread,
    Node.trans_prob store (store !!! 1%nat) false
      = [Finite II_stay; Finite II_spread] /\
    Node.trans_prob store (store !!! 2%nat) false
      = [Finite III_stay; Finite III_spread] /\
    (III_stay == 1)%Q /\ (III_spread == 0)%Q /\
    (II_spread * III_stay == 4 # 10)%Q.
Proof.
  do 4 eexists. split; [vm_compute; reflexivity | ].
  split; [vm_compute; reflexivity | ]. by repeat split.
Qed.

(** C5: a growth edge on a trinary level in state 1 contributes its spread
    probability [g] to the step to state 2 and [1 - g] to staying in state 1;
    in the states 0 and 2 it contributes the factor 1 whatever the new state. *)
Theorem growth_edge_contract (nodes : list Edge.GraphNode) (e : Edge.Edge) :
  Edge.is_growth e = true ->
  Edge.is_trinary (nodes !!! Edge.end_ e) = true ->
  match Edge.state (nodes !!! Edge.end_ e) with
  | 1 => Edge.comp_spread_prob nodes e 2 = Edge.spread_prob e /\
         Edge.comp_spread_prob nodes e 1 = (1 - Edge.spread_prob e)%Q
  | 0 | 2 => forall new_state, Edge.comp_spread_prob nodes e new_state = 1%Q
  | _ => True
  end.
Proof.
  intros Hg Ht.
  assert (Hb : Edge.is_binary (nodes !!! Edge.end_ e) = false).
  { unfold Edge.is_binary, Edge.is_trinary in *.
    apply bool_decide_eq_true in Ht. apply bool_decide_eq_false. lia. }
  assert (Hse : Edge.start e = Edge.end_ e).
  { unfold Edge.is_growth in Hg. by apply Nat.eqb_eq in Hg. }
  unfold Edge.comp_spread_prob, Edge.spread_binary, Edge.spread_micro,
    Edge.spread_macro.
  rewrite Hb, Hg, Hse.
  destruct (Edge.state (nodes !!! Edge.end_ e)) as [ | [ p | p | ] | p ]; cbn;
    try exact I; try done.
  - intros new_state. by destruct (new_state =? 1).
  - destruct p as [ p | p | ]; try exact I. done.
Qed.

(** Scenario S3, a growth probability of 0.5: from state 1 the level grows to
    state 2 with probability 0.5 and stays with probability 0.5. *)
Lemma growth_edge_contract_S3 :
  let nodes := Examples.S3_nodes_micro in
  Edge.comp_spread_prob nodes Examples.S3_growth_edge 2 = (1 # 2)%Q /\
  Edge.comp_spread_prob nodes Examples.S3_growth_edge 1 = (1 - (1 # 2))%Q.
Proof.
  exact (growth_edge_contract Examples.S3_nodes_micro Examples.S3_growth_edge eq_refl eq_refl).
Defined.

(** ** State passing *)

Section ActionFacts.
Context {S A B : Type}.

Lemma bind_ok (x : Unilateral.action S A) (k : A -> Unilateral.action S B)
    (s s' : S) (a : A) :
  x s = (Ok a, s') -> (x ≫= k) s = k a s'.
Proof. intros H. unfold mbind, Unilateral.action_bind. by rewrite H. Qed.

Lemma bind_raise (x : Unilateral.action S A) (k : A -> Unilateral.action S B)
    (s s' : S) (e : exn) :
  x s = (Raise e, s') -> (x ≫= k) s = (Raise e, s').
Proof. intros H. unfold mbind, Unilateral.action_bind. by rewrite H. Qed.

Lemma bind_inv (x : Unilateral.action S A) (k : A -> Unilateral.action S B)
    (s s' : S) (r : except B) :
  (x ≫= k) s = (r, s') ->
  (exists a s1, x s = (Ok a, s1) /\ k a s1 = (r, s')) \/
  (exists e, x s = (Raise e, s') /\ r = Raise e).
Proof.
  unfold mbind, Unilateral.action_bind.
  destruct (x s) as [[a | e] s1]; intros H.
  - left. by exists a, s1.
  - right. exists e. by injection H as <- <-.
Qed.

End ActionFacts.

(** ** Assigning the hidden states *)

Section StateFacts.
Import Edge Unilateral.
Context {D : Type}.
Implicit Types (m : Unilateral D) (st : list Z) (l : list GraphNode).

Lemma with_lnls_id m : with_lnls m (lnls m) = m.
Proof. by destruct m. Qed.





Lemma put_states_name st l : map name (put_states st l) = map name l.
Proof.
  revert l. induction st as [ | s st IH]; intros [ | n l]; cbn; try done.
  by rewrite IH.
Qed.

Lemma put_states_state st l :
  length st = length l -> map state (put_states st l) = st.
Proof.
  revert l. induction st as [ | s st IH]; intros [ | n l]; cbn; try done.
  intros H. f_equal. apply IH. lia.
Qed.

(** The positional states are written one after the other. *)
Lemma assign_positional_spec st : forall pre l m,
  lnls m = pre ++ l ->
  Forall2 (fun s n => s ∈ allowed_states n) st l ->
  assign_positional (length pre) st m
  = (Ok (), with_lnls m (pre ++ put_states st l)).
Proof.
  induction st as [ | s st IH]; intros pre l m Hm Hv.
  - inversion Hv; subst. cbn. rewrite <- Hm. by rewrite with_lnls_id.
  - inversion Hv as [ | ? n ? l' Hs Hv']; subst. cbn [assign_positional].
    erewrite bind_ok; cycle 1.
    { unfold set_lnl_state. rewrite Hm.
      rewrite lookup_app_r, Nat.sub_diag by lia. cbn.
      unfold set_state. rewrite bool_decide_eq_true_2 by done.
      rewrite insert_app_r_alt, Nat.sub_diag by lia. cbn. reflexivity. }
    specialize (IH (pre ++ [mkGraphNode (name n) (kind n) (allowed_states n) s])
                  l' (with_lnls m (pre ++ mkGraphNode (name n) (kind n)
                                           (allowed_states n) s :: l'))).
    rewrite length_app, Nat.add_1_r in IH. rewrite IH.
    + cbn. by rewrite <- app_assoc.
    + cbn. by rewrite <- app_assoc.
    + done.
Qed.

Lemma assign_states_spec st m :
  Forall2 (fun s n => s ∈ allowed_states n) st (lnls m) ->
  assign_states st [] m = (Ok (), with_states m st).
Proof.
  intros Hv. unfold assign_states.
  erewrite bind_ok; [ | by apply (assign_positional_spec st [] (lnls m) m)].
  reflexivity.
Qed.




Lemma change_base_length i k n : length (change_base i k n) = n.
Proof.
  unfold change_base. by rewrite length_map, length_rev, length_seq.
Qed.

Lemma change_base_digits i k n :
  (0 < k)%nat ->
  Forall (fun d => d ∈ map Z.of_nat (seq 0 k)) (change_base i k n).
Proof.
  intros Hk. unfold change_base. apply Forall_map, Forall_forall.
  intros j _. cbn. apply list_elem_of_fmap. eexists. split; [reflexivity | ].
  apply elem_of_seq. split; [lia | ]. cbn. apply Nat.mod_upper_bound. lia.
Qed.

Lemma valid_states_intro (al : list Z) st l :
  length st = length l ->
  Forall (fun d => d ∈ al) st ->
  Forall (fun n => allowed_states n = al) l ->
  Forall2 (fun s n => s ∈ allowed_states n) st l.
Proof.
  revert l. induction st as [ | s st IH]; intros [ | n l] Hl Hs Hn; cbn in Hl;
    try discriminate; constructor.
  - inversion Hs; inversion Hn; subst. done.
  - inversion Hs; inversion Hn; subst. apply IH; auto.
Qed.

(** In a model with uniform levels the list of hidden states exists, is not
    empty, and each of its states can be assigned. *)
Lemma state_list_spec m :
  uniform_levels m ->
  exists sl,
    state_list m = Ok sl /\ sl <> [] /\
    Forall (fun st => Forall2 (fun s n => s ∈ allowed_states n) st (lnls m)) sl.
Proof.
  intros [Hne [k [Hk Hal]]]. unfold state_list, allowed_states_of.
  destruct (lnls m) as [ | n l] eqn:El; [done | ].
  assert (Hn : allowed_states n = map Z.of_nat (seq 0 k)) by (by inversion Hal).
  unfold mbind, except_bind. rewrite Hn, length_map, length_seq.
  eexists. split; [reflexivity | ]. split.
  - assert (HN : (k ^ length (n :: l) <> 0)%nat) by (apply Nat.pow_nonzero; lia).
    destruct (k ^ length (n :: l))%nat; [done | ].
    rewrite <- cons_seq. cbn [map]. done.
  - apply Forall_map, Forall_forall. intros i _.
    apply (valid_states_intro (map Z.of_nat (seq 0 k))).
    + by rewrite change_base_length.
    + by apply change_base_digits.
    + done.
Qed.




End StateFacts.

(** ** Vectors and matrices *)

Section Algebra.

Local Ltac vsimpl :=
  cbn [vsum vprod vadd vmul vscale vdiv zeros ones map length vec_mat_n] in *.

Implicit Types (u v w : list Q) (M A B : list (list Q)) (n k : nat).

#[global] Instance veq_equivalence : Equivalence veq.
Proof.
  split.
  - intros u. induction u; constructor; [reflexivity | done].
  - intros u v H. induction H; constructor; [by symmetry | done].
  - intros u v w H1. revert w.
    induction H1 as [ | x y u v Hxy H1 IH]; intros w H2; inversion H2; subst;
      constructor; [by etransitivity | by apply IH].
Qed.

Lemma veq_length u v : veq u v -> length u = length v.
Proof. apply Forall2_length. Qed.


Lemma vadd_proper u u' v v' : veq u u' -> veq v v' -> veq (vadd u v) (vadd u' v').
Proof.
  intros Hu. revert v v'. induction Hu as [ | x y u u' Hxy Hu IH];
    intros v v' Hv; destruct Hv as [ | a b v v' Hab Hv]; vsimpl; constructor.
  - by rewrite Hxy, Hab.
  - by apply IH.
Qed.

Lemma vscale_proper a u v : veq u v -> veq (vscale a u) (vscale a v).
Proof.
  induction 1 as [ | x y u v Hxy Huv IH]; vsimpl; constructor; [ | done].
  by rewrite Hxy.
Qed.

Lemma length_zeros n : length (zeros n) = n.
Proof. induction n; vsimpl; auto. Qed.

Lemma length_ones n : length (ones n) = n.
Proof. induction n; vsimpl; auto. Qed.

Lemma length_vadd u v : length (vadd u v) = Nat.min (length u) (length v).
Proof.
  revert v. induction u as [ | x u IH]; intros [ | y v]; vsimpl; try reflexivity.
  by rewrite IH.
Qed.

Lemma length_vmul u v : length (vmul u v) = Nat.min (length u) (length v).
Proof.
  revert v. induction u as [ | x u IH]; intros [ | y v]; vsimpl; try reflexivity.
  by rewrite IH.
Qed.

Lemma length_vscale a u : length (vscale a u) = length u.
Proof. induction u; vsimpl; auto. Qed.

Lemma length_vdiv u s : length (vdiv u s) = length u.
Proof. induction u; vsimpl; auto. Qed.

Lemma length_vec_mat_n n v M :
  has_columns n M -> length (vec_mat_n n v M) = n.
Proof.
  intros HM. revert v. induction HM as [ | r M Hr HM IH]; intros [ | x v]; vsimpl;
    try apply length_zeros.
  rewrite length_vadd, length_vscale, IH. lia.
Qed.

Lemma vsum_zeros n : (vsum (zeros n) == 0)%Q.
Proof. induction n as [ | n IH]; vsimpl; [reflexivity | ]. rewrite IH. ring. Qed.

Lemma vsum_vadd u v :
  length u = length v -> (vsum (vadd u v) == vsum u + vsum v)%Q.
Proof.
  revert v. induction u as [ | x u IH]; intros [ | y v] H; vsimpl;
    try discriminate; [ring | ].
  rewrite IH by lia. ring.
Qed.

Lemma vsum_vscale a u : (vsum (vscale a u) == a * vsum u)%Q.
Proof. induction u as [ | x u IH]; vsimpl; [ring | ]. rewrite IH. ring. Qed.

(** The sum of [v @ M] is the combination of the sums of the rows of [M]. *)
Lemma vsum_vec_mat_n n v M :
  has_columns n M ->
  (vsum (vec_mat_n n v M) == vsum (vmul v (map vsum M)))%Q.
Proof.
  intros HM. revert v. induction HM as [ | r M Hr HM IH]; intros [ | x v]; vsimpl;
    try apply vsum_zeros.
  rewrite vsum_vadd, vsum_vscale, IH; [reflexivity | ].
  by rewrite length_vscale, length_vec_mat_n.
Qed.

Lemma vsum_vmul_ones v w :
  Forall (fun y => (y == 1)%Q) w -> (length v <= length w)%nat ->
  (vsum (vmul v w) == vsum v)%Q.
Proof.
  intros Hw. revert v. induction Hw as [ | y w Hy Hw IH]; intros [ | x v] Hl;
    vsimpl; try reflexivity; [lia | ].
  rewrite Hy, IH by lia. ring.
Qed.

Lemma vmul_ones v n : length v = n -> veq (vmul v (ones n)) v.
Proof.
  intros <-. induction v as [ | x v IH]; vsimpl; constructor; [ring | done].
Qed.


(** A row-stochastic matrix preserves the total mass of a vector. *)
Lemma vsum_vec_mat_stochastic n v M :
  has_columns n M -> row_stochastic M -> (length v <= length M)%nat ->
  (vsum (vec_mat_n n v M) == vsum v)%Q.
Proof.
  intros HM HS Hl. rewrite vsum_vec_mat_n by done.
  apply vsum_vmul_ones; [ | by rewrite length_map].
  unfold row_stochastic in HS. by apply Forall_map.
Qed.

Lemma vec_mat_n_proper n u v M :
  veq u v -> veq (vec_mat_n n u M) (vec_mat_n n v M).
Proof.
  intros Huv. revert M. induction Huv as [ | x y u v Hxy Huv IH]; intros [ | r M];
    vsimpl; try reflexivity.
  apply vadd_proper; [ | apply IH].
  clear -Hxy. induction r as [ | z r IHr]; vsimpl; constructor; [ | done].
  by rewrite Hxy.
Qed.

(** Three pointwise identities on rows of equal length. *)
Lemma vadd_vscale_zero a n : veq (vadd (vscale a (zeros n)) (zeros n)) (zeros n).
Proof. induction n as [ | n IH]; vsimpl; constructor; [ring | done]. Qed.

Lemma vadd_vscale_zero_l (b : list Q) :
  veq (vadd (vscale 0 b) (zeros (length b))) (zeros (length b)).
Proof. induction b as [ | z b IH]; vsimpl; constructor; [ring | done]. Qed.

Lemma combine_rows (x a c : Q) (b P Q' : list Q) :
  length b = length P -> length P = length Q' ->
  veq (vadd (vscale (x * a + c) b) (vadd (vscale x P) Q'))
      (vadd (vscale x (vadd (vscale a b) P)) (vadd (vscale c b) Q')).
Proof.
  revert P Q'. induction b as [ | z b IH]; intros [ | p P] [ | q Q'] H1 H2;
    vsimpl; try discriminate; constructor.
  - ring.
  - apply IH; lia.
Qed.

(** [v @ M] is linear in [v]. *)
Lemma vec_mat_n_linear k x r w B :
  has_columns k B -> length r = length w ->
  veq (vec_mat_n k (vadd (vscale x r) w) B)
      (vadd (vscale x (vec_mat_n k r B)) (vec_mat_n k w B)).
Proof.
  intros HB. revert r w. induction HB as [ | b B Hb HB IH]; intros r w Hl.
  - destruct r, w; vsimpl; symmetry; apply vadd_vscale_zero.
  - destruct r as [ | r0 r], w as [ | w0 w]; vsimpl; try discriminate.
    + vsimpl. symmetry. apply vadd_vscale_zero.
    + cbn [vadd vscale map zip_with vec_mat_n].
      etransitivity.
      { apply vadd_proper; [reflexivity | apply IH; lia]. }
      apply combine_rows.
      * by rewrite Hb, length_vec_mat_n.
      * by rewrite !length_vec_mat_n.
Qed.

Lemma vec_mat_n_zeros k n B :
  has_columns k B -> veq (vec_mat_n k (zeros n) B) (zeros k).
Proof.
  intros HB. revert n. induction HB as [ | b B Hb HB IH]; intros [ | n]; vsimpl;
    try reflexivity.
  etransitivity; [apply vadd_proper; [reflexivity | apply IH] | ].
  rewrite <- Hb. apply vadd_vscale_zero_l.
Qed.

(** [(v @ A) @ B = v @ (A @ B)] *)
Lemma vec_mat_n_assoc n k v A B :
  has_columns n A -> has_columns k B ->
  veq (vec_mat_n k (vec_mat_n n v A) B)
      (vec_mat_n k v (map (fun r => vec_mat_n k r B) A)).
Proof.
  intros HA HB. revert v. induction HA as [ | r A Hr HA IH]; intros [ | x v];
    cbn [vec_mat_n map]; try by apply vec_mat_n_zeros.
  etransitivity.
  { apply vec_mat_n_linear; [done | ].
    by rewrite Hr, length_vec_mat_n. }
  apply vadd_proper; [reflexivity | apply IH].
Qed.

End Algebra.

(** ** Evolution of the hidden Markov model *)

Section Evolution.
Import Edge Unilateral.
Context {D : Type} {matrices : MatrixAPI}.
Implicit Types (m : Unilateral D) (T : list (list Q)) (n t : nat).

Lemma unit_vec_first n : unit_vec n 0 = pi_0 n.
Proof.
  destruct n as [ | n]; [reflexivity | ].
  unfold unit_vec, pi_0. cbn [seq map Nat.eqb]. f_equal.
  generalize 0%nat. induction n as [ | n IH]; intros j; [reflexivity | ].
  cbn [seq map zeros Nat.eqb]. by rewrite IH.
Qed.

Lemma ncols_square n T : square n T -> (0 < n)%nat -> ncols T = n.
Proof.
  intros [Hl Hc] Hn. destruct T as [ | r T]; cbn in *; [lia | ].
  by inversion Hc.
Qed.

Lemma length_unit_vec n i : length (unit_vec n i) = n.
Proof. unfold unit_vec. by rewrite length_map, length_seq. Qed.

Lemma identity_square n : square n (identity n).
Proof.
  unfold square, identity, has_columns. rewrite length_map, length_seq.
  split; [done | ]. apply Forall_map, Forall_forall. intros i _.
  apply length_unit_vec.
Qed.

Lemma mat_mul_square n A B :
  (0 < n)%nat -> square n A -> square n B -> square n (mat_mul A B).
Proof.
  intros Hn [HA _] HB. unfold square, mat_mul, has_columns.
  rewrite length_map. split; [done | ].
  apply Forall_map, Forall_forall. intros r _. unfold vec_mat.
  rewrite (ncols_square n B) by done. apply length_vec_mat_n, HB.
Qed.

Lemma mat_pow_square n T t :
  (0 < n)%nat -> square n T -> square n (mat_pow T t).
Proof.
  intros Hn HT. induction t as [ | t IH]; cbn [mat_pow].
  - destruct HT as [<- _]. apply identity_square.
  - by apply mat_mul_square.
Qed.

Lemma evolve_rows_length T (s : list Q) n : length (evolve_rows T s n) = S n.
Proof. revert s. induction n as [ | n IH]; intros s; cbn; [done | ]. by rewrite IH. Qed.

Lemma evolve_rows_lookup T n : forall (s : list Q) t,
  (t <= n)%nat ->
  evolve_rows T s n !! t = Some (Nat.iter t (fun v => vec_mat v T) s).
Proof.
  induction n as [ | n IH]; intros s [ | t] Ht; try lia; try reflexivity.
  cbn [evolve_rows]. rewrite lookup_cons. rewrite IH by lia.
  by rewrite Nat.iter_succ_r.
Qed.

(** Advancing the state [t] times is the product with the [t]-th power. *)
Lemma iter_vec_mat_pow n T (v : list Q) t :
  (0 < n)%nat -> square n T ->
  veq (Nat.iter t (fun v => vec_mat v T) (vec_mat v (mat_pow T 0)))
      (vec_mat v (mat_pow T t)).
Proof.
  intros Hn HT. induction t as [ | t IH]; [reflexivity | ].
  change (veq (vec_mat (Nat.iter t (fun v => vec_mat v T)
                          (vec_mat v (mat_pow T 0))) T)
              (vec_mat v (mat_mul (mat_pow T t) T))).
  assert (HP : square n (mat_pow T t)) by (by apply mat_pow_square).
  unfold vec_mat at 1. rewrite (ncols_square n T) by done.
  etransitivity; [apply vec_mat_n_proper, IH | ].
  unfold vec_mat at 1 2.
  rewrite (ncols_square n (mat_pow T t)) by done.
  rewrite (ncols_square n (mat_mul (mat_pow T t) T))
    by (done || by apply mat_mul_square).
  etransitivity; [apply vec_mat_n_assoc; [apply HP | apply HT] | ].
  unfold mat_mul, vec_mat. rewrite (ncols_square n T) by done. reflexivity.
Qed.

(** C4: the evolution starts from [pi_0 = (1, 0, ..., 0)]; asked for a single
    time [t] it returns the vector [pi_0 · T^t]; asked for the times from 0 to
    [t_last = t + d] it returns a matrix with [t_last + 1] rows and one column
    per hidden state whose row [t] is [pi_0 · T^t]. *)
Theorem evolve_contract m (sl : list (list Z)) (t d : nat) :
  state_list m = Ok sl ->
  sl <> [] ->
  square (length sl) (transition_matrix m) ->
  _evolve t None m
    = Ok (inl (vec_mat (pi_0 (length sl)) (mat_pow (transition_matrix m) t))) /\
  exists Pi row,
    _evolve 0 (Some (t + d)%nat) m = Ok (inr Pi) /\
    length Pi = (t + d + 1)%nat /\
    has_columns (length sl) Pi /\
    Pi !! t = Some row /\
    veq row (vec_mat (pi_0 (length sl)) (mat_pow (transition_matrix m) t)).
Proof.
  intros Hsl Hne HT.
  assert (Hn : (0 < length sl)%nat) by (destruct sl; [done | cbn; lia]).
  unfold _evolve. rewrite Hsl. cbn [mbind except_bind].
  destruct (decide (length sl = 0%nat)) as [H0 | _]; [lia | ].
  rewrite unit_vec_first. split; [reflexivity | ].
  cbn [Nat.ltb Nat.leb]. rewrite Nat.sub_0_r.
  eexists. eexists. split; [reflexivity | ].
  split; [rewrite evolve_rows_length; lia | ].
  split; [ | split].
  - apply Forall_forall. intros r Hr.
    apply list_elem_of_lookup in Hr as [i Hi].
    assert (Hlt : (i < S (t + d))%nat).
    { rewrite <- (evolve_rows_length (transition_matrix m)
                    (vec_mat (pi_0 (length sl)) (mat_pow (transition_matrix m) 0))).
      by eapply lookup_lt_Some. }
    rewrite evolve_rows_lookup in Hi by lia. injection Hi as <-.
    rewrite (veq_length _ _ (iter_vec_mat_pow (length sl) _ _ i Hn HT)).
    unfold vec_mat.
    rewrite (ncols_square (length sl)) by (done || by apply mat_pow_square).
    apply length_vec_mat_n. by apply mat_pow_square.
  - apply evolve_rows_lookup. lia.
  - by apply (iter_vec_mat_pow (length sl)).
Qed.

End Evolution.

(** Scenario S1: after two steps the single level is healthy with probability
    0.49. *)
Lemma evolve_contract_S1 :
  Unilateral._evolve 2 None Examples.S1_model
    = Ok (inl (vec_mat (pi_0 2) (mat_pow Examples.S1_matrix 2))) /\
  exists Pi row,
    Unilateral._evolve 0 (Some 3%nat) Examples.S1_model = Ok (inr Pi) /\
    length Pi = 4%nat /\
    has_columns 2 Pi /\
    Pi !! 2%nat = Some row /\
    veq row (vec_mat (pi_0 2) (mat_pow Examples.S1_matrix 2)).
Proof.
  assert (Hsl : Unilateral.state_list Examples.S1_model = Ok [[0]; [1]])
    by reflexivity.
  assert (Hne : [[0]; [1]] <> ([] : list (list Z))) by discriminate.
  assert (HT : square 2 (Unilateral.transition_matrix Examples.S1_model))
    by (split; [reflexivity | repeat constructor]).
  exact (evolve_contract Examples.S1_model [[0]; [1]] 2 1 Hsl Hne HT).
Defined.

(** ** Risk *)

Section Risk.
Import Edge Unilateral.
Context {D : Type} {distributions : DistributionAPI D} {matrices : MatrixAPI}.
Implicit Types (m : Unilateral D) (T : list (list Q)) (n t : nat).






Lemma vsum_indicator (i n : nat) : forall s : nat,
  (vsum (map (fun j => if Nat.eqb i j then 1%Q else 0%Q) (seq s n))
   == if bool_decide (s <= i < s + n)%nat then 1 else 0)%Q.
Proof.
  induction n as [ | n IH]; intros s.
  - cbn. rewrite bool_decide_eq_false_2 by lia. reflexivity.
  - cbn [seq map vsum]. rewrite IH.
    destruct (Nat.eqb_spec i s) as [-> | Hne].
    + rewrite bool_decide_eq_false_2 by lia.
      rewrite bool_decide_eq_true_2 by lia. ring.
    + destruct (decide (S s <= i < S s + n)%nat).
      * rewrite !bool_decide_eq_true_2 by lia. ring.
      * rewrite !bool_decide_eq_false_2 by lia. ring.
Qed.






End Risk.


(** ** Likelihood of the Bayesian network *)

Section BayesNet.
Import Edge Unilateral.
Context {D : Type} {distributions : DistributionAPI D} {matrices : MatrixAPI}
  {numpy : Numpy}.
Implicit Types (m : Unilateral D).




End BayesNet.


(** ** Dictionaries *)

Section Dict.
Context {A : Type}.
Implicit Types (d : list (string * A)) (k : string) (v : A).

Lemma dict_get_set k k' v d :
  dict_get k (dict_set k' v d) = if decide (k = k') then Some v else dict_get k d.
Proof.
  induction d as [ | [k1 v1] d IH]; cbn.
  - by destruct (decide (k = k')).
  - destruct (decide (k' = k1)) as [-> | Hne]; cbn.
    + by destruct (decide (k = k1)).
    + destruct (decide (k = k1)) as [-> | Hne'].
      * by rewrite decide_False by done.
      * exact IH.
Qed.

Lemma dict_keys_set k v d k' :
  k' ∈ dict_keys (dict_set k v d) <-> k' = k \/ k' ∈ dict_keys d.
Proof.
  unfold dict_keys. induction d as [ | [k1 v1] d IH]; cbn.
  - rewrite list_elem_of_singleton. split; [auto | ].
    intros [H | H]; [done | by apply elem_of_nil in H].
  - destruct (decide (k = k1)) as [-> | Hne]; cbn.
    + rewrite elem_of_cons. tauto.
    + rewrite !elem_of_cons, IH. tauto.
Qed.

Lemma dict_set_NoDup k v d :
  NoDup (dict_keys d) -> NoDup (dict_keys (dict_set k v d)).
Proof.
  induction d as [ | [k1 v1] d IH]; cbn; intros Hnd.
  - apply NoDup_singleton.
  - apply NoDup_cons in Hnd as [Hk1 Hnd].
    destruct (decide (k = k1)) as [-> | Hne]; cbn.
    + by apply NoDup_cons.
    + apply NoDup_cons. split; [ | by apply IH].
      fold (dict_keys (dict_set k v d)). rewrite dict_keys_set.
      intros [-> | H]; done.
Qed.

Lemma dict_get_elem_of k v d :
  NoDup (dict_keys d) -> (k, v) ∈ d -> dict_get k d = Some v.
Proof.
  induction d as [ | [k1 v1] d IH]; cbn; intros Hnd Hin.
  - by apply elem_of_nil in Hin.
  - apply NoDup_cons in Hnd as [Hk1 Hnd].
    apply elem_of_cons in Hin as [Heq | Hin].
    + injection Heq as -> ->. by rewrite decide_True.
    + rewrite decide_False; [by apply IH | ].
      intros ->. apply Hk1. apply list_elem_of_fmap. by exists (k1, v).
Qed.

Lemma dict_get_Some k v d : dict_get k d = Some v -> (k, v) ∈ d.
Proof.
  induction d as [ | [k1 v1] d IH]; cbn; [discriminate | ].
  destruct (decide (k = k1)) as [-> | Hne]; intros H.
  - injection H as ->. apply elem_of_cons. by left.
  - apply elem_of_cons. right. by apply IH.
Qed.

Lemma dict_get_None k d : dict_get k d = None <-> k ∉ dict_keys d.
Proof.
  unfold dict_keys. induction d as [ | [k1 v1] d IH]; cbn.
  - split; [intros _; apply not_elem_of_nil | done].
  - destruct (decide (k = k1)) as [-> | Hne].
    + split; [discriminate | ]. intros H. exfalso. apply H, elem_of_cons. by left.
    + rewrite IH. rewrite not_elem_of_cons. tauto.
Qed.

Lemma dict_mem_true k d : dict_mem k d = true <-> exists v, dict_get k d = Some v.
Proof.
  unfold dict_mem. rewrite bool_decide_eq_true. split.
  - intros Hin. destruct (dict_get k d) eqn:E; [by eexists | ].
    by apply dict_get_None in E.
  - intros [v Hv]. destruct (decide (k ∈ dict_keys d)); [done | ].
    apply dict_get_None in n. congruence.
Qed.

Lemma dict_mem_false k d : dict_mem k d = false <-> dict_get k d = None.
Proof.
  unfold dict_mem. rewrite bool_decide_eq_false. symmetry. apply dict_get_None.
Qed.

Lemma dict_set_same k v d : dict_get k d = Some v -> dict_set k v d = d.
Proof.
  induction d as [ | [k1 v1] d IH]; cbn; [discriminate | ].
  destruct (decide (k = k1)) as [-> | Hne]; intros H.
  - by injection H as ->.
  - f_equal. by apply IH.
Qed.

Lemma dict_keys_set_same k v v' d :
  dict_get k d = Some v' -> dict_keys (dict_set k v d) = dict_keys d.
Proof.
  unfold dict_keys. induction d as [ | [k1 v1] d IH]; cbn; [discriminate | ].
  destruct (decide (k = k1)) as [-> | Hne]; intros H; cbn; [done | ].
  f_equal. by apply IH.
Qed.

(** Filling a dictionary from a list of items: a key holds the value of the
    last item that carries it. *)
Lemma dict_get_fill {B : Type} (key : B -> string) (val : B -> A) (items : list B) :
  forall d k,
    dict_get k (foldl (fun r x => dict_set (key x) (val x) r) d items)
    = foldl (fun acc x => if decide (k = key x) then Some (val x) else acc)
            (dict_get k d) items.
Proof.
  induction items as [ | x items IH]; intros d k; cbn [foldl]; [done | ].
  by rewrite IH, dict_get_set.
Qed.

Lemma dict_fill_NoDup {B : Type} (key : B -> string) (val : B -> A) (items : list B) :
  forall d, NoDup (dict_keys d) ->
    NoDup (dict_keys (foldl (fun r x => dict_set (key x) (val x) r) d items)).
Proof.
  induction items as [ | x items IH]; intros d Hd; cbn [foldl]; [done | ].
  by apply IH, dict_set_NoDup.
Qed.

Lemma dict_of_items_NoDup (items : list (string * A)) :
  NoDup (dict_keys (dict_of_items items)).
Proof. unfold dict_of_items. apply dict_fill_NoDup. apply NoDup_nil_2. Qed.

End Dict.

(** Reading a dictionary with unique keys item by item finds, under a key, the
    value stored under it. *)
Lemma last_item_unique {A B : Type} (val : A -> B) (d : list (string * A))
    (k : string) :
  NoDup (dict_keys d) ->
  forall acc,
    foldl (fun acc x => if decide (k = x.1) then Some (val x.2) else acc) acc d
    = match dict_get k d with
      | Some a => Some (val a)
      | None => acc
      end.
Proof.
  induction d as [ | [k1 v1] d IH]; intros Hnd acc; cbn [foldl dict_get fst snd];
    [done | ].
  apply NoDup_cons in Hnd as [Hk1 Hnd]. rewrite IH by done.
  destruct (decide (k = k1)) as [-> | Hne]; [ | done].
  assert (dict_get k1 d = None) as -> by (by apply dict_get_None). done.
Qed.

(** ** The parameter surface *)

Section Parameters.
Import Edge Unilateral.
Context {D : Type} {distributions : DistributionAPI D}.
Implicit Types (m : Unilateral D) (e : Edge) (l : EdgeList) (f : Field) (v : Q).

Lemma set_edges_get l m : set_edges l m (get_edges l m) = m.
Proof. by destruct l, m. Qed.

Lemma get_edges_set l m (es : list Edge) : get_edges l (set_edges l m es) = es.
Proof. by destruct l, m. Qed.

Lemma write_field_out_of_range f v e :
  in_unit_interval v = false -> write_field f v e = Raise ValueError.
Proof.
  intros Hv. destruct f; cbn; unfold set_spread_prob, set_micro_mod;
    by rewrite Hv.
Qed.

Lemma write_field_in_range f v e :
  in_unit_interval v = true -> exists e', write_field f v e = Ok e' /\
    start e' = start e /\ end_ e' = end_ e.
Proof.
  intros Hv. destruct f; cbn; unfold set_spread_prob, set_micro_mod;
    rewrite Hv; cbn; eexists; by repeat split.
Qed.

Lemma write_field_own f e :
  edge_in_range e -> write_field f (read_field f e) e = Ok e.
Proof.
  intros [Hs Hm]. destruct f, e; cbn in *; unfold set_spread_prob, set_micro_mod;
    cbn; by rewrite ?Hs, ?Hm.
Qed.

Lemma edge_in_range_lookup l m (i : nat) e :
  params_in_range m -> get_edges l m !! i = Some e -> edge_in_range e.
Proof.
  intros [Ht [Hl Hg]] Hi. apply list_elem_of_lookup_2 in Hi.
  destruct l; cbn in Hi.
  - by apply (proj1 (Forall_forall _ _) Ht).
  - by apply (proj1 (Forall_forall _ _) Hl).
  - by apply (proj1 (Forall_forall _ _) Hg).
Qed.

(** Writing one attribute of one edge: nothing happens beyond the list, a
    value out of range raises [ValueError] and writes nothing. *)
Lemma set_edge_field_cases l (i : nat) f v m :
  (get_edges l m !! i = None /\ set_edge_field l i f v m = (Ok (), m)) \/
  (exists e, get_edges l m !! i = Some e /\
     ((in_unit_interval v = false /\
       set_edge_field l i f v m = (Raise ValueError, m)) \/
      (in_unit_interval v = true /\
       exists e', write_field f v e = Ok e' /\ start e' = start e /\
         end_ e' = end_ e /\
         set_edge_field l i f v m
         = (Ok (), set_edges l m (<[i := e']> (get_edges l m)))))).
Proof.
  unfold set_edge_field. destruct (get_edges l m !! i) as [e | ] eqn:Ei.
  - right. exists e. split; [done | ].
    destruct (in_unit_interval v) eqn:Hv.
    + right. split; [done | ].
      destruct (write_field_in_range f v e Hv) as [e' [He' [Hs He]]].
      exists e'. by rewrite He'.
    + left. split; [done | ]. by rewrite write_field_out_of_range.
  - left. by split.
Qed.

Lemma set_edge_field_raise l (i : nat) f v m (err : exn) m' :
  set_edge_field l i f v m = (Raise err, m') ->
  err = ValueError /\ m' = m /\ in_unit_interval v = false.
Proof.
  destruct (set_edge_field_cases l i f v m)
    as [[_ H] | [e [_ [[Hv H] | [_ [e' [_ [_ [_ H]]]]]]]]];
    rewrite H; intros Heq; [discriminate Heq | | discriminate Heq].
  by injection Heq as <- <-.
Qed.

(** The loops of the aggregate keys write the same value to every edge of a
    list: either every write succeeds or the first one raises. *)
Lemma for_each_set_field_ok l f v (idx : list nat) : forall m,
  in_unit_interval v = true ->
  exists m', for_each idx (fun i => set_edge_field l i f v) m = (Ok (), m').
Proof.
  induction idx as [ | i idx IH]; intros m Hv; cbn [for_each].
  - by eexists.
  - destruct (set_edge_field_cases l i f v m)
      as [[_ H] | [e [_ [[Hv' _] | [_ [e' [_ [_ [_ H]]]]]]]]];
      [ | congruence | ].
    + erewrite bind_ok; [ | exact H]. by apply IH.
    + erewrite bind_ok; [ | exact H]. by apply IH.
Qed.

Lemma for_each_set_field_raise l f v (idx : list nat) m (err : exn) m' :
  for_each idx (fun i => set_edge_field l i f v) m = (Raise err, m') ->
  err = ValueError /\ m' = m /\ in_unit_interval v = false.
Proof.
  destruct (in_unit_interval v) eqn:Hv.
  { destruct (for_each_set_field_ok l f v idx m Hv) as [m'' H]. congruence. }
  induction idx as [ | i idx IH]; cbn [for_each]; [discriminate | ].
  intros H. apply bind_inv in H as [[[] [m1 [H1 H2]]] | [err' [H1 H2]]].
  - destruct (set_edge_field_cases l i f v m)
      as [[_ H] | [e [_ [[_ H] | [Hv' _]]]]]; [ | congruence | congruence].
    rewrite H in H1. injection H1 as <-. by apply IH.
  - apply set_edge_field_raise in H1 as [-> [-> _]]. by injection H2 as <-.
Qed.

(** A keyword that raises leaves the model as it found it. *)
Lemma assign_kwarg_raise (key : string) v m (err : exn) m' :
  assign_kwarg key v m = (Raise err, m') -> m' = m.
Proof.
  unfold assign_kwarg. intros H.
  rewrite (bind_ok get _ m m m eq_refl) in H.
  destruct (dict_mem key (diag_time_dists m)).
  { unfold update_dist in H. destruct (dict_get key (diag_time_dists m)) as [d | ];
      [destruct (update v d) | ]; first [discriminate H | by injection H as _ <-]. }
  destruct (decide (key = "growth")).
  { by apply for_each_set_field_raise in H as [_ [-> _]]. }
  destruct (decide (key = "micro_mod")).
  { by apply for_each_set_field_raise in H as [_ [-> _]]. }
  destruct (dict_get key (edge_params m)) as [p | ].
  - by apply set_edge_field_raise in H as [_ [-> _]].
  - by injection H as _ <-.
Qed.

Lemma for_each_app {S A : Type} (xs ys : list A) (body : A -> action S unit)
    (s s' : S) :
  for_each xs body s = (Ok (), s') ->
  for_each (xs ++ ys) body s = for_each ys body s'.
Proof.
  revert s. induction xs as [ | x xs IH]; intros s H; cbn [for_each app] in *.
  - by injection H as <-.
  - apply bind_inv in H as [[[] [s1 [H1 H2]]] | [err [_ H2]]]; [ | discriminate].
    erewrite bind_ok; [ | exact H1]. by apply IH.
Qed.

(** A loop that raises has run a prefix of its rounds and has been stopped by
    the next one. *)
Lemma for_each_raise {S A : Type} (xs : list A) (body : A -> action S unit) :
  forall (s s' : S) (err : exn),
    for_each xs body s = (Raise err, s') ->
    exists pre x post s1,
      xs = pre ++ x :: post /\
      for_each pre body s = (Ok (), s1) /\
      body x s1 = (Raise err, s').
Proof.
  induction xs as [ | x xs IH]; intros s s' err H; cbn [for_each] in H;
    [discriminate | ].
  apply bind_inv in H as [[[] [s1 [H1 H2]]] | [err' [H1 H2]]].
  - destruct (IH _ _ _ H2) as [pre [y [post [s2 [-> [Hpre Hy]]]]]].
    exists (x :: pre), y, post, s2. split; [done | ]. split; [ | done].
    cbn [for_each]. erewrite bind_ok; [ | exact H1]. exact Hpre.
  - injection H2 as <-. exists [], x, xs, s. by repeat split.
Qed.

Lemma assign_params_kwargs (kwargs : list (string * Q)) m :
  assign_params [] kwargs m
  = for_each kwargs (fun kv => assign_kwarg kv.1 kv.2) m.
Proof.
  unfold assign_params. erewrite bind_ok; [ | reflexivity].
  rewrite zip_with_nil_r. cbn [for_each].
  erewrite bind_ok; [ | reflexivity]. reflexivity.
Qed.

(** C2 (as amended): when a bulk assignment by keyword raises, the keywords
    before the failing one have been assigned, and the model is the one they
    left; the failing keyword and those after it write nothing.  The failed
    assignment is thus undone only when nothing was assigned before the
    failure. *)
Theorem assign_params_failure (kwargs : list (string * Q)) m (err : exn) m' :
  assign_params [] kwargs m = (Raise err, m') ->
  exists pre key value post,
    kwargs = pre ++ (key, value) :: post /\
    assign_params [] pre m = (Ok (), m') /\
    assign_kwarg key value m' = (Raise err, m').
Proof.
  rewrite assign_params_kwargs. intros H.
  apply for_each_raise in H as [pre [[key value] [post [m1 [-> [Hpre Hx]]]]]].
  cbn [fst snd] in Hx.
  assert (m' = m1) as -> by (by eapply assign_kwarg_raise).
  exists pre, key, value, post. by rewrite assign_params_kwargs.
Qed.

End Parameters.

(** C2, the claim as stated fails: in the trinary chain [T -> II -> III] the
    call [assign_params(growth=0.5, micro_mod=1.5)] raises [ValueError] after
    it has set the growth probability of both levels to 0.5. *)
Lemma assign_params_not_atomic :
  let m := Examples.S2_trinary in
  let r := Unilateral.assign_params [] [("growth", 1 # 2); ("micro_mod", 3 # 2)]%Q m in
  r.1 = Raise ValueError /\
  map Edge.spread_prob (Unilateral.growth_edges m) = [0; 0]%Q /\
  map Edge.spread_prob (Unilateral.growth_edges r.2) = [1 # 2; 1 # 2]%Q /\
  ~ (Edge.spread_prob (Unilateral.growth_edges r.2 !!! 0%nat)
     == Edge.spread_prob (Unilateral.growth_edges m !!! 0%nat))%Q.
Proof. repeat split. intros H. discriminate H. Qed.

(** The same call, read through the amended statement: the model after the
    failure is the one that [growth=0.5] has left. *)
Lemma assign_params_failure_S2 :
  let m := Examples.S2_trinary in
  let kwargs := [("growth", 1 # 2); ("micro_mod", 3 # 2)]%Q in
  let m' := (Unilateral.assign_params [] kwargs m).2 in
  exists pre key value post,
    kwargs = pre ++ (key, value) :: post /\
    Unilateral.assign_params [] pre m = (Ok (), m') /\
    Unilateral.assign_kwarg key value m' = (Raise ValueError, m').
Proof.
  intros m kwargs m'.
  exact (assign_params_failure kwargs m ValueError m' eq_refl).
Defined.

(** ** The keys of the edge parameters *)

Section Keys.
Import Edge Unilateral.
Context {D : Type} {distributions : DistributionAPI D}.
Implicit Types (m : Unilateral D) (k : string) (p : Param).

Lemma elem_of_concat {A : Type} (x : A) (ls : list (list A)) :
  x ∈ concat ls -> exists l, x ∈ l /\ l ∈ ls.
Proof.
  induction ls as [ | l ls IH]; cbn; intros H.
  - by apply elem_of_nil in H.
  - apply elem_of_app in H as [H | H].
    + exists l. split; [done | ]. apply elem_of_cons. by left.
    + destruct (IH H) as [l' [H1 H2]]. exists l'. split; [done | ].
      apply elem_of_cons. by right.
Qed.

Lemma dict_set_elem {A : Type} (k k' : string) (v v' : A) (d : list (string * A)) :
  (k, v) ∈ dict_set k' v' d -> (k, v) = (k', v') \/ (k, v) ∈ d.
Proof.
  induction d as [ | [k1 v1] d IH]; cbn.
  - rewrite list_elem_of_singleton. auto.
  - destruct (decide (k' = k1)) as [-> | Hne]; rewrite !elem_of_cons; [tauto | ].
    intros [H | H]; [tauto | ]. destruct (IH H); tauto.
Qed.

Lemma dict_of_items_elem {A : Type} (items : list (string * A)) (k : string) (v : A) :
  (k, v) ∈ dict_of_items items -> (k, v) ∈ items.
Proof.
  unfold dict_of_items.
  assert (Hgen : forall d, (k, v) ∈ foldl (fun d kv => dict_set kv.1 kv.2 d) d items ->
                           (k, v) ∈ d \/ (k, v) ∈ items).
  { induction items as [ | [k1 v1] items IH]; intros d H; cbn [foldl] in H; [by left | ].
    destruct (IH _ H) as [H' | H'].
    - apply dict_set_elem in H' as [H' | H']; [ | by left].
      right. apply elem_of_cons. by left.
    - right. apply elem_of_cons. by right. }
  intros H. destruct (Hgen [] H) as [H' | H']; [by apply elem_of_nil in H' | done].
Qed.

Lemma append_cons (c : ascii) (a b : string) :
  String c a +:+ b = String c (a +:+ b).
Proof. reflexivity. Qed.

Lemma append_nil (b : string) : EmptyString +:+ b = b.
Proof. reflexivity. Qed.

Lemma string_length_app (a b : string) :
  String.length (a +:+ b) = (String.length a + String.length b)%nat.
Proof.
  induction a as [ | c a IH]; [done | ].
  rewrite append_cons. cbn. by rewrite IH.
Qed.

(** Every key of an edge parameter names one attribute of one edge that exists;
    it is neither of the two aggregate keys. *)
Lemma edge_param_items_spec m k p :
  (k, p) ∈ edge_param_items m ->
  k <> "growth" /\ k <> "micro_mod" /\
  (index p < length (get_edges (of_list p) m))%nat.
Proof.
  unfold edge_param_items. rewrite !elem_of_app. intros [H | [H | H]].
  - apply elem_of_lookup_imap_1 in H as [i [e [Heq Hi]]].
    injection Heq as -> ->. rewrite !append_cons. cbn.
    repeat split; try discriminate. by eapply lookup_lt_Some.
  - apply elem_of_concat in H as [l [Hl H]].
    apply elem_of_lookup_imap_1 in H as [i [e [-> Hi]]].
    apply lookup_lt_Some in Hi.
    apply elem_of_cons in Hl as [Heq | Hl].
    + injection Heq as -> ->. rewrite !append_cons. cbn.
      repeat split; try discriminate. done.
    + destruct (is_trinary (nodes m !!! end_ e)); [ | by apply elem_of_nil in Hl].
      apply list_elem_of_singleton in Hl. injection Hl as -> ->.
      rewrite !append_cons, append_nil. cbn.
      repeat split; try discriminate; [ | done].
      intros Heq. injection Heq as Heq.
      apply (f_equal String.length) in Heq.
      unfold edge_name in Heq. rewrite !string_length_app in Heq. cbn in Heq. lia.
  - apply elem_of_lookup_imap_1 in H as [i [e [Heq Hi]]].
    injection Heq as -> ->. rewrite !append_cons. cbn.
    repeat split; try discriminate. by eapply lookup_lt_Some.
Qed.

Lemma edge_params_spec m k p :
  dict_get k (edge_params m) = Some p ->
  k <> "growth" /\ k <> "micro_mod" /\
  (index p < length (get_edges (of_list p) m))%nat.
Proof.
  intros H. apply dict_get_Some, dict_of_items_elem in H.
  by apply edge_param_items_spec.
Qed.

Lemma get_params_dict_NoDup m : NoDup (dict_keys (get_params_dict m)).
Proof.
  unfold get_params_dict.
  apply (dict_fill_NoDup fst (fun nd => get_param nd.2)).
  apply (dict_fill_NoDup fst (fun np => Param_get np.2 m)).
  apply NoDup_nil_2.
Qed.

(** What [get_params] reports under a key: the parameter of the distribution
    of that name if there is one, the edge parameter of that name otherwise. *)
Lemma get_params_dict_get m k :
  NoDup (dict_keys (diag_time_dists m)) ->
  dict_get k (get_params_dict m)
  = match dict_get k (diag_time_dists m) with
    | Some d => Some (get_param d)
    | None =>
        match dict_get k (edge_params m) with
        | Some p => Some (Param_get p m)
        | None => None
        end
    end.
Proof.
  intros Hnd. unfold get_params_dict.
  rewrite (dict_get_fill fst (fun nd => get_param nd.2)).
  rewrite (last_item_unique get_param) by done.
  rewrite (dict_get_fill fst (fun np => Param_get np.2 m)).
  rewrite (last_item_unique (fun p => Param_get p m))
    by apply dict_of_items_NoDup.
  reflexivity.
Qed.

(** Writing back the value that a parameter has changes nothing. *)
Lemma Param_set_own m p :
  params_in_range m -> Param_set p (Param_get p m) m = (Ok (), m).
Proof.
  intros Hr. unfold Param_set, Param_get, set_edge_field.
  destruct (get_edges (of_list p) m !! index p) as [e | ] eqn:Ei; [ | done].
  rewrite (list_lookup_total_correct _ _ _ Ei).
  rewrite write_field_own by (by eapply edge_in_range_lookup).
  by rewrite list_insert_id, set_edges_get.
Qed.

Lemma assign_kwarg_own m k (v : Q) :
  params_in_range m ->
  NoDup (dict_keys (diag_time_dists m)) ->
  (forall key d, (key, d) ∈ diag_time_dists m -> update (get_param d) d = Ok d) ->
  (k, v) ∈ get_params_dict m ->
  assign_kwarg k v m = (Ok (), m).
Proof.
  intros Hr Hnd Hup Hin.
  apply dict_get_elem_of in Hin; [ | apply get_params_dict_NoDup].
  rewrite get_params_dict_get in Hin by done.
  unfold assign_kwarg. erewrite bind_ok; [ | reflexivity].
  destruct (dict_get k (diag_time_dists m)) as [d | ] eqn:Ed.
  - injection Hin as <-.
    rewrite (proj2 (dict_mem_true k _)) by (by exists d).
    unfold update_dist. rewrite Ed, (Hup k d) by (by apply dict_get_Some).
    rewrite dict_set_same by done. by destruct m.
  - rewrite (proj2 (dict_mem_false k _)) by done.
    destruct (dict_get k (edge_params m)) as [p | ] eqn:Ep; [ | discriminate].
    injection Hin as <-.
    destruct (edge_params_spec m k p Ep) as [Hg [Hm _]].
    rewrite !decide_False by done. by apply Param_set_own.
Qed.

Lemma for_each_unchanged {S A : Type} (xs : list A) (body : A -> action S unit)
    (s : S) :
  (forall x, x ∈ xs -> body x s = (Ok (), s)) -> for_each xs body s = (Ok (), s).
Proof.
  induction xs as [ | x xs IH]; intros H; cbn [for_each]; [done | ].
  erewrite bind_ok; [ | apply H, elem_of_cons; by left].
  apply IH. intros y Hy. apply H, elem_of_cons. by right.
Qed.

(** C9 (as amended): in a model whose edge parameters lie in the unit interval,
    as the setters of the edges guarantee, and whose distributions accept their
    own parameter back, assigning the dictionary that [get_params(as_dict=True)]
    returns succeeds, leaves the model as it is, and [get_params(as_dict=True)]
    returns the same dictionary again. *)
Theorem params_round_trip m :
  params_in_range m ->
  NoDup (dict_keys (diag_time_dists m)) ->
  (forall key d, (key, d) ∈ diag_time_dists m -> update (get_param d) d = Ok d) ->
  exists m',
    reassign_params true m = (Ok (), m') /\
    get_params true m' = get_params true m /\
    m' = m.
Proof.
  intros Hr Hnd Hup. exists m.
  repeat split; try reflexivity.
  unfold reassign_params. cbn [get_params].
  rewrite assign_params_kwargs. apply for_each_unchanged.
  intros [k v] Hin. by apply assign_kwarg_own.
Qed.

End Keys.

(** The round trip in the trinary chain [T -> II -> III] with one parametric
    distribution. *)
Lemma params_round_trip_S2 :
  let m := Unilateral.with_diag_time_dists Examples.S2_trinary
             [("late", Examples.mkDistribution (1 # 3) (fun p => [p; 1 - p]%Q))] in
  exists m',
    reassign_params true m = (Ok (), m') /\
    Unilateral.get_params true m' = Unilateral.get_params true m /\
    m' = m.
Proof.
  intros m.
  assert (Hr : params_in_range m) by (repeat split; repeat constructor).
  assert (Hnd : NoDup (dict_keys (Unilateral.diag_time_dists m)))
    by (apply NoDup_singleton).
  assert (Hup : forall key d, (key, d) ∈ Unilateral.diag_time_dists m ->
                              Unilateral.update (Unilateral.get_param d) d = Ok d).
  { intros key d Hin. apply list_elem_of_singleton in Hin. by injection Hin as _ ->. }
  exact (params_round_trip m Hr Hnd Hup).
Defined.

(** C9, the claim as stated fails: [get_params()] returns, by default, the list
    of the values, and the double-star call cannot unpack a list; the call
    raises [TypeError] and assigns nothing. *)
Lemma params_round_trip_default :
  let m := Examples.S2_trinary in
  Unilateral.get_params false m = inr [0; 0; 1; 0; 0]%Q /\
  reassign_params false m = (Raise TypeError, m) /\
  ~ (exists m', reassign_params false m = (Ok (), m')).
Proof.
  repeat split. intros [m' H]. discriminate H.
Qed.

(** ** Likelihood with parameters out of range *)

Section InvalidParameters.
Import Edge Unilateral.
Context {D : Type} {distributions : DistributionAPI D} {matrices : MatrixAPI}
  {numpy : Numpy}.
Implicit Types (m : Unilateral D) (k : string) (v : Q).

Lemma imap_insert_same {A B : Type} (f : nat -> A -> B) (l : list A) (i : nat)
    (x y : A) :
  l !! i = Some x -> f i y = f i x -> imap f (<[i := y]> l) = imap f l.
Proof.
  intros Hi Hf. apply list_eq. intros j. rewrite !list_lookup_imap.
  destruct (decide (i = j)) as [<- | Hne].
  - rewrite list_lookup_insert_eq by (by eapply lookup_lt_Some).
    rewrite Hi. cbn. by rewrite Hf.
  - by rewrite list_lookup_insert_ne.
Qed.

(** Writing an attribute of an edge does not change the keys. *)
Lemma set_edge_field_key_space (l : EdgeList) (i : nat) (f : Field) v m m' :
  set_edge_field l i f v m = (Ok (), m') -> key_space m' = key_space m.
Proof.
  destruct (set_edge_field_cases l i f v m)
    as [[_ H] | [e [Hi [[_ H] | [_ [e' [_ [Hs [He H]]]]]]]]];
    rewrite H; intros Heq; [by injection Heq as <- | discriminate Heq | ].
  injection Heq as <-. unfold key_space, edge_params, edge_param_items.
  destruct l, m as [ts ls te le ge dd mt mo dm pd]; cbn in *;
    rewrite ?length_insert;
    (erewrite (imap_insert_same _ _ i e e'); [reflexivity | done | ]);
    unfold edge_name; by rewrite ?Hs, ?He.
Qed.

Lemma for_each_set_field_key_space (l : EdgeList) (f : Field) v (idx : list nat) :
  forall m m',
    for_each idx (fun i => set_edge_field l i f v) m = (Ok (), m') ->
    key_space m' = key_space m.
Proof.
  induction idx as [ | i idx IH]; intros m m' H; cbn [for_each] in H.
  - by injection H as <-.
  - apply bind_inv in H as [[[] [m1 [H1 H2]]] | [err [_ H2]]]; [ | discriminate].
    rewrite (IH _ _ H2). by eapply set_edge_field_key_space.
Qed.

(** A keyword that is assigned does not change the keys. *)
Lemma assign_kwarg_key_space k v m m' :
  assign_kwarg k v m = (Ok (), m') -> key_space m' = key_space m.
Proof.
  unfold assign_kwarg. intros H.
  rewrite (bind_ok get _ m m m eq_refl) in H.
  destruct (dict_mem k (diag_time_dists m)).
  { unfold update_dist in H.
    destruct (dict_get k (diag_time_dists m)) as [d | ] eqn:Ed; [ | discriminate].
    destruct (update v d) as [d' | ]; [ | discriminate]. injection H as <-.
    unfold key_space. destruct m; cbn -[dict_keys dict_set] in *.
    by rewrite (dict_keys_set_same _ _ d). }
  destruct (decide (k = "growth")).
  { by eapply for_each_set_field_key_space. }
  destruct (decide (k = "micro_mod")).
  { by eapply for_each_set_field_key_space. }
  destruct (dict_get k (edge_params m)) as [p | ]; [ | discriminate].
  by eapply set_edge_field_key_space.
Qed.

Lemma known_key_key_space m m' k :
  key_space m' = key_space m -> known_key m k -> known_key m' k.
Proof.
  unfold key_space, known_key. intros H. injection H as -> -> _ _. done.
Qed.

Lemma addresses_edge_key_space m m' k :
  key_space m' = key_space m -> addresses_edge m k -> addresses_edge m' k.
Proof.
  unfold key_space, addresses_edge. intros H. injection H as -> -> -> ->. done.
Qed.

(** A known key raises nothing but [ValueError], provided the distributions
    refuse a parameter with that exception. *)
Lemma assign_kwarg_known_raise k v m (err : exn) m' :
  (forall x d e, update x d = Raise e -> e = ValueError) ->
  known_key m k ->
  assign_kwarg k v m = (Raise err, m') -> err = ValueError.
Proof.
  intros Hup Hk. unfold assign_kwarg. intros H.
  rewrite (bind_ok get _ m m m eq_refl) in H.
  destruct (dict_mem k (diag_time_dists m)) eqn:Emem.
  { apply dict_mem_true in Emem as [d Ed]. unfold update_dist in H. rewrite Ed in H.
    destruct (update v d) as [d' | e] eqn:Eu; [discriminate | ].
    injection H as <- _. by eapply Hup. }
  destruct (decide (k = "growth")).
  { by apply for_each_set_field_raise in H as [-> _]. }
  destruct (decide (k = "micro_mod")).
  { by apply for_each_set_field_raise in H as [-> _]. }
  destruct (dict_get k (edge_params m)) as [p | ] eqn:Ep.
  - by apply set_edge_field_raise in H as [-> _].
  - apply dict_mem_false, dict_get_None in Emem.
    destruct Hk as [Hk | [Hk | [Hk | [p Hp]]]]; try done. congruence.
Qed.

(** A value out of range under a key that addresses an edge is refused. *)
Lemma assign_kwarg_out_of_range k v m :
  addresses_edge m k -> in_unit_interval v = false ->
  assign_kwarg k v m = (Raise ValueError, m).
Proof.
  intros [Hnd Hk] Hv. unfold assign_kwarg. erewrite bind_ok; [ | reflexivity].
  rewrite (proj2 (dict_mem_false k _)) by (by apply dict_get_None).
  assert (Hfirst : forall l f n, (0 < length (get_edges l m))%nat ->
            for_each (seq 0 (S n)) (fun i => set_edge_field l i f v) m
            = (Raise ValueError, m)).
  { intros l f n Hl. cbn [seq for_each]. apply bind_raise.
    destruct (set_edge_field_cases l 0 f v m)
      as [[Hnone _] | [e [_ [[_ H] | [Hv' _]]]]]; [ | done | congruence].
    apply lookup_ge_None in Hnone. lia. }
  destruct Hk as [[-> Hl] | [[-> Hl] | [p Hp]]].
  - rewrite decide_True by done.
    destruct (length (growth_edges m)) as [ | n] eqn:En; [lia | ].
    apply (Hfirst GrowthEdges). cbn. lia.
  - rewrite decide_False by discriminate. rewrite decide_True by done.
    destruct (length (lnl_edges m)) as [ | n] eqn:En; [lia | ].
    apply (Hfirst LnlEdges). cbn. lia.
  - destruct (edge_params_spec m k p Hp) as [Hg [Hm Hi]].
    rewrite !decide_False by done. rewrite Hp. unfold Param_set.
    destruct (set_edge_field_cases (of_list p) (index p) (field p) v m)
      as [[Hnone _] | [e [_ [[_ H] | [Hv' _]]]]]; [ | done | congruence].
    apply lookup_ge_None in Hnone. lia.
Qed.

Lemma assign_params_out_of_range (kwargs : list (string * Q)) : forall m,
  (forall x d e, update x d = Raise e -> e = ValueError) ->
  Forall (fun kv => known_key m kv.1) kwargs ->
  Exists (fun kv => addresses_edge m kv.1 /\ in_unit_interval kv.2 = false) kwargs ->
  exists m', assign_params [] kwargs m = (Raise ValueError, m').
Proof.
  induction kwargs as [ | [k v] kwargs IH]; intros m Hup Hknown Hbad.
  - by apply Exists_nil in Hbad.
  - rewrite assign_params_kwargs. cbn [for_each fst snd].
    apply Forall_cons in Hknown as [Hk Hknown]. cbn [fst] in Hk.
    destruct (assign_kwarg k v m) as [[[] | err] m1] eqn:Erun.
    + erewrite bind_ok; [ | exact Erun].
      apply Exists_cons in Hbad as [[Ha Hv] | Hbad].
      { cbn [fst snd] in Ha, Hv.
        rewrite (assign_kwarg_out_of_range k v m Ha Hv) in Erun. discriminate. }
      assert (Hks : key_space m1 = key_space m) by (by eapply assign_kwarg_key_space).
      destruct (IH m1 Hup) as [m' Hm'].
      * eapply Forall_impl; [exact Hknown | ].
        intros kv. by apply known_key_key_space.
      * eapply Exists_impl; [exact Hbad | ].
        intros kv [Ha Hv]. split; [ | done]. by eapply addresses_edge_key_space.
      * exists m'. by rewrite <- assign_params_kwargs.
    + exists m1. erewrite bind_raise; [ | exact Erun].
      by rewrite (assign_kwarg_known_raise k v m err m1 Hup Hk Erun).
Qed.

(** C3 (as amended): when all keys of [given_params] are known to the model
    and one of them, addressing at least one edge, carries a value outside
    [[0,1]], the likelihood is [-inf] with [log=True] and 0 with [log=False]. *)
Theorem likelihood_out_of_range (kwargs : list (string * Q)) m (log : bool)
    (mode : string) :
  (forall x d e, update x d = Raise e -> e = ValueError) ->
  Forall (fun kv => known_key m kv.1) kwargs ->
  Exists (fun kv => addresses_edge m kv.1 /\ in_unit_interval kv.2 = false) kwargs ->
  exists m',
    likelihood None (Some kwargs) log mode m
    = (Ok (if log then NegInf else Finite 0%Q), m').
Proof.
  intros Hup Hknown Hbad.
  destruct (assign_params_out_of_range kwargs m Hup Hknown Hbad) as [m' Hm'].
  exists m'. unfold likelihood. erewrite bind_ok; [ | reflexivity].
  unfold likelihood_given. by rewrite Hm'.
Qed.

End InvalidParameters.

(** Scenario S1 with its patient loaded: a spread probability of 1.5 gives the
    log-likelihood [-inf]. *)
Lemma likelihood_out_of_range_S1 :
  exists m',
    Unilateral.likelihood None (Some [("spread_T_to_II", 3 # 2)%Q]) true "HMM"
      Examples.S1_loaded
    = (Ok NegInf, m').
Proof.
  assert (Hup : forall x (d : Examples.Distribution) e,
            Unilateral.update x d = Raise e -> e = ValueError).
  { intros x d e. cbn. destruct (in_unit_interval x); [discriminate | ].
    by intros [= <-]. }
  assert (Hknown : Forall (fun kv => known_key Examples.S1_loaded kv.1)
                     [("spread_T_to_II", 3 # 2)%Q]).
  { constructor; [ | constructor]. right. right. right. eexists.
    vm_compute. reflexivity. }
  assert (Hbad : Exists (fun kv => addresses_edge Examples.S1_loaded kv.1 /\
                                   in_unit_interval kv.2 = false)
                   [("spread_T_to_II", 3 # 2)%Q]).
  { constructor. split; [ | reflexivity]. split.
    - vm_compute. intros H. apply list_elem_of_singleton in H. discriminate H.
    - right. right. eexists. vm_compute. reflexivity. }
  exact (likelihood_out_of_range [("spread_T_to_II", 3 # 2)%Q] Examples.S1_loaded
           true "HMM" Hup Hknown Hbad).
Defined.

(** C3, the claim as stated fails: the binary model of S1 has no growth edge,
    the value 1.5 under the aggregate key "growth" reaches no setter and is not
    refused, and the likelihood of the loaded patient is computed as usual,
    0.31 instead of 0. *)
Lemma likelihood_growth_not_validated :
  exists q m',
    Unilateral.likelihood None (Some [("growth", 3 # 2)%Q]) false "HMM"
      Examples.S1_loaded
    = (Ok (Finite q), m') /\
    (q == 31 # 100)%Q /\ ~ (q == 0)%Q.
Proof.
  eexists. eexists. split; [vm_compute; reflexivity | ]. split; [reflexivity | ].
  intros H. discriminate H.
Qed.

(** ** Data ingestion and the T-stages of the likelihood *)

Section Stages.
Import Edge Unilateral.
Context {D : Type} {distributions : DistributionAPI D} {matrices : MatrixAPI}
  {numpy : Numpy}.
Implicit Types (m : Unilateral D) (dm : list (string * list (list Q)))
  (X : option (list (string * list (list Q)))) (st : list Z).

Lemma likelihood_t_stages_spec m dm (stage : string) :
  stage ∈ likelihood_t_stages m dm <->
  stage ∈ dict_keys dm /\ stage ∈ dict_keys (diag_time_dists m).
Proof.
  unfold likelihood_t_stages.
  by rewrite elem_of_elements, elem_of_intersection, !elem_of_list_to_set.
Qed.






(** The HMM likelihood as a function of the stored matrices. *)
Lemma likelihood_hmm_run m (log : bool) :
  _likelihood "HMM" log m
  = (dm ← diagnose_matrices m;
     evolved ← evolved_model m;
     hmm_loop m evolved dm log (Finite (if log then 0%Q else 1%Q))
       (likelihood_t_stages m dm), m).
Proof.
  unfold _likelihood. rewrite decide_True by done.
  erewrite bind_ok; [ | reflexivity].
  unfold lift at 1. destruct (diagnose_matrices m) as [dm | e] eqn:Edm.
  - erewrite bind_ok; [ | reflexivity]. cbn [mbind except_bind].
    unfold lift at 1. destruct (evolved_model m) as [evolved | e] eqn:Eev.
    + erewrite bind_ok; [ | reflexivity]. reflexivity.
    + erewrite bind_raise; reflexivity.
  - erewrite bind_raise; reflexivity.
Qed.


End Stages.

Section Ingestion.
Import Edge Unilateral.
Context {D : Type} {distributions : DistributionAPI D} {matrices : MatrixAPI}
  {numpy : Numpy}.
Implicit Types (m : Unilateral D) (dm : list (string * list (list Q)))
  (X : option (list (string * list (list Q)))) (st : list Z).












End Ingestion.


(** ** The scenarios, evaluated *)

Lemma S1_loaded_is_loaded :
  Examples.S1_loaded
  = (Unilateral.load_data Examples.S1_data None "HMM" Examples.S1_model).2.
Proof. vm_compute. reflexivity. Qed.

(** S1: [pi_0 = (1, 0)], [pi_1 = (0.7, 0.3)], [pi_2 = (0.49, 0.51)]. *)
Lemma evolve_S1 :
  exists Pi,
    Unilateral._evolve 0 (Some 2%nat) Examples.S1_model = Ok (inr Pi) /\
    meq Pi [[1; 0]; [7 # 10; 3 # 10]; [49 # 100; 51 # 100]]%Q.
Proof.
  eexists. split; [vm_compute; reflexivity | ]. by repeat constructor.
Qed.

(** S3: from state 0 the tumor spreads to the level with probability 0.2. *)
Lemma tumor_spread_S3 :
  let e := Unilateral.tumor_edges Examples.S3_model !!! 0%nat in
  Edge.comp_spread_prob (Unilateral.nodes Examples.S3_model) e 1 = (2 # 10)%Q /\
  Edge.comp_spread_prob (Unilateral.nodes Examples.S3_model) e 0 = (1 - (2 # 10))%Q.
Proof. by split. Qed.

(** S6: with the level [II] found involved, the risk of involvement is
    [0.3 * 0.8 / (0.3 * 0.8 + 0.7 * 0.1)]. *)
Lemma risk_S6 :
  exists r m',
    Unilateral.risk (Some (Unilateral.InvolvementDict [("II", Some 1)])) None
      (Some [("CT", [("II", Some true)])]) "early" "HMM" Examples.S1_model
    = (Ok (inr r), m') /\
    (r == (3 # 10) * (8 # 10) / ((3 # 10) * (8 # 10) + (7 # 10) * (1 # 10)))%Q.
Proof.
  eexists. eexists. split; [vm_compute; reflexivity | ]. reflexivity.
Qed.

(** A patient of a T-stage without distribution is announced and ignored. *)
Lemma load_data_warns_S1 :
  let data := Examples.S1_data
              ++ [Unilateral.mkPatient "late" [("CT", [("II", Some false)])]] in
  let r := Unilateral.load_data data None "HMM" Examples.S1_model in
  r.1 = Ok ["late"] /\
  Unilateral.likelihood_t_stages r.2 (Unilateral.stored_matrices r.2) = ["early"].
Proof. split; vm_compute; reflexivity. Qed.

(** ** The invariants of a constructed model *)

Section Invariants.
Import Edge Unilateral.
Context {D : Type} {distributions : DistributionAPI D}.
Implicit Types (m : Unilateral D) (e : Edge) (l : EdgeList) (f : Field) (v : Q).

Lemma write_field_keeps_range f v e e' :
  edge_in_range e -> write_field f v e = Ok e' -> edge_in_range e'.
Proof.
  intros [Hs Hm]. destruct f; cbn; unfold set_spread_prob, set_micro_mod;
    destruct (in_unit_interval v) eqn:Hv; cbn; try discriminate;
    intros [= <-]; by split.
Qed.

Lemma set_edges_in_range l m (es : list Edge) :
  params_in_range m -> Forall edge_in_range es ->
  params_in_range (set_edges l m es).
Proof. intros [Ht [Hl Hg]] Hes. by destruct l, m. Qed.

Lemma get_edges_in_range l m :
  params_in_range m -> Forall edge_in_range (get_edges l m).
Proof. intros [Ht [Hl Hg]]. by destruct l. Qed.

Lemma set_edge_field_in_range l (i : nat) f v m (r : except unit) m' :
  params_in_range m -> set_edge_field l i f v m = (r, m') -> params_in_range m'.
Proof.
  intros Hr. unfold set_edge_field.
  destruct (get_edges l m !! i) as [e | ] eqn:Ei; [ | by intros [= _ <-]].
  destruct (write_field f v e) as [e' | err] eqn:Ew; intros [= _ <-]; [ | done].
  apply set_edges_in_range; [done | ].
  apply Forall_insert; [by apply get_edges_in_range | ].
  eapply write_field_keeps_range; [ | exact Ew]. by eapply edge_in_range_lookup.
Qed.

Lemma for_each_invariant {S A : Type} (P : S -> Prop) (xs : list A)
    (body : A -> action S unit) :
  (forall x s r s', P s -> body x s = (r, s') -> P s') ->
  forall s r s', P s -> for_each xs body s = (r, s') -> P s'.
Proof.
  intros Hbody. induction xs as [ | x xs IH]; intros s r s' Hs H; cbn [for_each] in H.
  - by injection H as _ <-.
  - apply bind_inv in H as [[[] [s1 [H1 H2]]] | [err [H1 _]]].
    + eapply IH; [ | exact H2]. by eapply Hbody.
    + by eapply Hbody.
Qed.

Lemma update_dist_in_range (key : string) v m (r : except unit) m' :
  params_in_range m -> update_dist key v m = (r, m') -> params_in_range m'.
Proof.
  intros Hr. unfold update_dist.
  destruct (dict_get key (diag_time_dists m)) as [d | ]; [ | by intros [= _ <-]].
  destruct (update v d); intros [= _ <-]; [ | done]. by destruct m.
Qed.

Lemma assign_kwarg_in_range (key : string) v m (r : except unit) m' :
  params_in_range m -> assign_kwarg key v m = (r, m') -> params_in_range m'.
Proof.
  intros Hr. unfold assign_kwarg. rewrite (bind_ok get _ m m m eq_refl).
  destruct (dict_mem key (diag_time_dists m)); [by apply update_dist_in_range | ].
  destruct (decide (key = "growth")).
  { apply (for_each_invariant params_in_range); [ | done].
    intros i s r0 s' Hs. by apply set_edge_field_in_range. }
  destruct (decide (key = "micro_mod")).
  { apply (for_each_invariant params_in_range); [ | done].
    intros i s r0 s' Hs. by apply set_edge_field_in_range. }
  destruct (dict_get key (edge_params m)) as [p | ].
  - by apply set_edge_field_in_range.
  - by intros [= _ <-].
Qed.

Lemma for_each_setters_invariant {S : Type} (P : S -> Prop)
    (setters : list (Q -> action S unit)) :
  Forall (fun g => forall y s r s', P s -> g y s = (r, s') -> P s') setters ->
  forall (args : list Q) s r s',
    P s -> for_each (zip setters args) (fun sv => sv.1 sv.2) s = (r, s') -> P s'.
Proof.
  induction 1 as [ | g setters Hg Hsetters IH]; intros args s r s' Hs H.
  - cbn in H. by injection H as _ <-.
  - destruct args as [ | y args]; cbn [zip zip_with for_each] in H.
    + by injection H as _ <-.
    + apply bind_inv in H as [[[] [s1 [H1 H2]]] | [err [H1 _]]].
      * eapply IH; [ | exact H2]. by eapply Hg.
      * by eapply Hg.
Qed.

(** Whatever is assigned, and whether or not the assignment fails, the edge
    parameters stay in the unit interval. *)
Lemma assign_params_in_range (args : list Q) (kwargs : list (string * Q)) m
    (r : except unit) m' :
  params_in_range m -> assign_params args kwargs m = (r, m') -> params_in_range m'.
Proof.
  intros Hr. unfold assign_params. rewrite (bind_ok get _ m m m eq_refl).
  assert (Hpos : forall r1 m1,
            for_each (zip (params_access m) args) (fun sv => sv.1 sv.2) m = (r1, m1) ->
            params_in_range m1).
  { intros r1 m1. apply (for_each_setters_invariant params_in_range); [ | done].
    unfold params_access. apply Forall_app. split; apply Forall_map, Forall_forall.
    - intros [k p] _ y s0 r2 s1 Hs0. by apply set_edge_field_in_range.
    - intros [k d] _ y s0 r2 s1 Hs0. by apply update_dist_in_range. }
  intros H. apply bind_inv in H as [[[] [m1 [H1 H2]]] | [err [H1 _]]].
  - eapply (for_each_invariant params_in_range); [ | | exact H2].
    + intros [k x] s r0 s' Hs. by apply assign_kwarg_in_range.
    + by eapply Hpos.
  - by eapply Hpos.
Qed.

(** A new edge has its parameters in range. *)
Lemma edge_init_in_range (nodes : list GraphNode) (s t : nat) e :
  Edge.__init__ nodes s t 0 1 = Ok e -> edge_in_range e.
Proof.
  unfold Edge.__init__. destruct (nodes !! s), (nodes !! t) as [n | ]; try discriminate.
  destruct (decide (kind n = LymphNodeLevel)); [ | discriminate].
  cbn. intros [= <-]. by split.
Qed.

Lemma add_edges_invariant (start_ : option nat) (end_names : list string) :
  forall m m',
    params_in_range m -> add_edges start_ end_names m = Ok m' ->
    params_in_range m' /\ lnls m' = lnls m.
Proof.
  induction end_names as [ | end_name rest IH]; intros m m' Hr H; cbn [add_edges] in H.
  - by injection H as <-.
  - destruct (add_edge start_ end_name m) as [m1 | ] eqn:E1; [ | discriminate].
    cbn in H. unfold add_edge in E1.
    destruct start_ as [s | ]; [ | discriminate].
    destruct (find_node m end_name) as [t | ]; [ | discriminate].
    destruct (Edge.__init__ (nodes m) s t 0 1) as [e | ] eqn:Ee; [ | discriminate].
    apply edge_init_in_range in Ee. cbn in E1.
    assert (H1 : params_in_range m1 /\ lnls m1 = lnls m).
    { destruct (is_tumor_spread (nodes m) e); injection E1 as <-.
      - split; [ | by destruct m].
        apply (set_edges_in_range TumorEdges); [done | ].
        apply Forall_app. split; [ | constructor; [done | constructor]].
        apply (get_edges_in_range TumorEdges m Hr).
      - split; [ | by destruct m].
        apply (set_edges_in_range LnlEdges); [done | ].
        apply Forall_app. split; [ | constructor; [done | constructor]].
        apply (get_edges_in_range LnlEdges m Hr). }
    destruct H1 as [Hr1 Hl1]. destruct (IH m1 m' Hr1 H) as [Hr' Hl'].
    split; [done | congruence].
Qed.

Lemma init_edges_invariant (graph : list ((string * string) * list string)) :
  forall m m',
    params_in_range m -> init_edges graph m = Ok m' ->
    params_in_range m' /\ lnls m' = lnls m.
Proof.
  induction graph as [ | kv graph IH]; intros m m' Hr H; cbn [init_edges] in H.
  - by injection H as <-.
  - destruct (init_edges_of kv m) as [m1 | ] eqn:E1; [ | discriminate].
    cbn in H. unfold init_edges_of in E1.
    assert (H0 : exists m0, params_in_range m0 /\ lnls m0 = lnls m /\
                            add_edges (find_node m kv.1.2) kv.2 m0 = Ok m1).
    { destruct (find_node m kv.1.2) as [s | ]; [ | by exists m].
      destruct (bool_decide (kind (nodes m !!! s) = LymphNodeLevel)
                && is_trinary (nodes m !!! s)); [ | by exists m].
      destruct (Edge.__init__ (nodes m) s s 0 1) as [e | ] eqn:Ee; [ | discriminate].
      apply edge_init_in_range in Ee. cbn in E1.
      eexists. split; [ | split; [ | exact E1]]; [ | by destruct m].
      apply (set_edges_in_range GrowthEdges); [done | ].
      apply Forall_app. split; [ | constructor; [done | constructor]].
      apply (get_edges_in_range GrowthEdges m Hr). }
    destruct H0 as [m0 [Hr0 [Hl0 Hadd]]].
    destruct (add_edges_invariant _ _ m0 m1 Hr0 Hadd) as [Hr1 Hl1].
    destruct (IH m1 m' Hr1 H) as [Hr' Hl']. split; [done | congruence].
Qed.

Lemma init_nodes_allowed (graph : list ((string * string) * list string))
    (tumor_state : Z) (al : list Z) :
  Forall (fun n => allowed_states n = al) (init_nodes graph tumor_state al).2.
Proof.
  unfold init_nodes.
  assert (Hgen : forall tl : list GraphNode * list GraphNode,
            Forall (fun n => allowed_states n = al) tl.2 ->
            Forall (fun n => allowed_states n = al)
              (foldl (fun tl kv =>
                        if decide (kv.1.1 = "tumor") then
                          (tl.1 ++ [mkGraphNode kv.1.2 Tumor [tumor_state] tumor_state],
                           tl.2)
                        else if decide (kv.1.1 = "lnl") then
                          (tl.1, tl.2 ++ [mkGraphNode kv.1.2 LymphNodeLevel al 0])
                        else tl) tl graph).2).
  { induction graph as [ | kv graph IH]; intros tl Htl; cbn [foldl]; [done | ].
    apply IH. destruct (decide (kv.1.1 = "tumor")); [done | ].
    destruct (decide (kv.1.1 = "lnl")); [ | done].
    cbn. apply Forall_app. split; [done | by repeat constructor]. }
  by apply Hgen.
Qed.

(** A model that [binary] or [trinary] constructs has its edge parameters in
    range and, if it has a lymph node level at all, uniform levels. *)
Lemma constructed_invariants (graph : list ((string * string) * list string))
    (k : nat) (m : Unilateral D) :
  (0 < k)%nat ->
  __init__ graph None (Some (map Z.of_nat (seq 0 k))) = Ok m ->
  params_in_range m /\ (lnls m <> [] -> uniform_levels m).
Proof.
  intros Hk. unfold __init__. cbv zeta.
  change (default [0; 1] (Some (map Z.of_nat (seq 0 k))))
    with (map Z.of_nat (seq 0 k)).
  destruct (last (map Z.of_nat (seq 0 k))) as [ts | ]; [ | discriminate].
  cbn [mbind except_bind].
  destruct (check_unique_names graph); [ | discriminate]. cbn [mbind except_bind].
  intros H. apply init_edges_invariant in H as [Hr Hl]; [ | by repeat split].
  split; [done | ]. intros Hne. split; [done | ].
  exists k. split; [done | ]. rewrite Hl. cbn. apply init_nodes_allowed.
Qed.

End Invariants.

(** * Further properties of the code *)

(** ** More of [node.py] *)

Section TransitionFacts.
Context {numpy : Numpy}.

(** One round of the loop of [trans_prob] for a parent in state 0 or 1: the
    first entry is multiplied with the factor of the edge, the second takes up
    what the first loses. *)
Lemma trans_step_binary_parent (nodes : list Node.Node) (res : Q * Q)
    (edge : Node.Arc) :
  Node.state (nodes !!! Node.start edge) = 0 \/
  Node.state (nodes !!! Node.start edge) = 1 ->
  let f := ((1 - Node.t edge) ^ Node.state (nodes !!! Node.start edge))%Q in
  ((Node.trans_step nodes res edge).1 == res.1 * f)%Q /\
  ((Node.trans_step nodes res edge).2 == res.2 + res.1 * (1 - f))%Q.
Proof.
  intros [Hs | Hs]; unfold Node.trans_step; rewrite Hs; destruct res as [r0 r1];
    cbn [fst snd].
  - change (inject_Z 0) with 0%Q. change (((1 - Node.t edge) ^ 0)%Q) with 1%Q.
    split; ring.
  - change (inject_Z 1) with 1%Q.
    change (((1 - Node.t edge) ^ 1)%Q) with (1 - Node.t edge)%Q.
    split; ring.
Qed.

Lemma foldl_trans_step (nodes : list Node.Node) (arcs : list Node.Arc) :
  Forall (fun e => Node.state (nodes !!! Node.start e) = 0 \/
                   Node.state (nodes !!! Node.start e) = 1) arcs ->
  forall res : Q * Q,
    ((foldl (Node.trans_step nodes) res arcs).1
     == res.1 * no_spread_prob nodes arcs)%Q /\
    ((foldl (Node.trans_step nodes) res arcs).2
     == res.2 + res.1 * (1 - no_spread_prob nodes arcs))%Q.
Proof.
  induction 1 as [ | e arcs He Harcs IH]; intros res.
  - unfold no_spread_prob. cbn. split; ring.
  - cbn [foldl]. destruct (IH (Node.trans_step nodes res e)) as [H1 H2].
    destruct (trans_step_binary_parent nodes res e He) as [H3 H4].
    cbv zeta in H3, H4. rewrite H1, H2, H3, H4.
    unfold no_spread_prob. cbn [map vprod]. split; ring.
Qed.

(** X1: [trans_prob] returns a distribution over the two states.  An involved
    node stays involved.  A node that is not involved, all of whose parents are
    in state 0 or 1, stays healthy with the product of [(1 - t_e) ^ x_e] over
    its incoming edges and becomes involved with one minus that product. *)
Theorem trans_prob_distribution (nodes : list Node.Node) (self : Node.Node) :
  binary_parents nodes self ->
  exists stay spread,
    Node.trans_prob nodes self false = [Finite stay; Finite spread] /\
    (stay + spread == 1)%Q /\
    (Node.state self = 1 -> (stay == 0)%Q /\ (spread == 1)%Q) /\
    (Node.state self <> 1 ->
     (stay == no_spread_prob nodes (Node.inc self))%Q /\
     (spread == 1 - no_spread_prob nodes (Node.inc self))%Q).
Proof.
  intros Hp. unfold Node.trans_prob.
  destruct (Node.state self =? 1) eqn:Es.
  - apply Z.eqb_eq in Es. exists 0%Q, 1%Q. repeat split; try done.
  - apply Z.eqb_neq in Es. cbn [Node.log_or_id].
    destruct (foldl_trans_step nodes (Node.inc self) Hp (1%Q, 0%Q)) as [H1 H2].
    cbn [fst snd] in H1, H2.
    eexists. eexists. split; [reflexivity | ].
    split; [rewrite H1, H2; ring | ]. split; [done | ]. intros _.
    split; [rewrite H1; ring | rewrite H2; ring].
Qed.

(** X2: the hidden Markov model and the Bayesian network agree on a healthy
    node: the two entries that [trans_prob] returns for it are what [bn_prob]
    returns for the node in state 0 and for the node put into state 1. *)
Theorem trans_prob_bn_prob (nodes : list Node.Node) (self : Node.Node) :
  Node.state self = 0 ->
  binary_parents nodes self ->
  exists stay spread,
    Node.trans_prob nodes self false = [Finite stay; Finite spread] /\
    Node.bn_prob nodes self false = Finite (Node.bn_prob_lin nodes self) /\
    (stay == Node.bn_prob_lin nodes self)%Q /\
    (spread == Node.bn_prob_lin nodes (node_in_state self 1))%Q.
Proof.
  intros Hs Hp. unfold Node.trans_prob. rewrite Hs. cbn [Z.eqb Node.log_or_id].
  destruct (foldl_trans_step nodes (Node.inc self) Hp (1%Q, 0%Q)) as [H1 H2].
  cbn [fst snd] in H1, H2.
  eexists. eexists. split; [reflexivity | ]. split; [reflexivity | ].
  destruct (bn_prob_lin_binary nodes self) as [B0 _].
  destruct (bn_prob_lin_binary nodes (node_in_state self 1)) as [_ B1].
  rewrite B0 by done. rewrite B1 by reflexivity. cbn [node_in_state Node.inc].
  split; [rewrite H1; ring | rewrite H2; ring].
Qed.

End TransitionFacts.

(** The level [III] of the chain [T -> II -> III] with [II] involved. *)
Lemma trans_prob_distribution_S2 :
  let store := Unilateral.node_store (with_states Examples.S2_model [1; 0]) in
  exists stay spread,
    Node.trans_prob store (store !!! 2%nat) false = [Finite stay; Finite spread] /\
    (stay + spread == 1)%Q /\
    (Node.state (store !!! 2%nat) = 1 -> (stay == 0)%Q /\ (spread == 1)%Q) /\
    (Node.state (store !!! 2%nat) <> 1 ->
     (stay == no_spread_prob store (Node.inc (store !!! 2%nat)))%Q /\
     (spread == 1 - no_spread_prob store (Node.inc (store !!! 2%nat)))%Q).
Proof.
  intros store.
  assert (Hp : binary_parents store (store !!! 2%nat)).
  { constructor; [by right | constructor]. }
  exact (trans_prob_distribution store (store !!! 2%nat) Hp).
Defined.

Lemma trans_prob_bn_prob_S2 :
  let store := Unilateral.node_store (with_states Examples.S2_model [1; 0]) in
  exists stay spread,
    Node.trans_prob store (store !!! 2%nat) false = [Finite stay; Finite spread] /\
    Node.bn_prob store (store !!! 2%nat) false
      = Finite (Node.bn_prob_lin store (store !!! 2%nat)) /\
    (stay == Node.bn_prob_lin store (store !!! 2%nat))%Q /\
    (spread == Node.bn_prob_lin store (node_in_state (store !!! 2%nat) 1))%Q.
Proof.
  intros store.
  assert (Hs : Node.state (store !!! 2%nat) = 0) by reflexivity.
  assert (Hp : binary_parents store (store !!! 2%nat)).
  { constructor; [by right | constructor]. }
  exact (trans_prob_bn_prob store (store !!! 2%nat) Hs Hp).
Defined.

(** ** Indexing *)

Section Indexing.
Context {A : Type}.
Implicit Types (l : list A) (i : nat).

Lemma getitem_nat l i :
  getitem l (Z.of_nat i)
  = match l !! i with Some x => Ok x | None => Raise IndexError end.
Proof.
  unfold getitem. cbv zeta.
  replace (Z.of_nat i <? 0) with false by (symmetry; apply Z.ltb_ge; lia).
  rewrite Nat2Z.id.
  replace (0 <=? Z.of_nat i) with true by (symmetry; apply Z.leb_le; lia).
  cbn [andb].
  destruct (Z.of_nat i <? Z.of_nat (length l)) eqn:E; [done | ].
  apply Z.ltb_ge in E. rewrite lookup_ge_None_2 by lia. done.
Qed.

Lemma getitem_raise l (z : Z) (e : exn) : getitem l z = Raise e -> e = IndexError.
Proof.
  unfold getitem. cbv zeta.
  destruct ((0 <=? (if z <? 0 then z + Z.of_nat (length l) else z))
            && ((if z <? 0 then z + Z.of_nat (length l) else z)
                <? Z.of_nat (length l))); [ | by intros [= <-]].
  destruct (l !! _); [discriminate | by intros [= <-]].
Qed.

Lemma getitem_zero l :
  getitem l 0 = match l with x :: _ => Ok x | [] => Raise IndexError end.
Proof. change 0 with (Z.of_nat 0). rewrite (getitem_nat l 0). by destruct l. Qed.

End Indexing.

Section ObservationFacts.
Context {numpy : Numpy}.
Implicit Types (self : Node.Node) (obs : list Z) (idx : list nat).

Lemma obs_step_raise self obs (res : Q) (i : nat) (e : exn) :
  Node.obs_step self obs res i = Raise e -> e = IndexError.
Proof.
  unfold Node.obs_step.
  destruct (getitem obs (Z.of_nat i)) as [o | e1] eqn:E1; cbn;
    [ | intros [= <-]; by eapply getitem_raise].
  destruct (getitem (Node.obs_table self) (Z.of_nat i)) as [tb | e2] eqn:E2; cbn;
    [ | intros [= <-]; by eapply getitem_raise].
  destruct (getitem tb o) as [row | e3] eqn:E3; cbn;
    [ | intros [= <-]; by eapply getitem_raise].
  destruct (getitem row (Node.state self)) as [x | e4] eqn:E4; cbn;
    [discriminate | intros [= <-]; by eapply getitem_raise].
Qed.

(** A round for a modality without a finding raises. *)
Lemma obs_loop_short self obs idx (i : nat) :
  i ∈ idx -> (length obs <= i)%nat ->
  forall res, Node.obs_loop self obs res idx = Raise IndexError.
Proof.
  intros Hi Hlen. induction idx as [ | j idx IH]; intros res.
  - by apply elem_of_nil in Hi.
  - cbn [Node.obs_loop].
    destruct (Node.obs_step self obs res j) as [res' | e] eqn:E; cbn.
    + apply elem_of_cons in Hi as [-> | Hi]; [ | by apply IH].
      unfold Node.obs_step in E. rewrite (getitem_nat obs j) in E.
      rewrite (lookup_ge_None_2 obs j) in E by lia. discriminate E.
    + f_equal. by eapply obs_step_raise.
Qed.

Lemma obs_loop_surplus self obs (surplus : list Z) idx :
  Forall (fun i => (i < length obs)%nat) idx ->
  forall res,
    Node.obs_loop self (obs ++ surplus) res idx = Node.obs_loop self obs res idx.
Proof.
  induction 1 as [ | i idx Hi Hidx IH]; intros res; [done | ].
  cbn [Node.obs_loop].
  assert (Hstep : Node.obs_step self (obs ++ surplus) res i
                  = Node.obs_step self obs res i).
  { unfold Node.obs_step. rewrite !getitem_nat. by rewrite lookup_app_l. }
  rewrite Hstep. destruct (Node.obs_step self obs res i); cbn; [apply IH | done].
Qed.

(** X4: without an observation [obs_prob] is 1 for every node; with fewer
    findings than the node has modalities it raises [IndexError]; findings
    beyond the number of modalities are not looked at. *)
Theorem obs_prob_observation_length self obs (surplus : list Z) (log : bool) :
  Node.obs_prob self false None = Ok (Finite 1%Q) /\
  ((length obs < Node.n_obs self)%nat ->
   Node.obs_prob self log (Some obs) = Raise IndexError) /\
  ((Node.n_obs self <= length obs)%nat ->
   Node.obs_prob self log (Some (obs ++ surplus))
   = Node.obs_prob self log (Some obs)).
Proof.
  split; [reflexivity | ]. split; intros Hlen; unfold Node.obs_prob, Node.obs_prob_lin.
  - rewrite (obs_loop_short self obs _ (length obs)); [done | | done].
    apply elem_of_seq. lia.
  - rewrite obs_loop_surplus; [done | ].
    apply Forall_forall. intros i Hi. apply elem_of_seq in Hi. lia.
Qed.

Lemma all_observations_spec (n : nat) :
  Forall (fun obs => length obs = n /\ Forall (fun o => o = 0 \/ o = 1) obs)
         (all_observations n).
Proof.
  induction n as [ | n IH]; cbn [all_observations].
  - by repeat constructor.
  - apply Forall_app. split; apply Forall_map; (eapply Forall_impl; [exact IH | ]);
      intros obs [Hl Ho]; cbn; (split; [by rewrite Hl | ]); constructor; auto.
Qed.

Lemma confusion_entry_getitem (table : list (list Q)) (o s : Z) :
  column_stochastic table -> o = 0 \/ o = 1 -> s = 0 \/ s = 1 ->
  (row ← getitem table o; getitem row s) = Ok (confusion_entry table o s).
Proof.
  intros [a [b [c [d [-> _]]]]] [-> | ->] [-> | ->]; reflexivity.
Qed.

Lemma confusion_entry_column (table : list (list Q)) (s : Z) :
  column_stochastic table -> s = 0 \/ s = 1 ->
  (confusion_entry table 0 s + confusion_entry table 1 s == 1)%Q.
Proof.
  intros [a [b [c [d [-> [H0 H1]]]]]] [-> | ->]; cbn; done.
Qed.

(** The loop over the modalities from the position [off] on. *)
Lemma obs_loop_product self obs :
  Node.state self = 0 \/ Node.state self = 1 ->
  forall (tables : list (list (list Q))) (os : list Z) (off : nat) (res : Q),
    drop off (Node.obs_table self) = tables ->
    drop off obs = os ->
    length os = length tables ->
    Forall column_stochastic tables ->
    Forall (fun o => o = 0 \/ o = 1) os ->
    exists p,
      Node.obs_loop self obs res (seq off (length tables)) = Ok p /\
      (p == res * obs_product (Node.state self) tables os)%Q.
Proof.
  intros Hs. induction tables as [ | tb tables IH]; intros os off res Ht Ho Hl Hc Hos.
  - exists res. split; [reflexivity | ]. cbn. ring.
  - destruct os as [ | o os]; [discriminate | ].
    inversion Hc as [ | ? ? Htb Hc']; subst.
    inversion Hos as [ | ? ? Ho1 Hos']; subst.
    assert (Htb_at : Node.obs_table self !! off = Some tb).
    { rewrite <- (Nat.add_0_r off), <- lookup_drop, Ht. reflexivity. }
    assert (Ho_at : obs !! off = Some o).
    { rewrite <- (Nat.add_0_r off), <- lookup_drop, Ho. reflexivity. }
    assert (Ht' : drop (S off) (Node.obs_table self) = tables).
    { rewrite (drop_S _ _ _ Htb_at) in Ht. by injection Ht. }
    assert (Ho' : drop (S off) obs = os).
    { rewrite (drop_S _ _ _ Ho_at) in Ho. by injection Ho. }
    cbn [length seq Node.obs_loop].
    assert (Hstep : Node.obs_step self obs res off
                    = Ok (res * confusion_entry tb o (Node.state self))%Q).
    { unfold Node.obs_step. rewrite !getitem_nat, Ho_at, Htb_at.
      cbn [mbind except_bind].
      pose proof (confusion_entry_getitem tb o (Node.state self) Htb Ho1 Hs) as E.
      destruct (getitem tb o) as [row | ]; cbn in E |- *; [ | discriminate].
      by rewrite E. }
    rewrite Hstep. cbn [mbind except_bind].
    destruct (IH os (S off) (res * confusion_entry tb o (Node.state self))%Q
                Ht' Ho') as [p [Hp Hval]]; try done.
    { cbn in Hl. lia. }
    exists p. split; [done | ]. rewrite Hval. cbn [obs_product]. ring.
Qed.

Lemma vsum_app (u v : list Q) : (vsum (u ++ v) == vsum u + vsum v)%Q.
Proof.
  induction u as [ | x u IH]; cbn [app vsum]; [ring | rewrite IH; ring].
Qed.

Lemma vsum_map_scale {B : Type} (a : Q) (f : B -> Q) (l : list B) :
  (vsum (map (fun x => a * f x) l) == a * vsum (map f l))%Q.
Proof.
  induction l as [ | x l IH]; cbn [map vsum]; [ring | rewrite IH; ring].
Qed.

Lemma obs_product_total (s : Z) (tables : list (list (list Q))) :
  s = 0 \/ s = 1 ->
  Forall column_stochastic tables ->
  (vsum (map (obs_product s tables) (all_observations (length tables))) == 1)%Q.
Proof.
  intros Hs. induction 1 as [ | tb tables Htb Htables IH].
  - cbn. ring.
  - cbn [length all_observations]. rewrite map_app, vsum_app, !map_map.
    cbn [obs_product].
    rewrite (vsum_map_scale (confusion_entry tb 0 s)),
      (vsum_map_scale (confusion_entry tb 1 s)), IH.
    rewrite !Qmult_1_r. by apply confusion_entry_column.
Qed.

(** X3: for a node in state 0 or 1 whose confusion matrices are
    column-stochastic, [obs_prob] is defined on every observation that has one
    finding, 0 or 1, per modality, and its values over all these observations
    sum to one. *)
Theorem obs_prob_normalised self :
  Node.n_obs self = length (Node.obs_table self) ->
  Forall column_stochastic (Node.obs_table self) ->
  Node.state self = 0 \/ Node.state self = 1 ->
  exists ps,
    Forall2 (fun obs p => Node.obs_prob self false (Some obs) = Ok (Finite p))
            (all_observations (Node.n_obs self)) ps /\
    (vsum ps == 1)%Q.
Proof.
  intros Hn Hc Hs.
  assert (Hall : forall obs,
            length obs = Node.n_obs self -> Forall (fun o => o = 0 \/ o = 1) obs ->
            exists p, Node.obs_prob self false (Some obs) = Ok (Finite p) /\
                      (p == obs_product (Node.state self) (Node.obs_table self) obs)%Q).
  { intros obs Hl Ho.
    destruct (obs_loop_product self obs Hs (Node.obs_table self) obs 0 1%Q)
      as [p [Hp Hval]]; try done; [congruence | ].
    exists p. split; [ | rewrite Hval; ring].
    unfold Node.obs_prob, Node.obs_prob_lin. rewrite Hn, Hp. reflexivity. }
  assert (Hgen : forall obss : list (list Z),
            Forall (fun obs => length obs = Node.n_obs self /\
                               Forall (fun o => o = 0 \/ o = 1) obs) obss ->
            exists ps,
              Forall2 (fun obs p => Node.obs_prob self false (Some obs) = Ok (Finite p))
                      obss ps /\
              (vsum ps
               == vsum (map (obs_product (Node.state self) (Node.obs_table self))
                            obss))%Q).
  { induction 1 as [ | obs obss [Hl Ho] Hobss [ps [Hps Hsum]]].
    - exists []. split; [constructor | reflexivity].
    - destruct (Hall obs Hl Ho) as [p [Hp Hval]].
      exists (p :: ps). split; [by constructor | ].
      cbn [map vsum]. by rewrite Hval, Hsum. }
  destruct (Hgen _ (all_observations_spec (Node.n_obs self))) as [ps [Hps Hsum]].
  exists ps. split; [done | ]. rewrite Hsum, Hn. by apply obs_product_total.
Qed.

End ObservationFacts.

(** A node with two modalities, a perfect one and one of specificity 0.9 and
    sensitivity 0.8. *)
Lemma obs_prob_normalised_example :
  let self := Node.mkNode "II" "lnl" 1 2
                [[[1; 0]; [0; 1]]; [[9 # 10; 2 # 10]; [1 # 10; 8 # 10]]]%Q [] [] in
  exists ps,
    Forall2 (fun obs p => Node.obs_prob self false (Some obs) = Ok (Finite p))
            (all_observations 2) ps /\
    (vsum ps == 1)%Q.
Proof.
  intros self.
  assert (Hn : Node.n_obs self = length (Node.obs_table self)) by reflexivity.
  assert (Hc : Forall column_stochastic (Node.obs_table self)).
  { constructor; [ | constructor; [ | constructor]].
    - exists 1%Q, 0%Q, 0%Q, 1%Q. by repeat split.
    - exists (9 # 10)%Q, (2 # 10)%Q, (1 # 10)%Q, (8 # 10)%Q. by repeat split. }
  assert (Hs : Node.state self = 0 \/ Node.state self = 1) by (by right).
  exact (obs_prob_normalised self Hn Hc Hs).
Defined.

Lemma obs_prob_observation_length_example :
  let self := Node.mkNode "II" "lnl" 1 2
                [[[1; 0]; [0; 1]]; [[9 # 10; 2 # 10]; [1 # 10; 8 # 10]]]%Q [] [] in
  Node.obs_prob self false None = Ok (Finite 1%Q) /\
  Node.obs_prob self false (Some [1]) = Raise IndexError /\
  Node.obs_prob self false (Some ([1; 0] ++ [0; 0]))
  = Node.obs_prob self false (Some [1; 0]).
Proof.
  intros self.
  destruct (obs_prob_observation_length self [1] [] false) as [H0 [H1 _]].
  destruct (obs_prob_observation_length self [1; 0] [0; 0] false) as [_ [_ H2]].
  split; [exact H0 | ]. split; [apply H1; cbn; lia | apply H2; cbn; lia].
Defined.

(** ** More of [edge.py] *)

Lemma in_unit_interval_spec (x : Q) :
  in_unit_interval x = true <-> (0 <= x /\ x <= 1)%Q.
Proof.
  unfold in_unit_interval. rewrite andb_true_iff, !Qle_bool_iff. tauto.
Qed.

Lemma in_unit_interval_one : in_unit_interval 1 = true.
Proof. reflexivity. Qed.

Lemma in_unit_interval_complement (x : Q) :
  in_unit_interval x = true -> in_unit_interval (1 - x) = true.
Proof. rewrite !in_unit_interval_spec. intros [H0 H1]. split; lra. Qed.

Lemma in_unit_interval_product (x y : Q) :
  in_unit_interval x = true -> in_unit_interval y = true ->
  in_unit_interval (x * y) = true.
Proof.
  rewrite !in_unit_interval_spec. intros [Hx0 Hx1] [Hy0 Hy1]. split.
  - by apply Qmult_le_0_compat.
  - apply Qle_trans with (1 * y)%Q; [by apply Qmult_le_compat_r | lra].
Qed.

(** X5: whatever the states of its two nodes and whatever the new state asked
    for, an edge whose two parameters lie in the unit interval contributes a
    factor that is a probability. *)
Theorem comp_spread_prob_in_range (nodes : list Edge.GraphNode) (e : Edge.Edge)
    (new_state : Z) :
  edge_in_range e ->
  in_unit_interval (Edge.comp_spread_prob nodes e new_state) = true.
Proof.
  intros [Hs Hm].
  pose proof (in_unit_interval_complement _ Hs) as Hs'.
  pose proof (in_unit_interval_product _ _ Hs Hm) as Hsm.
  pose proof (in_unit_interval_complement _ Hsm) as Hsm'.
  unfold Edge.comp_spread_prob, Edge.spread_binary, Edge.spread_micro,
    Edge.spread_macro.
  repeat match goal with
         | |- context [if ?b then _ else _] => destruct b
         end; done.
Qed.

(** X6: an edge between two different nodes acts on a healthy child only: when
    the child is in any other state the factor is 1, whatever the state of the
    parent and the new state asked for. *)
Theorem comp_spread_prob_involved_child (nodes : list Edge.GraphNode)
    (e : Edge.Edge) (new_state : Z) :
  Edge.is_growth e = false ->
  Edge.state (nodes !!! Edge.end_ e) <> 0 ->
  Edge.comp_spread_prob nodes e new_state = 1%Q.
Proof.
  intros Hg Hs. apply Z.eqb_neq in Hs.
  unfold Edge.comp_spread_prob, Edge.spread_binary, Edge.spread_micro,
    Edge.spread_macro.
  rewrite Hg, Hs. cbn [negb].
  repeat match goal with
         | |- context [if ?b then _ else _] => destruct b
         end; done.
Qed.

(** X7: on an edge into a healthy child that is not binary, the modifier
    [micro_mod] scales the spread probability exactly when the parent is in
    state 1; in every other state of the parent the spread probability is
    taken as it is.  The step to state 1 has this probability, every other new
    state the complementary one. *)
Theorem comp_spread_prob_micro_mod (nodes : list Edge.GraphNode) (e : Edge.Edge)
    (new_state : Z) :
  Edge.is_growth e = false ->
  Edge.is_binary (nodes !!! Edge.end_ e) = false ->
  Edge.state (nodes !!! Edge.end_ e) = 0 ->
  let p := if Edge.state (nodes !!! Edge.start e) =? 1
           then (Edge.spread_prob e * Edge.micro_mod e)%Q
           else Edge.spread_prob e in
  Edge.comp_spread_prob nodes e 1 = p /\
  (new_state <> 1 -> Edge.comp_spread_prob nodes e new_state = (1 - p)%Q).
Proof.
  intros Hg Hb Hs p. subst p.
  unfold Edge.comp_spread_prob, Edge.spread_binary, Edge.spread_micro,
    Edge.spread_macro.
  rewrite Hg, Hb, Hs. cbn [negb Z.eqb].
  split.
  - by destruct (Edge.state (nodes !!! Edge.start e) =? 1).
  - intros Hn. apply Z.eqb_neq in Hn. rewrite Hn.
    by destruct (Edge.state (nodes !!! Edge.start e) =? 1).
Qed.

(** The tumor edge of the trinary model S3: the tumor is in state 2 and spreads
    with the full probability 0.2. *)
Lemma comp_spread_prob_micro_mod_S3 :
  let nodes := Unilateral.nodes Examples.S3_model in
  let e := Unilateral.tumor_edges Examples.S3_model !!! 0%nat in
  let p := if Edge.state (nodes !!! Edge.start e) =? 1
           then (Edge.spread_prob e * Edge.micro_mod e)%Q
           else Edge.spread_prob e in
  Edge.comp_spread_prob nodes e 1 = p /\
  (0 <> 1 -> Edge.comp_spread_prob nodes e 0 = (1 - p)%Q).
Proof.
  exact (comp_spread_prob_micro_mod (Unilateral.nodes Examples.S3_model)
           (Unilateral.tumor_edges Examples.S3_model !!! 0%nat) 0
           eq_refl eq_refl eq_refl).
Defined.

Lemma comp_spread_prob_in_range_S2 :
  in_unit_interval
    (Edge.comp_spread_prob (Unilateral.nodes Examples.S2_model) Examples.S2_edge 1)
  = true.
Proof.
  assert (Hr : edge_in_range Examples.S2_edge) by (by split).
  exact (comp_spread_prob_in_range (Unilateral.nodes Examples.S2_model)
           Examples.S2_edge 1 Hr).
Defined.

(** The edge from [II] to [III] of S2 once [III] is involved. *)
Lemma comp_spread_prob_involved_child_S2 :
  Edge.comp_spread_prob (Unilateral.nodes (with_states Examples.S2_model [1; 1]))
    Examples.S2_edge 0 = 1%Q.
Proof.
  assert (Hg : Edge.is_growth Examples.S2_edge = false) by reflexivity.
  assert (Hs : Edge.state (Unilateral.nodes (with_states Examples.S2_model [1; 1])
                             !!! Edge.end_ Examples.S2_edge) <> 0)
    by discriminate.
  exact (comp_spread_prob_involved_child _ Examples.S2_edge 0 Hg Hs).
Defined.

(** X8: the two parameters of an edge stay in the unit interval for as long as
    the edge lives: after its construction and after any sequence of
    assignments to [spread_prob] and [micro_mod], whether they are accepted or
    refused; the assignments do not touch the ends of the edge. *)
Theorem edge_parameters_in_range (nodes : list Edge.GraphNode) (s t : nat)
    (spread_prob micro_mod : Q) (e : Edge.Edge)
    (assignments : list (Unilateral.Field * Q)) (r : except unit) (e' : Edge.Edge) :
  Edge.__init__ nodes s t spread_prob micro_mod = Ok e ->
  Unilateral.for_each assignments assign_field e = (r, e') ->
  edge_in_range e' /\ Edge.start e' = s /\ Edge.end_ e' = t.
Proof.
  intros Hinit Hrun.
  assert (He : edge_in_range e /\ Edge.start e = s /\ Edge.end_ e = t).
  { unfold Edge.__init__ in Hinit.
    destruct (nodes !! s), (nodes !! t) as [n | ]; try discriminate.
    destruct (decide (Edge.kind n = Edge.LymphNodeLevel)); [ | discriminate].
    unfold Edge.set_micro_mod in Hinit.
    destruct (in_unit_interval micro_mod) eqn:Hm; [ | discriminate].
    cbn in Hinit. unfold Edge.set_spread_prob in Hinit. cbn in Hinit.
    destruct (in_unit_interval spread_prob) eqn:Hs; [ | discriminate].
    cbn in Hinit. injection Hinit as <-. by repeat split. }
  clear Hinit. revert e r e' He Hrun.
  induction assignments as [ | [f v] assignments IH]; intros e r e' He Hrun;
    cbn [Unilateral.for_each] in Hrun.
  - by injection Hrun as _ <-.
  - apply bind_inv in Hrun as [[[] [e1 [H1 H2]]] | [err [H1 _]]].
    + eapply IH; [ | exact H2].
      unfold assign_field in H1. cbn [fst snd] in H1.
      destruct (Unilateral.write_field f v e) as [e2 | ] eqn:Ew; [ | discriminate].
      injection H1 as <-. destruct He as [Hr [Hs Ht]]. split.
      * by eapply write_field_keeps_range.
      * destruct f; cbn in Ew; unfold Edge.set_spread_prob, Edge.set_micro_mod in Ew;
          destruct (in_unit_interval v); cbn in Ew; try discriminate;
          injection Ew as <-; by split.
    + unfold assign_field in H1. cbn [fst snd] in H1.
      destruct (Unilateral.write_field f v e) as [e2 | ]; [discriminate | ].
      by injection H1 as _ <-.
Qed.

(** An edge from the tumor to the level [II]: the second of three assignments
    is refused. *)
Lemma edge_parameters_in_range_S1 :
  let nodes := Unilateral.nodes Examples.S1_model in
  let assignments := [(Unilateral.SpreadProb, 3 # 10); (Unilateral.MicroMod, 3 # 2);
                      (Unilateral.SpreadProb, 1 # 2)]%Q in
  let e' := (Unilateral.for_each assignments assign_field
               (Edge.mkEdge 0 1 (1 # 2) (1 # 10))).2 in
  edge_in_range e' /\ Edge.start e' = 0%nat /\ Edge.end_ e' = 1%nat.
Proof.
  intros nodes assignments e'.
  exact (edge_parameters_in_range nodes 0 1 (1 # 10) (1 # 2)
           (Edge.mkEdge 0 1 (1 # 2) (1 # 10)) assignments (Raise ValueError) e'
           eq_refl eq_refl).
Defined.

Lemma bind_unfold {S A B : Type} (x : Unilateral.action S A)
    (k : A -> Unilateral.action S B) (s : S) :
  (x ≫= k) s
  = match x s with
    | (Ok a, s') => k a s'
    | (Raise e, s') => (Raise e, s')
    end.
Proof. reflexivity. Qed.

(** ** Nodes by name, states by position and by name *)

Section Names.
Import Edge Unilateral.
Context {D : Type}.
Implicit Types (m : Unilateral D) (st : list Z) (l : list GraphNode) (nm : string).

Lemma find_from_Some l nm : forall (i0 i : nat),
  find_from i0 l nm = Some i ->
  exists (j : nat) n,
    i = (i0 + j)%nat /\ l !! j = Some n /\ name n = nm /\
    Forall (fun n' => name n' <> nm) (take j l).
Proof.
  induction l as [ | n l IH]; intros i0 i H; cbn [find_from] in H; [discriminate | ].
  destruct (decide (name n = nm)) as [Hn | Hn].
  - injection H as <-. exists 0%nat, n. repeat split; [lia | done | constructor].
  - apply IH in H as [j [n' [-> [Hj [Hn' Hpre]]]]].
    exists (S j), n'. repeat split; [lia | done | done | ].
    cbn [take]. by constructor.
Qed.

Lemma find_from_None l nm (i0 : nat) :
  find_from i0 l nm = None <-> nm ∉ map name l.
Proof.
  revert i0. induction l as [ | n l IH]; intros i0; cbn [find_from map].
  - split; [intros _; apply not_elem_of_nil | done].
  - rewrite not_elem_of_cons. destruct (decide (name n = nm)) as [Hn | Hn].
    + split; [discriminate | intros [H _]; by destruct H].
    + rewrite IH. split; [by split | tauto].
Qed.

(** X9: [find_node] returns the first node of that name in the order of
    [nodes], the tumors before the lymph node levels, and nothing when no node
    has the name. *)
Theorem find_node_first m nm :
  match find_node m nm with
  | Some i =>
      exists n, nodes m !! i = Some n /\ name n = nm /\
                Forall (fun n' => name n' <> nm) (take i (nodes m))
  | None => (nm ∉ map name (tumors m)) /\ (nm ∉ map name (lnls m))
  end.
Proof.
  unfold find_node. destruct (find_from 0 (nodes m) nm) as [i | ] eqn:E.
  - apply find_from_Some in E as [j [n [-> [Hj [Hn Hpre]]]]]. by exists n.
  - apply find_from_None in E. unfold nodes in E.
    rewrite map_app, not_elem_of_app in E. exact E.
Qed.

Lemma find_from_names l l' nm (i0 : nat) :
  map name l = map name l' -> find_from i0 l nm = find_from i0 l' nm.
Proof.
  revert l' i0. induction l as [ | n l IH]; intros [ | n' l'] i0 H;
    try discriminate; [done | ].
  injection H as Hn Hl. cbn [find_from]. rewrite Hn.
  destruct (decide (name n' = nm)); [done | by apply IH].
Qed.

Lemma find_from_NoDup l : forall (i0 j : nat) n,
  NoDup (map name l) -> l !! j = Some n ->
  find_from i0 l (name n) = Some (i0 + j)%nat.
Proof.
  induction l as [ | n0 l IH]; intros i0 j n Hnd Hj; [done | ].
  cbn [map] in Hnd. apply NoDup_cons in Hnd as [Hn0 Hnd].
  destruct j as [ | j]; cbn [find_from].
  - injection Hj as ->. rewrite decide_True by done. f_equal. lia.
  - cbn in Hj. rewrite decide_False.
    + rewrite (IH (S i0) j n Hnd Hj). f_equal. lia.
    + intros Heq. apply Hn0. rewrite Heq. apply list_elem_of_fmap.
      exists n. split; [done | ]. by eapply list_elem_of_lookup_2.
Qed.

(** Assigning a state to a level touches the states of the levels only. *)
Lemma set_lnl_state_shape (j : nat) (a : Z) m (r : except unit) m' :
  set_lnl_state j a m = (r, m') ->
  tumors m' = tumors m /\
  map name (lnls m') = map name (lnls m) /\
  map kind (lnls m') = map kind (lnls m).
Proof.
  unfold set_lnl_state. destruct (lnls m !! j) as [n | ] eqn:Ej;
    [ | by intros [= _ <-]].
  unfold set_state. destruct (bool_decide (a ∈ allowed_states n));
    intros [= _ <-]; [ | done].
  destruct m as [ts ls ? ? ? ? ? ? ? ?]. cbn in *.
  split; [done | ].
  split; (apply list_eq; intros i; rewrite !list_lookup_fmap;
          destruct (decide (i = j)) as [-> | Hij];
          [rewrite list_lookup_insert_eq by (by eapply lookup_lt_Some);
           by rewrite Ej
          | by rewrite list_lookup_insert_ne by done]).
Qed.

Lemma names_no_level_shape m m' nm :
  tumors m' = tumors m ->
  map name (lnls m') = map name (lnls m) ->
  map kind (lnls m') = map kind (lnls m) ->
  names_no_level m nm -> names_no_level m' nm.
Proof.
  intros Ht Hn Hk. unfold names_no_level, find_node.
  assert (Hnames : map name (nodes m') = map name (nodes m)).
  { unfold nodes. by rewrite !map_app, Ht, Hn. }
  assert (Hkinds : map kind (nodes m') = map kind (nodes m)).
  { unfold nodes. by rewrite !map_app, Ht, Hk. }
  rewrite (find_from_names (nodes m') (nodes m) nm 0 Hnames).
  destruct (find_from 0 (nodes m) nm) as [i | ] eqn:E; [ | done].
  apply find_from_Some in E as [j [n [-> [Hj _]]]]. cbn [Nat.add].
  assert (Hj' : exists n', nodes m' !! j = Some n' /\ kind n' = kind n).
  { assert (H : map kind (nodes m') !! j = Some (kind n)).
    { rewrite Hkinds. change (map kind (nodes m)) with (kind <$> nodes m).
      by rewrite list_lookup_fmap, Hj. }
    change (map kind (nodes m')) with (kind <$> nodes m') in H.
    rewrite list_lookup_fmap in H.
    destruct (nodes m' !! j) as [n' | ]; [ | discriminate].
    exists n'. split; [done | ]. by injection H. }
  destruct Hj' as [n' [Hn' Hkn]].
  rewrite (list_lookup_total_correct _ _ _ Hj),
    (list_lookup_total_correct _ _ _ Hn'). by rewrite Hkn.
Qed.

Lemma assign_positional_beyond (surplus : list Z) : forall (j : nat) m,
  (length (lnls m) <= j)%nat -> assign_positional j surplus m = (Ok (), m).
Proof.
  induction surplus as [ | a surplus IH]; intros j m Hj; [done | ].
  cbn [assign_positional]. erewrite bind_ok; cycle 1.
  { unfold set_lnl_state. by rewrite lookup_ge_None_2 by lia. }
  apply IH. lia.
Qed.

Lemma set_lnl_state_length (j : nat) (a : Z) m (r : except unit) m' :
  set_lnl_state j a m = (r, m') -> length (lnls m') = length (lnls m).
Proof.
  intros H. apply set_lnl_state_shape in H as [_ [H _]].
  apply (f_equal length) in H. by rewrite !length_map in H.
Qed.

Lemma assign_positional_surplus st (surplus : list Z) : forall (j : nat) m,
  (length (lnls m) <= j + length st)%nat ->
  assign_positional j (st ++ surplus) m = assign_positional j st m.
Proof.
  induction st as [ | s st IH]; intros j m Hj.
  - cbn in Hj. cbn [app assign_positional]. apply assign_positional_beyond. lia.
  - cbn [app assign_positional].
    destruct (set_lnl_state j s m) as [[[] | e] m1] eqn:E1.
    + erewrite !bind_ok by exact E1. apply IH.
      rewrite (set_lnl_state_length _ _ _ _ _ E1). cbn in Hj. lia.
    + by erewrite !bind_raise by exact E1.
Qed.

Lemma assign_positional_shape st : forall (j : nat) m (r : except unit) m',
  assign_positional j st m = (r, m') ->
  tumors m' = tumors m /\
  map name (lnls m') = map name (lnls m) /\
  map kind (lnls m') = map kind (lnls m).
Proof.
  induction st as [ | s st IH]; intros j m r m' H; cbn [assign_positional] in H.
  - by injection H as _ <-.
  - apply bind_inv in H as [[[] [m1 [H1 H2]]] | [e [H1 _]]].
    + apply set_lnl_state_shape in H1 as [Ht [Hn Hk]].
      apply IH in H2 as [Ht' [Hn' Hk']]. repeat split; congruence.
    + by apply set_lnl_state_shape in H1.
Qed.

(** X10: [assign_states] never complains about what it cannot place:
    positional states beyond the number of lymph node levels are dropped, and
    a keyword that names no node, or a tumor, is skipped. *)
Theorem assign_states_ignores m st (surplus : list Z) (kwargs : list (string * Z)) :
  (length (lnls m) <= length st)%nat ->
  Forall (fun kv => names_no_level m kv.1) kwargs ->
  assign_states (st ++ surplus) kwargs m = assign_states st [] m.
Proof.
  intros Hlen Hkw. unfold assign_states. rewrite !bind_unfold.
  rewrite assign_positional_surplus by (cbn; lia).
  destruct (assign_positional 0 st m) as [[[] | e] m1] eqn:E1; [ | done].
  apply assign_positional_shape in E1 as [Ht [Hn Hk]].
  assert (Hkw1 : Forall (fun kv => names_no_level m1 kv.1) kwargs).
  { eapply Forall_impl; [exact Hkw | ]. intros kv. by apply names_no_level_shape. }
  clear Hkw.
  transitivity (@pair (except unit) (Unilateral D) (Ok ()) m1); [ | reflexivity].
  induction Hkw1 as [ | [k v] kwargs Hkv Hkw1 IH]; [done | ].
  cbn [for_each]. erewrite bind_ok; [exact IH | ].
  erewrite bind_ok; [ | reflexivity].
  unfold names_no_level in Hkv. cbn [fst snd] in *.
  destruct (find_node m1 k) as [i | ]; [ | reflexivity].
  by rewrite decide_False.
Qed.

Lemma dict_fill_id {A : Type} (items : list (string * A)) :
  forall acc : list (string * A),
    NoDup (dict_keys (acc ++ items)) ->
    foldl (fun d kv => dict_set kv.1 kv.2 d) acc items = acc ++ items.
Proof.
  induction items as [ | [k v] items IH]; intros acc Hnd; cbn [foldl].
  - by rewrite app_nil_r.
  - assert (Hset : dict_set k v acc = acc ++ [(k, v)]).
    { assert (Hk : k ∉ dict_keys acc).
      { unfold dict_keys in *. rewrite map_app in Hnd.
        apply NoDup_app in Hnd as [_ [Hdisj _]]. intros Hin.
        apply (Hdisj k Hin). cbn. apply elem_of_cons. by left. }
      clear Hnd IH. induction acc as [ | [k' v'] acc IH]; [done | ].
      cbn [dict_keys map] in Hk. apply not_elem_of_cons in Hk as [Hne Hk].
      cbn [dict_set fst]. rewrite decide_False by done. cbn. f_equal. by apply IH. }
    cbn [fst snd]. rewrite Hset. rewrite IH; rewrite <- app_assoc; done.
Qed.

Lemma dict_of_items_id {A : Type} (items : list (string * A)) :
  NoDup (dict_keys items) -> dict_of_items items = items.
Proof. intros H. unfold dict_of_items. by rewrite dict_fill_id. Qed.

Lemma get_states_with_states m st :
  NoDup (map name (lnls m)) -> length st = length (lnls m) ->
  get_states (with_states m st) = zip (map name (lnls m)) st.
Proof.
  intros Hnd Hlen. unfold get_states, with_states.
  replace (lnls (with_lnls m (put_states st (lnls m))))
    with (put_states st (lnls m)) by (by destruct m).
  assert (Hitems : map (fun n => (name n, state n)) (put_states st (lnls m))
                   = zip (map name (lnls m)) st).
  { clear Hnd. revert st Hlen. induction (lnls m) as [ | n l IH]; intros [ | s st] Hl;
      try discriminate; [done | ].
    cbn. f_equal. apply IH. cbn in Hl. lia. }
  rewrite Hitems. apply dict_of_items_id.
  unfold dict_keys. change (map fst (zip (map name (lnls m)) st))
    with ((zip (map name (lnls m)) st).*1).
  rewrite fst_zip by (rewrite length_map; lia). done.
Qed.

(** The keyword states are written one after the other. *)
Lemma assign_keywords_spec st : forall pre l m,
  lnls m = pre ++ l ->
  NoDup (map name (nodes m)) ->
  Forall (fun n => kind n = LymphNodeLevel) l ->
  Forall2 (fun s n => s ∈ allowed_states n) st l ->
  for_each (zip (map name l) st)
    (fun kv =>
       m ← get;
       match find_node m kv.1 with
       | Some i =>
           if decide (kind (nodes m !!! i) = LymphNodeLevel)
           then set_lnl_state (i - length (tumors m)) kv.2
           else mret ()
       | None => mret ()
       end) m
  = (Ok (), with_lnls m (pre ++ put_states st l)).
Proof.
  induction st as [ | s st IH]; intros pre l m Hm Hnd Hk Hv.
  - inversion Hv; subst. cbn. rewrite <- Hm. by rewrite with_lnls_id.
  - inversion Hv as [ | ? n ? l' Hs Hv']; subst.
    inversion Hk as [ | ? ? Hkn Hk']; subst.
    cbn [map zip zip_with for_each].
    assert (Hat : nodes m !! (length (tumors m) + length pre)%nat = Some n).
    { unfold nodes. rewrite lookup_app_r by lia.
      replace (length (tumors m) + length pre - length (tumors m))%nat
        with (length pre) by lia.
      rewrite Hm, lookup_app_r, Nat.sub_diag by lia. done. }
    set (n' := mkGraphNode (name n) (kind n) (allowed_states n) s).
    set (m1 := with_lnls m (pre ++ n' :: l')).
    assert (Hstep :
      (m0 ← get;
       match find_node m0 (name n) with
       | Some i =>
           if decide (kind (nodes m0 !!! i) = LymphNodeLevel)
           then set_lnl_state (i - length (tumors m0)) s
           else mret ()
       | None => mret ()
       end) m = (Ok (), m1)).
    { erewrite bind_ok; [ | reflexivity].
      unfold find_node. rewrite (find_from_NoDup _ 0 _ n Hnd Hat). cbn [Nat.add].
      rewrite (list_lookup_total_correct _ _ _ Hat), decide_True by done.
      replace (length (tumors m) + length pre - length (tumors m))%nat
        with (length pre) by lia.
      unfold set_lnl_state. rewrite Hm, lookup_app_r, Nat.sub_diag by lia. cbn.
      unfold set_state. rewrite bool_decide_eq_true_2 by done.
      rewrite insert_app_r_alt, Nat.sub_diag by lia. reflexivity. }
    erewrite bind_ok; [ | exact Hstep].
    specialize (IH (pre ++ [n']) l' m1).
    rewrite IH.
    + subst m1. cbn. rewrite <- app_assoc. by destruct m.
    + subst m1. cbn. by rewrite <- app_assoc.
    + subst m1. unfold nodes in *. cbn.
      replace (map name (tumors m ++ pre ++ n' :: l'))
        with (map name (tumors m ++ lnls m)); [done | ].
      rewrite Hm, !map_app. done.
    + done.
    + done.
Qed.

(** X11: with unique node names, states that the levels allow can be assigned
    by position or by name to the same effect, and [get_states] then returns
    them under the names of the levels, in the order of the levels. *)
Theorem assign_states_by_name m st :
  NoDup (map name (nodes m)) ->
  Forall (fun n => kind n = LymphNodeLevel) (lnls m) ->
  Forall2 (fun s n => s ∈ allowed_states n) st (lnls m) ->
  exists m',
    assign_states st [] m = (Ok (), m') /\
    assign_states [] (zip (map name (lnls m)) st) m = (Ok (), m') /\
    get_states m' = zip (map name (lnls m)) st /\
    map snd (get_states m') = st.
Proof.
  intros Hnd Hk Hv. exists (with_states m st).
  assert (Hlen : length st = length (lnls m)) by (by eapply Forall2_length).
  assert (Hnd' : NoDup (map name (lnls m))).
  { unfold nodes in Hnd. rewrite map_app in Hnd. by apply NoDup_app in Hnd as [_ [_ H]]. }
  split; [by apply assign_states_spec | ]. split; [ | split].
  - unfold assign_states. erewrite bind_ok; [ | reflexivity].
    by apply (assign_keywords_spec st [] (lnls m) m).
  - by apply get_states_with_states.
  - rewrite get_states_with_states by done.
    change (map snd (zip (map name (lnls m)) st))
      with ((zip (map name (lnls m)) st).*2).
    apply snd_zip. rewrite length_map. lia.
Qed.

End Names.

(** The chain [T -> II -> III]: three states for two levels, and keywords for
    the tumor and for a level that does not exist. *)
Lemma assign_states_ignores_S2 :
  Unilateral.assign_states ([1; 0] ++ [1]) [("T", 0); ("IV", 1)] Examples.S2_model
  = Unilateral.assign_states [1; 0] [] Examples.S2_model.
Proof.
  assert (Hlen : (length (Unilateral.lnls Examples.S2_model) <= length [1; 0])%nat)
    by (vm_compute; lia).
  assert (Hkw : Forall (fun kv => names_no_level Examples.S2_model kv.1)
                  [("T", 0); ("IV", 1)]).
  { constructor; [ | constructor; [ | constructor]]; vm_compute; [discriminate | done]. }
  exact (assign_states_ignores Examples.S2_model [1; 0] [1] [("T", 0); ("IV", 1)]
           Hlen Hkw).
Defined.

Lemma assign_states_by_name_S2 :
  exists m',
    Unilateral.assign_states [1; 0] [] Examples.S2_model = (Ok (), m') /\
    Unilateral.assign_states [] [("II", 1); ("III", 0)] Examples.S2_model
    = (Ok (), m') /\
    Unilateral.get_states m' = [("II", 1); ("III", 0)] /\
    map snd (Unilateral.get_states m') = [1; 0].
Proof.
  assert (Hnd : NoDup (map Edge.name (Unilateral.nodes Examples.S2_model))).
  { vm_compute. repeat constructor; rewrite ?elem_of_cons, ?elem_of_nil;
      intros H; repeat (destruct H as [H | H]; try discriminate H); done. }
  assert (Hk : Forall (fun n => Edge.kind n = Edge.LymphNodeLevel)
                 (Unilateral.lnls Examples.S2_model))
    by (by repeat constructor).
  assert (Hv : Forall2 (fun s n => s ∈ Edge.allowed_states n) [1; 0]
                 (Unilateral.lnls Examples.S2_model)).
  { repeat constructor; vm_compute; rewrite ?elem_of_cons; auto. }
  exact (assign_states_by_name Examples.S2_model [1; 0] Hnd Hk Hv).
Defined.

(** ** Parameters by position and under the aggregate keys *)

Section Aggregates.
Import Edge Unilateral.
Context {D : Type} {distributions : DistributionAPI D}.
Implicit Types (m : Unilateral D) (e : Edge) (l : EdgeList) (f : Field) (v : Q).

Lemma write_field_ok f v e :
  in_unit_interval v = true -> write_field f v e = Ok (with_field f v e).
Proof.
  intros Hv. destruct f; cbn; unfold set_spread_prob, set_micro_mod; by rewrite Hv.
Qed.

Lemma set_edges_twice l m (es es' : list Edge) :
  set_edges l (set_edges l m es) es' = set_edges l m es'.
Proof. by destruct l, m. Qed.

(** The loop of an aggregate key over the edges of a list, from the position
    [length pre] on. *)
Lemma for_each_set_field_all l f v :
  in_unit_interval v = true ->
  forall (rest pre : list Edge) m,
    get_edges l m = pre ++ rest ->
    for_each (seq (length pre) (length rest)) (fun i => set_edge_field l i f v) m
    = (Ok (), set_edges l m (pre ++ map (with_field f v) rest)).
Proof.
  intros Hv. induction rest as [ | e rest IH]; intros pre m Hm.
  - cbn. by rewrite <- Hm, set_edges_get.
  - cbn [length seq for_each].
    erewrite bind_ok; cycle 1.
    { unfold set_edge_field. rewrite Hm, lookup_app_r, Nat.sub_diag by lia. cbn.
      rewrite write_field_ok by done.
      rewrite insert_app_r_alt, Nat.sub_diag by lia. reflexivity. }
    cbn [insert list_insert].
    specialize (IH (pre ++ [with_field f v e])
                  (set_edges l m (pre ++ with_field f v e :: rest))).
    rewrite length_app, Nat.add_1_r in IH. rewrite IH.
    + rewrite set_edges_twice, <- app_assoc. reflexivity.
    + by rewrite get_edges_set, <- app_assoc.
Qed.

(** X12: the keyword [growth] with a value of the unit interval writes the
    value into the spread probability of every growth edge, the keyword
    [micro_mod] into the modifier of every edge between lymph node levels;
    nothing else of the model changes.  A distribution over diagnose times of
    the same name would take the keyword instead. *)
Theorem assign_params_aggregate m v :
  in_unit_interval v = true ->
  dict_mem "growth" (diag_time_dists m) = false ->
  dict_mem "micro_mod" (diag_time_dists m) = false ->
  assign_params [] [("growth", v)] m
  = (Ok (), with_growth_edges m (map (with_field SpreadProb v) (growth_edges m))) /\
  assign_params [] [("micro_mod", v)] m
  = (Ok (), with_lnl_edges m (map (with_field MicroMod v) (lnl_edges m))).
Proof.
  intros Hv Hg Hm. split; rewrite assign_params_kwargs; cbn [for_each fst snd];
    (erewrite bind_ok; [reflexivity | ]);
    unfold assign_kwarg; (erewrite bind_ok; [ | reflexivity]).
  - rewrite Hg, decide_True by done.
    apply (for_each_set_field_all GrowthEdges SpreadProb v Hv (growth_edges m) [] m).
    reflexivity.
  - rewrite Hm, decide_False, decide_True by done.
    apply (for_each_set_field_all LnlEdges MicroMod v Hv (lnl_edges m) [] m).
    reflexivity.
Qed.

Lemma dict_fill_items {A B : Type} (key : B -> string) (val : B -> A)
    (items : list B) (acc : list (string * A)) :
  NoDup (dict_keys acc ++ map key items) ->
  foldl (fun r x => dict_set (key x) (val x) r) acc items
  = acc ++ map (fun x => (key x, val x)) items.
Proof.
  intros Hnd.
  rewrite <- (dict_fill_id (map (fun x => (key x, val x)) items) acc).
  - generalize acc. clear Hnd. induction items as [ | x items IH]; intros acc';
      cbn [foldl map]; [done | ]. apply IH.
  - unfold dict_keys in *. by rewrite map_app, map_map.
Qed.

(** Without a clash of names the dictionary of [get_params] lists the edge
    parameters, then the parameters of the distributions. *)
Lemma get_params_dict_items m :
  NoDup (dict_keys (edge_params m) ++ dict_keys (diag_time_dists m)) ->
  get_params_dict m
  = map (fun np => (np.1, Param_get np.2 m)) (edge_params m)
    ++ map (fun nd => (nd.1, get_param nd.2)) (diag_time_dists m).
Proof.
  intros Hnd. unfold get_params_dict.
  rewrite (dict_fill_items fst (fun np => Param_get np.2 m) (edge_params m) []).
  - cbn [app]. apply (dict_fill_items fst (fun nd => get_param nd.2)).
    unfold dict_keys in *. by rewrite map_map.
  - cbn. by apply NoDup_app in Hnd as [H _].
Qed.

Lemma update_dist_own m (key : string) (d : D) :
  (key, d) ∈ diag_time_dists m ->
  NoDup (dict_keys (diag_time_dists m)) ->
  update (get_param d) d = Ok d ->
  update_dist key (get_param d) m = (Ok (), m).
Proof.
  intros Hin Hnd Hup. unfold update_dist.
  rewrite (dict_get_elem_of key d) by done.
  rewrite Hup, dict_set_same by (by apply dict_get_elem_of). by destruct m.
Qed.

Lemma for_each_zip_unchanged {S A B : Type} (items : list A)
    (setter : A -> B -> action S unit) (value : A -> B) (s : S) :
  (forall x, x ∈ items -> setter x (value x) s = (Ok (), s)) ->
  for_each (zip (map setter items) (map value items)) (fun sv => sv.1 sv.2) s
  = (Ok (), s).
Proof.
  induction items as [ | x items IH]; intros H; [done | ].
  cbn [map zip zip_with for_each fst snd].
  erewrite bind_ok; [ | apply H, elem_of_cons; by left].
  apply IH. intros y Hy. apply H, elem_of_cons. by right.
Qed.

(** X13: when no distribution over diagnose times bears the name of an edge
    parameter, [get_params()] returns one value per edge parameter and per
    distribution, in the order in which [assign_params] takes its positional
    arguments: handing the list back positionally succeeds and leaves the model
    as it is. *)
Theorem params_positional_round_trip m :
  params_in_range m ->
  NoDup (dict_keys (edge_params m) ++ dict_keys (diag_time_dists m)) ->
  (forall key d, (key, d) ∈ diag_time_dists m -> update (get_param d) d = Ok d) ->
  exists values,
    get_params false m = inr values /\
    length values = (length (edge_params m) + length (diag_time_dists m))%nat /\
    values = map (fun np => Param_get np.2 m) (edge_params m)
             ++ map (fun nd => get_param nd.2) (diag_time_dists m) /\
    assign_params values [] m = (Ok (), m).
Proof.
  intros Hr Hnd Hup.
  assert (Hnd' : NoDup (dict_keys (diag_time_dists m)))
    by (by apply NoDup_app in Hnd as [_ [_ H]]).
  eexists. split; [reflexivity | ].
  cbn [get_params]. rewrite get_params_dict_items by done.
  rewrite map_app, !map_map. cbn [snd].
  split; [by rewrite length_app, !length_map | ]. split; [reflexivity | ].
  unfold assign_params. erewrite bind_ok; [ | reflexivity].
  erewrite bind_ok; [reflexivity | ].
  unfold params_access.
  rewrite zip_with_app by (by rewrite !length_map).
  erewrite for_each_app; cycle 1.
  { apply (for_each_zip_unchanged (edge_params m)
             (fun np v => Param_set np.2 v) (fun np => Param_get np.2 m)).
    intros np _. by apply Param_set_own. }
  apply (for_each_zip_unchanged (diag_time_dists m)
           (fun nd v => update_dist nd.1 v) (fun nd => get_param nd.2)).
  intros [key d] Hin. cbn [fst snd]. apply update_dist_own; [done | done | ].
  by eapply Hup.
Qed.

End Aggregates.

(** The trinary chain [T -> II -> III]. *)
Lemma assign_params_aggregate_S2 :
  let m := Examples.S2_trinary in
  Unilateral.assign_params [] [("growth", 1 # 2)%Q] m
  = (Ok (), Unilateral.with_growth_edges m
              (map (with_field Unilateral.SpreadProb (1 # 2))
                   (Unilateral.growth_edges m))) /\
  Unilateral.assign_params [] [("micro_mod", 1 # 2)%Q] m
  = (Ok (), Unilateral.with_lnl_edges m
              (map (with_field Unilateral.MicroMod (1 # 2))
                   (Unilateral.lnl_edges m))).
Proof.
  exact (assign_params_aggregate Examples.S2_trinary (1 # 2) eq_refl eq_refl eq_refl).
Defined.

Lemma params_positional_round_trip_S2 :
  let m := Unilateral.with_diag_time_dists Examples.S2_trinary
             [("late", Examples.mkDistribution (1 # 3) (fun p => [p; 1 - p]%Q))] in
  exists values,
    Unilateral.get_params false m = inr values /\
    length values
    = (length (Unilateral.edge_params m)
       + length (Unilateral.diag_time_dists m))%nat /\
    values = map (fun np => Unilateral.Param_get np.2 m) (Unilateral.edge_params m)
             ++ map (fun nd => Unilateral.get_param nd.2)
                    (Unilateral.diag_time_dists m) /\
    Unilateral.assign_params values [] m = (Ok (), m).
Proof.
  intros m.
  assert (Hr : params_in_range m) by (repeat split; repeat constructor).
  assert (Hnd : NoDup (dict_keys (Unilateral.edge_params m)
                       ++ dict_keys (Unilateral.diag_time_dists m))).
  { vm_compute. repeat constructor; rewrite ?elem_of_cons, ?elem_of_nil;
      intros H; repeat (destruct H as [H | H]; try discriminate H); done. }
  assert (Hup : forall key d, (key, d) ∈ Unilateral.diag_time_dists m ->
                              Unilateral.update (Unilateral.get_param d) d = Ok d).
  { intros key d Hin. apply list_elem_of_singleton in Hin. by injection Hin as _ ->. }
  exact (params_positional_round_trip m Hr Hnd Hup).
Defined.

(** ** The construction of a model *)

Section Construction.
Import Edge Unilateral.
Context {D : Type}.
Implicit Types (m : Unilateral D) (ns : list GraphNode) (nm : string)
  (g suf : list ((string * string) * list string))
  (kv : (string * string) * list string).

Lemma keys_of_kind_cons (kind : string) kv g :
  keys_of_kind kind (kv :: g)
  = if decide (kv.1.1 = kind) then kv.1.2 :: keys_of_kind kind g
    else keys_of_kind kind g.
Proof.
  unfold keys_of_kind. rewrite filter_cons. by destruct (decide (kv.1.1 = kind)).
Qed.

Lemma edges_of_kind_cons ns (kind : string) kv g :
  edges_of_kind ns kind (kv :: g)
  = (if decide (kv.1.1 = kind)
     then map (fun end_name =>
                 mkEdge (position ns kv.1.2) (position ns end_name) 1 0) kv.2
     else [])
    ++ edges_of_kind ns kind g.
Proof.
  unfold edges_of_kind. rewrite filter_cons. by destruct (decide (kv.1.1 = kind)).
Qed.

Lemma growth_edges_of_cons ns kv g :
  growth_edges_of ns (kv :: g)
  = (if decide (kv.1.1 = "lnl")
     then [mkEdge (position ns kv.1.2) (position ns kv.1.2) 1 0] else [])
    ++ growth_edges_of ns g.
Proof.
  unfold growth_edges_of. rewrite keys_of_kind_cons.
  by destruct (decide (kv.1.1 = "lnl")).
Qed.

Lemma edges_of_kind_nil ns (kind : string) : edges_of_kind ns kind [] = [].
Proof. reflexivity. Qed.

Lemma growth_edges_of_nil ns : growth_edges_of ns [] = [].
Proof. reflexivity. Qed.

Lemma elem_of_keys_of_kind (kind : string) nm g :
  nm ∈ keys_of_kind kind g <-> exists ends, ((kind, nm), ends) ∈ g.
Proof.
  unfold keys_of_kind. rewrite list_elem_of_fmap. split.
  - intros [[[kd nm'] ends] [-> H]]. apply list_elem_of_filter in H as [Hk H].
    cbn in *. subst kd. by exists ends.
  - intros [ends H]. exists ((kind, nm), ends). split; [done | ].
    apply list_elem_of_filter. by split.
Qed.

(** The nodes that [init_nodes] creates. *)
Lemma init_nodes_spec g (s : Z) (al : list Z) :
  init_nodes g s al
  = (map (fun nm => mkGraphNode nm Tumor [s] s) (keys_of_kind "tumor" g),
     map (fun nm => mkGraphNode nm LymphNodeLevel al 0) (keys_of_kind "lnl" g)).
Proof.
  unfold init_nodes.
  assert (Hgen : forall tl : list GraphNode * list GraphNode,
            foldl (fun tl kv =>
                     if decide (kv.1.1 = "tumor") then
                       (tl.1 ++ [mkGraphNode kv.1.2 Tumor [s] s], tl.2)
                     else if decide (kv.1.1 = "lnl") then
                       (tl.1, tl.2 ++ [mkGraphNode kv.1.2 LymphNodeLevel al 0])
                     else tl) tl g
            = (tl.1 ++ map (fun nm => mkGraphNode nm Tumor [s] s)
                           (keys_of_kind "tumor" g),
               tl.2 ++ map (fun nm => mkGraphNode nm LymphNodeLevel al 0)
                           (keys_of_kind "lnl" g))).
  { induction g as [ | kv g IH]; intros [t l]; cbn [foldl fst snd].
    - by rewrite !app_nil_r.
    - rewrite IH, !keys_of_kind_cons.
      destruct (decide (kv.1.1 = "tumor")) as [Ht | Ht].
      + rewrite decide_False by (rewrite Ht; discriminate).
        cbn [fst snd map]. by rewrite <- app_assoc.
      + destruct (decide (kv.1.1 = "lnl")); cbn [fst snd map]; [ | done].
        by rewrite <- app_assoc. }
  apply (Hgen ([], [])).
Qed.

(** A new edge between two nodes of the store. *)
Lemma edge_init_new ns (i j : nat) :
  Edge.__init__ ns i j 0 1
  = match ns !! i, ns !! j with
    | Some _, Some b =>
        if decide (kind b = LymphNodeLevel) then Ok (mkEdge i j 1 0)
        else Raise TypeError
    | _, _ => Raise TypeError
    end.
Proof.
  unfold Edge.__init__. by destruct (ns !! i), (ns !! j) as [b | ].
Qed.

Lemma built_nil m : built m [] [] [] = m.
Proof. unfold built. rewrite !app_nil_r. by destruct m. Qed.

Lemma built_built m (te le ge te' le' ge' : list Edge) :
  built (built m te le ge) te' le' ge' = built m (te ++ te') (le ++ le') (ge ++ ge').
Proof. unfold built. cbn. by rewrite <- !app_assoc. Qed.

Lemma nodes_built m (te le ge : list Edge) : nodes (built m te le ge) = nodes m.
Proof. reflexivity. Qed.

(** The loop of [init_edges] over the ends of one key. *)
Lemma add_edges_spec (i : nat) (a : GraphNode) (ends : list string) : forall m,
  nodes m !! i = Some a ->
  Forall (fun end_name =>
            resolves_to (nodes m) end_name (fun n => kind n = LymphNodeLevel)) ends ->
  add_edges (Some i) ends m
  = Ok (let es := map (fun end_name =>
                         mkEdge i (position (nodes m) end_name) 1 0) ends in
        if decide (kind a = Tumor) then built m es [] [] else built m [] es []).
Proof.
  induction ends as [ | end_name ends IH]; intros m Hi Hends; cbn [add_edges].
  - cbn. rewrite built_nil. by destruct (decide (kind a = Tumor)).
  - apply Forall_cons in Hends as [[j [b [Hj [Hb Hkb]]]] Hends].
    unfold add_edge. unfold find_node at 1. rewrite Hj, edge_init_new, Hi, Hb.
    rewrite decide_True by done. cbn [mbind except_bind].
    unfold is_tumor_spread. cbn [start]. rewrite (list_lookup_total_correct _ _ _ Hi).
    assert (Hpos : position (nodes m) end_name = j) by (unfold position; by rewrite Hj).
    cbn [map]. rewrite Hpos.
    destruct (decide (kind a = Tumor)) as [Ha | Ha].
    + rewrite bool_decide_eq_true_2 by done. cbn [mbind except_bind].
      rewrite (IH (with_tumor_edges m (tumor_edges m ++ [mkEdge i j 1 0]))); try done.
      cbv zeta. f_equal.
      unfold built, with_tumor_edges. cbn. rewrite !app_nil_r, <- app_assoc. done.
    + rewrite bool_decide_eq_false_2 by done. cbn [mbind except_bind].
      rewrite (IH (with_lnl_edges m (lnl_edges m ++ [mkEdge i j 1 0]))); try done.
      cbv zeta. f_equal.
      unfold built, with_lnl_edges. cbn. rewrite !app_nil_r, <- app_assoc. done.
Qed.

(** One round of the loop of [init_edges]. *)
Lemma init_edges_of_spec (tri : bool) kv m :
  key_resolves (nodes m) tri kv ->
  init_edges_of kv m
  = Ok (built m (edges_of_kind (nodes m) "tumor" [kv])
                (edges_of_kind (nodes m) "lnl" [kv])
                (if tri then growth_edges_of (nodes m) [kv] else [])).
Proof.
  intros [Hkey Hends]. unfold init_edges_of.
  rewrite !edges_of_kind_cons, growth_edges_of_cons.
  rewrite !edges_of_kind_nil, growth_edges_of_nil, !app_nil_r.
  destruct Hkey as [[Hk [i [a [Hi [Ha Hka]]]]] |
                    [[Hk [i [a [Hi [Ha [Hka Htri]]]]]] | [Hk1 [Hk2 [Hnone Hnil]]]]].
  - (* a tumor *)
    unfold find_node. rewrite Hi. rewrite (list_lookup_total_correct _ _ _ Ha).
    rewrite bool_decide_eq_false_2 by (rewrite Hka; discriminate).
    cbn [andb mbind except_bind].
    rewrite (add_edges_spec i a kv.2 m Ha Hends). cbv zeta.
    rewrite decide_True by done.
    rewrite (decide_True _ _ Hk).
    rewrite !(decide_False (P := kv.1.1 = "lnl")) by (rewrite Hk; discriminate).
    assert (Hpos : position (nodes m) kv.1.2 = i) by (unfold position; by rewrite Hi).
    rewrite Hpos. by destruct tri.
  - (* a lymph node level *)
    unfold find_node. rewrite Hi. rewrite (list_lookup_total_correct _ _ _ Ha).
    rewrite bool_decide_eq_true_2 by done. rewrite Htri. cbn [andb].
    assert (Hpos : position (nodes m) kv.1.2 = i) by (unfold position; by rewrite Hi).
    rewrite (decide_False (P := kv.1.1 = "tumor")) by (rewrite Hk; discriminate).
    rewrite !(decide_True _ _ Hk), Hpos.
    destruct tri.
    + rewrite edge_init_new, Ha, decide_True by done. cbn [mbind except_bind].
      rewrite (add_edges_spec i a kv.2
                 (with_growth_edges m (growth_edges m ++ [mkEdge i i 1 0])) Ha Hends).
      cbv zeta.
      rewrite decide_False by (rewrite Hka; discriminate).
      f_equal. unfold built, with_growth_edges. cbn. by rewrite !app_nil_r.
    + cbn [mbind except_bind].
      rewrite (add_edges_spec i a kv.2 _ Ha Hends). cbv zeta.
      rewrite decide_False by (rewrite Hka; discriminate). done.
  - (* a key of another kind *)
    unfold find_node. rewrite Hnone, Hnil. cbn [map mbind except_bind add_edges].
    rewrite !decide_False by done. destruct tri; by rewrite built_nil.
Qed.

(** The loop of [init_edges] over the items of the graph. *)
Lemma init_edges_spec (tri : bool) suf : forall m,
  Forall (key_resolves (nodes m) tri) suf ->
  init_edges suf m
  = Ok (built m (edges_of_kind (nodes m) "tumor" suf)
                (edges_of_kind (nodes m) "lnl" suf)
                (if tri then growth_edges_of (nodes m) suf else [])).
Proof.
  induction suf as [ | kv suf IH]; intros m Hsuf; cbn [init_edges].
  - rewrite !edges_of_kind_nil, growth_edges_of_nil. destruct tri; by rewrite built_nil.
  - apply Forall_cons in Hsuf as [Hkv Hsuf].
    rewrite (init_edges_of_spec tri kv m Hkv). cbn [mbind except_bind].
    rewrite IH by done. rewrite nodes_built, built_built. f_equal. f_equal.
    + rewrite (edges_of_kind_cons _ _ kv suf), (edges_of_kind_cons _ _ kv []).
      by rewrite edges_of_kind_nil, app_nil_r.
    + rewrite (edges_of_kind_cons _ _ kv suf), (edges_of_kind_cons _ _ kv []).
      by rewrite edges_of_kind_nil, app_nil_r.
    + destruct tri; [ | done].
      rewrite (growth_edges_of_cons _ kv suf), (growth_edges_of_cons _ kv []).
      by rewrite growth_edges_of_nil, app_nil_r.
Qed.

(** *** The store of the nodes of a graph *)

Lemma NoDup_fmap_unique {A B : Type} (f : A -> B) (l : list A) (x y : A) :
  NoDup (map f l) -> x ∈ l -> y ∈ l -> f x = f y -> x = y.
Proof.
  induction l as [ | z l IH]; intros Hnd Hx Hy Hf; [by apply elem_of_nil in Hx | ].
  cbn [map] in Hnd. apply NoDup_cons in Hnd as [Hz Hnd].
  apply elem_of_cons in Hx as [-> | Hx]; apply elem_of_cons in Hy as [-> | Hy].
  - done.
  - destruct Hz. rewrite Hf. apply list_elem_of_fmap. by exists y.
  - destruct Hz. rewrite <- Hf. apply list_elem_of_fmap. by exists x.
  - by apply IH.
Qed.

Lemma keys_of_kind_names (kind : string) g nm :
  nm ∈ keys_of_kind kind g -> nm ∈ map (fun kv => kv.1.2) g.
Proof.
  rewrite elem_of_keys_of_kind. intros [ends H]. apply list_elem_of_fmap.
  by exists ((kind, nm), ends).
Qed.

Lemma keys_of_kind_NoDup g :
  NoDup (map (fun kv => kv.1.2) g) ->
  NoDup (keys_of_kind "tumor" g ++ keys_of_kind "lnl" g).
Proof.
  induction g as [ | kv g IH]; intros Hnd; [by apply NoDup_nil_2 | ].
  cbn [map] in Hnd. apply NoDup_cons in Hnd as [Hkv Hnd].
  specialize (IH Hnd). rewrite !keys_of_kind_cons.
  assert (Hfresh : kv.1.2 ∉ keys_of_kind "tumor" g ++ keys_of_kind "lnl" g).
  { rewrite not_elem_of_app. split; intros H; by apply keys_of_kind_names in H. }
  destruct (decide (kv.1.1 = "tumor")) as [Ht | Ht].
  - rewrite decide_False by (rewrite Ht; discriminate). cbn [app].
    by apply NoDup_cons.
  - destruct (decide (kv.1.1 = "lnl")); [ | done].
    rewrite <- Permutation_middle. by apply NoDup_cons.
Qed.

(** In a store with unique names every node is found under its name. *)
Lemma resolves_to_elem ns (n : GraphNode) (P : GraphNode -> Prop) :
  NoDup (map name ns) -> n ∈ ns -> P n -> resolves_to ns (name n) P.
Proof.
  intros Hnd Hn HP. apply list_elem_of_lookup in Hn as [i Hi].
  exists i, n. split; [ | done]. by apply (find_from_NoDup ns 0 i n).
Qed.

Lemma resolves_to_inv ns nm (P : GraphNode -> Prop) :
  resolves_to ns nm P -> exists n, n ∈ ns /\ name n = nm /\ P n.
Proof.
  intros [i [n [Hi [Hn HP]]]]. exists n.
  apply find_from_Some in Hi as [j [n' [-> [Hj [Hname _]]]]]. cbn in Hn.
  rewrite Hn in Hj. injection Hj as <-.
  split; [by eapply list_elem_of_lookup_2 | done].
Qed.

Lemma constructed_nodes g (s : Z) (al : list Z) :
  map name (nodes (constructed (D := D) g s al))
  = keys_of_kind "tumor" g ++ keys_of_kind "lnl" g.
Proof.
  unfold nodes, constructed. cbn [tumors lnls].
  rewrite map_app, !map_map. cbn [name]. by rewrite !map_id.
Qed.

(** The items of a well-formed graph with unique names resolve in the store
    of its nodes. *)
Lemma well_formed_resolves g (s : Z) (al : list Z) :
  NoDup (map (fun kv => kv.1.2) g) ->
  well_formed g ->
  Forall (key_resolves (nodes (constructed (D := D) g s al))
            (bool_decide (length al = 3%nat))) g.
Proof.
  intros Hnd Hwf.
  set (ns := nodes (constructed (D := D) g s al)).
  assert (Hns : NoDup (map name ns)).
  { unfold ns. rewrite constructed_nodes. by apply keys_of_kind_NoDup. }
  assert (Htumor : forall nm, nm ∈ keys_of_kind "tumor" g ->
            resolves_to ns nm (fun n => kind n = Tumor)).
  { intros nm Hnm.
    apply (resolves_to_elem ns (mkGraphNode nm Tumor [s] s)); [done | | done].
    unfold ns, nodes, constructed. cbn [tumors lnls]. apply elem_of_app. left.
    apply list_elem_of_fmap. by exists nm. }
  assert (Hlnl : forall nm, nm ∈ keys_of_kind "lnl" g ->
            resolves_to ns nm (fun n => kind n = LymphNodeLevel /\
                                        is_trinary n = bool_decide (length al = 3%nat))).
  { intros nm Hnm.
    apply (resolves_to_elem ns (mkGraphNode nm LymphNodeLevel al 0)); [done | | done].
    unfold ns, nodes, constructed. cbn [tumors lnls]. apply elem_of_app. right.
    apply list_elem_of_fmap. by exists nm. }
  apply Forall_forall. intros [[kd nm] ends] Hin.
  pose proof (proj1 (Forall_forall _ _) Hwf _ Hin) as [Hkind Hends].
  cbn [fst snd] in *. split.
  - destruct (decide (kd = "tumor")) as [-> | Ht].
    { left. split; [done | ]. apply Htumor, elem_of_keys_of_kind. by exists ends. }
    destruct (decide (kd = "lnl")) as [-> | Hl].
    { right. left. split; [done | ]. apply Hlnl, elem_of_keys_of_kind. by exists ends. }
    right. right. split; [done | ]. split; [done | ]. split.
    + apply find_from_None. fold ns. unfold ns. rewrite constructed_nodes.
      rewrite not_elem_of_app.
      split; intros H; apply elem_of_keys_of_kind in H as [ends' H];
        pose proof (NoDup_fmap_unique (fun kv => kv.1.2) g _ _ Hnd Hin H eq_refl) as Heq;
        injection Heq as -> _; done.
    + destruct ends; [done | ]. destruct Hkind as [-> | ->]; done.
  - eapply Forall_impl; [exact Hends | ]. intros end_name Hend. cbn beta.
    destruct (Hlnl end_name Hend) as [i [n [Hi [Hn [Hk _]]]]]. by exists i, n.
Qed.

(** The model that the constructor returns for a well-formed graph. *)
Lemma init_spec g (tumor_state : option Z) (al : list Z) (s : Z) :
  match tumor_state with Some s' => s' = s | None => last al = Some s end ->
  NoDup (map (fun kv => kv.1.2) g) ->
  well_formed g ->
  __init__ g tumor_state (Some al) = Ok (constructed (D := D) g s al).
Proof.
  intros Hs Hnd Hwf. unfold __init__. cbv zeta.
  change (default [0; 1] (Some al)) with al.
  assert (Hts : match tumor_state with
                | Some s0 => Ok s0
                | None => match last al with
                          | Some s0 => Ok s0
                          | None => Raise IndexError
                          end
                end = Ok s).
  { destruct tumor_state; [by rewrite Hs | by rewrite Hs]. }
  rewrite Hts. cbn [mbind except_bind].
  unfold check_unique_names. rewrite decide_True by done. cbn [mbind except_bind].
  rewrite init_nodes_spec. cbn [fst snd].
  rewrite (init_edges_spec (bool_decide (length al = 3%nat))).
  - f_equal. unfold built, constructed. cbn. f_equal.
    destruct (decide (length al = 3%nat)) as [H3 | H3].
    + by rewrite bool_decide_eq_true_2.
    + by rewrite bool_decide_eq_false_2.
  - apply (well_formed_resolves g s al Hnd Hwf).
Qed.

(** *** What a successful construction tells about the graph *)

Lemma edge_init_new_inv ns (i j : nat) (r : except Edge) :
  Edge.__init__ ns i j 0 1 = r ->
  match r with
  | Ok e => e = mkEdge i j 1 0 /\
            exists b, ns !! j = Some b /\ kind b = LymphNodeLevel
  | Raise err => err = TypeError
  end.
Proof.
  rewrite edge_init_new. intros <-.
  destruct (ns !! i), (ns !! j) as [b | ]; try done.
  destruct (decide (kind b = LymphNodeLevel)); [ | done].
  split; [done | by exists b].
Qed.

Lemma add_edge_inv (start_ : option nat) (end_name : string) m
    (r : except (Unilateral D)) :
  add_edge start_ end_name m = r ->
  match r with
  | Ok m' => is_Some start_ /\ nodes m' = nodes m /\
             resolves_to (nodes m) end_name (fun n => kind n = LymphNodeLevel)
  | Raise err => err = TypeError
  end.
Proof.
  unfold add_edge. intros <-.
  destruct start_ as [i | ]; [ | done].
  unfold find_node. destruct (find_from 0 (nodes m) end_name) as [j | ] eqn:Ej; [ | done].
  pose proof (edge_init_new_inv (nodes m) i j _ eq_refl) as H.
  destruct (Edge.__init__ (nodes m) i j 0 1) as [e | err]; [ | done].
  destruct H as [-> [b [Hb Hk]]]. cbn [mbind except_bind].
  destruct (is_tumor_spread (nodes m) (mkEdge i j 1 0));
    (split; [done | ]); (split; [done | ]); by exists j, b.
Qed.

Lemma add_edges_inv (start_ : option nat) (ends : list string) :
  forall m (r : except (Unilateral D)),
    add_edges start_ ends m = r ->
    match r with
    | Ok m' => (ends <> [] -> is_Some start_) /\ nodes m' = nodes m /\
               Forall (fun end_name =>
                         resolves_to (nodes m) end_name
                           (fun n => kind n = LymphNodeLevel)) ends
    | Raise err => err = TypeError
    end.
Proof.
  induction ends as [ | end_name ends IH]; intros m r <-; cbn [add_edges].
  - by repeat split.
  - pose proof (add_edge_inv start_ end_name m _ eq_refl) as H1.
    destruct (add_edge start_ end_name m) as [m1 | err]; [ | done].
    destruct H1 as [Hs [Hn Hr]]. cbn [mbind except_bind].
    pose proof (IH m1 _ eq_refl) as H2.
    destruct (add_edges start_ ends m1) as [m2 | err]; [ | done].
    destruct H2 as [_ [Hn2 Hr2]]. rewrite Hn in Hn2, Hr2.
    split; [done | ]. split; [done | ]. by constructor.
Qed.

Lemma init_edges_of_inv kv m (r : except (Unilateral D)) :
  init_edges_of kv m = r ->
  match r with
  | Ok m' => (kv.2 <> [] -> is_Some (find_from 0 (nodes m) kv.1.2)) /\
             nodes m' = nodes m /\
             Forall (fun end_name =>
                       resolves_to (nodes m) end_name
                         (fun n => kind n = LymphNodeLevel)) kv.2
  | Raise err => err = TypeError
  end.
Proof.
  unfold init_edges_of, find_node. intros <-.
  set (start_ := find_from 0 (nodes m) kv.1.2).
  assert (H0 : match (match start_ with
                      | Some s0 =>
                          if bool_decide (kind (nodes m !!! s0) = LymphNodeLevel)
                             && is_trinary (nodes m !!! s0)
                          then growth_edge ← Edge.__init__ (nodes m) s0 s0 0 1;
                               Ok (with_growth_edges m (growth_edges m ++ [growth_edge]))
                          else Ok m
                      | None => Ok m
                      end) with
               | Ok m0 => nodes m0 = nodes m
               | Raise err => err = TypeError
               end).
  { destruct start_ as [s0 | ]; [ | done].
    destruct (bool_decide (kind (nodes m !!! s0) = LymphNodeLevel)
              && is_trinary (nodes m !!! s0)); [ | done].
    pose proof (edge_init_new_inv (nodes m) s0 s0 _ eq_refl) as H.
    by destruct (Edge.__init__ (nodes m) s0 s0 0 1). }
  destruct (match start_ with
            | Some s0 => _
            | None => Ok m
            end) as [m0 | err]; [ | done].
  cbn [mbind except_bind].
  pose proof (add_edges_inv start_ kv.2 m0 _ eq_refl) as H1.
  destruct (add_edges start_ kv.2 m0) as [m1 | err]; [ | done].
  destruct H1 as [Hs [Hn Hr]]. rewrite H0 in Hn, Hr. by repeat split.
Qed.

Lemma init_edges_inv suf : forall m (r : except (Unilateral D)),
  init_edges suf m = r ->
  match r with
  | Ok m' =>
      nodes m' = nodes m /\
      Forall (fun kv =>
                (kv.2 <> [] -> is_Some (find_from 0 (nodes m) kv.1.2)) /\
                Forall (fun end_name =>
                          resolves_to (nodes m) end_name
                            (fun n => kind n = LymphNodeLevel)) kv.2) suf
  | Raise err => err = TypeError
  end.
Proof.
  induction suf as [ | kv suf IH]; intros m r <-; cbn [init_edges]; [by split | ].
  pose proof (init_edges_of_inv kv m _ eq_refl) as H1.
  destruct (init_edges_of kv m) as [m1 | err]; [ | done].
  destruct H1 as [Hs [Hn Hr]]. cbn [mbind except_bind].
  pose proof (IH m1 _ eq_refl) as H2.
  destruct (init_edges suf m1) as [m2 | err]; [ | done].
  destruct H2 as [Hn2 Hr2]. rewrite Hn in Hn2, Hr2.
  split; [done | ]. by constructor.
Qed.

(** A store that resolves the items of a graph makes the graph well-formed. *)
Lemma resolves_well_formed g (s : Z) (al : list Z) :
  NoDup (map (fun kv => kv.1.2) g) ->
  Forall (fun kv =>
            (kv.2 <> [] ->
             is_Some (find_from 0 (nodes (constructed (D := D) g s al)) kv.1.2)) /\
            Forall (fun end_name =>
                      resolves_to (nodes (constructed (D := D) g s al)) end_name
                        (fun n => kind n = LymphNodeLevel)) kv.2) g ->
  well_formed g.
Proof.
  intros Hnd Hres. unfold well_formed. apply Forall_forall.
  intros [[kd nm] ends] Hin.
  pose proof (proj1 (Forall_forall _ _) Hres _ Hin) as [Hstart Hends].
  cbn [fst snd] in *. split.
  - intros Hne. destruct (Hstart Hne) as [i Hi].
    assert (Hnm : nm ∈ map name (nodes (constructed (D := D) g s al))).
    { destruct (decide (nm ∈ map name (nodes (constructed (D := D) g s al))))
        as [H | H]; [done | ].
      apply (find_from_None _ _ 0%nat) in H. congruence. }
    rewrite constructed_nodes, elem_of_app in Hnm.
    destruct Hnm as [H | H]; apply elem_of_keys_of_kind in H as [ends' H];
      pose proof (NoDup_fmap_unique (fun kv => kv.1.2) g _ _ Hnd Hin H eq_refl) as Heq;
      injection Heq as -> _; auto.
  - eapply Forall_impl; [exact Hends | ]. intros end_name Hend. cbn beta in Hend.
    apply resolves_to_inv in Hend as [n [Hn [Hname Hk]]].
    unfold nodes, constructed in Hn. cbn [tumors lnls] in Hn.
    apply elem_of_app in Hn as [Hn | Hn]; apply list_elem_of_fmap in Hn as [nm' [-> Hn]];
      [discriminate Hk | ]. cbn in Hname. by subst.
Qed.

(** What is known of a model that the constructor has returned. *)
Lemma init_ok g (tumor_state : option Z) (al : list Z) m :
  __init__ g tumor_state (Some al) = Ok m ->
  exists s,
    match tumor_state with Some s' => s' = s | None => last al = Some s end /\
    NoDup (map (fun kv => kv.1.2) g) /\
    well_formed g /\
    m = constructed g s al.
Proof.
  intros H. pose proof H as H'. revert H'. unfold __init__ at 1. cbv zeta.
  change (default [0; 1] (Some al)) with al.
  destruct (match tumor_state with
            | Some s0 => Ok s0
            | None => match last al with
                      | Some s0 => Ok s0
                      | None => Raise IndexError
                      end
            end) as [s | ] eqn:Es; [ | discriminate].
  cbn [mbind except_bind]. unfold check_unique_names.
  destruct (decide (NoDup (map (fun kv => kv.1.2) g))) as [Hnd | ]; [ | discriminate].
  cbn [mbind except_bind]. rewrite init_nodes_spec. cbn [fst snd]. intros Hedges.
  assert (Hs : match tumor_state with Some s' => s' = s | None => last al = Some s end).
  { destruct tumor_state as [s' | ]; [by injection Es | ].
    destruct (last al); [by injection Es as -> | discriminate]. }
  apply init_edges_inv in Hedges as [_ Hres].
  assert (Hwf : well_formed g) by (by apply (resolves_well_formed g s al)).
  exists s. repeat split; try done.
  rewrite (init_spec g tumor_state al s Hs Hnd Hwf) in H. by injection H.
Qed.

(** X15: for a graph with unique names the constructor succeeds exactly when
    the graph is well-formed: every key that has ends is a tumor or a lymph
    node level, and every end is the name of a lymph node level of the graph.
    It then returns the model of the graph; otherwise it raises [TypeError]. *)
Theorem init_accepts g (tumor_state : option Z) (al : list Z) (s : Z) :
  match tumor_state with Some s' => s' = s | None => last al = Some s end ->
  NoDup (map (fun kv => kv.1.2) g) ->
  (well_formed g ->
   __init__ g tumor_state (Some al) = Ok (constructed (D := D) g s al)) /\
  (~ well_formed g ->
   __init__ (D := D) g tumor_state (Some al) = Raise TypeError).
Proof.
  intros Hs Hnd. split; [by apply init_spec | ]. intros Hwf.
  destruct (__init__ (D := D) g tumor_state (Some al)) as [m | err] eqn:E.
  - apply init_ok in E as [s' [_ [_ [H _]]]]. by destruct Hwf.
  - revert E. unfold __init__. cbv zeta.
    change (default [0; 1] (Some al)) with al.
    assert (Hts : match tumor_state with
                  | Some s0 => Ok s0
                  | None => match last al with
                            | Some s0 => Ok s0
                            | None => Raise IndexError
                            end
                  end = Ok s).
    { destruct tumor_state; [by rewrite Hs | by rewrite Hs]. }
    rewrite Hts. cbn [mbind except_bind].
    unfold check_unique_names. rewrite decide_True by done.
    cbn [mbind except_bind]. intros E.
    apply init_edges_inv in E. by rewrite E.
Qed.

Lemma ends_of_kind_cons (kind : string) kv g :
  ends_of_kind kind (kv :: g)
  = ((if decide (kv.1.1 = kind) then length kv.2 else 0) + ends_of_kind kind g)%nat.
Proof.
  unfold ends_of_kind. rewrite filter_cons. by destruct (decide (kv.1.1 = kind)).
Qed.

Lemma length_edges_of_kind ns (kind : string) g :
  length (edges_of_kind ns kind g) = ends_of_kind kind g.
Proof.
  induction g as [ | kv g IH]; [done | ].
  rewrite edges_of_kind_cons, ends_of_kind_cons, length_app, IH.
  destruct (decide (kv.1.1 = kind)); [by rewrite length_map | done].
Qed.

Lemma edges_of_kind_new ns (kind : string) g :
  Forall (fun e => spread_prob e = 0%Q /\ micro_mod e = 1%Q) (edges_of_kind ns kind g).
Proof.
  unfold edges_of_kind. apply Forall_concat, Forall_map, Forall_forall.
  intros kv _. by apply Forall_map, Forall_forall.
Qed.

(** X16: a model that the constructor returns has one tumor per tumor key of
    the graph and one lymph node level per key of a level, one edge per end of
    a key in the list of its kind, one growth edge per level if the levels have
    three states and none otherwise; every edge has the spread probability 0
    and the modifier 1, and there are no distributions, modalities or data. *)
Theorem init_counts g (tumor_state : option Z) (al : list Z) m :
  __init__ g tumor_state (Some al) = Ok m ->
  length (tumors m) = length (keys_of_kind "tumor" g) /\
  length (lnls m) = length (keys_of_kind "lnl" g) /\
  length (tumor_edges m) = ends_of_kind "tumor" g /\
  length (lnl_edges m) = ends_of_kind "lnl" g /\
  length (growth_edges m)
  = (if decide (length al = 3%nat) then length (lnls m) else 0%nat) /\
  Forall (fun e => spread_prob e = 0%Q /\ micro_mod e = 1%Q) (edges m) /\
  diag_time_dists m = [] /\ modalities m = [] /\
  _diagnose_matrices m = None /\ _patient_data m = None.
Proof.
  intros H. apply init_ok in H as [s [_ [_ [_ ->]]]].
  unfold constructed, edges. cbn.
  rewrite !length_map, !length_edges_of_kind.
  repeat split; try done.
  - destruct (decide (length al = 3%nat)); [ | done].
    unfold growth_edges_of. by rewrite length_map.
  - rewrite !Forall_app. split; [apply edges_of_kind_new | ].
    split; [apply edges_of_kind_new | ].
    destruct (decide (length al = 3%nat)); [ | done].
    unfold growth_edges_of. by apply Forall_map, Forall_forall.
Qed.

End Construction.

(** The chain [T -> II -> III] is well-formed; with an edge from [II] back to
    the tumor it is not. *)
Lemma init_accepts_S2 :
  Unilateral.__init__ Examples.S2_graph None (Some [0; 1; 2])
  = Ok (constructed (D := Examples.Distribution) Examples.S2_graph 2 [0; 1; 2]) /\
  Unilateral.__init__ (D := Examples.Distribution)
    [(("tumor", "T"), ["II"]); (("lnl", "II"), ["T"])] None (Some [0; 1; 2])
  = Raise TypeError.
Proof.
  split.
  - assert (Hnd : NoDup (map (fun kv => kv.1.2) Examples.S2_graph)).
    { vm_compute. repeat constructor; rewrite ?elem_of_cons, ?elem_of_nil;
        intros H; repeat (destruct H as [H | H]; try discriminate H); done. }
    assert (Hwf : well_formed Examples.S2_graph).
    { repeat constructor; cbn; auto;
        apply elem_of_keys_of_kind; eexists; rewrite !elem_of_cons; auto. }
    exact (proj1 (init_accepts Examples.S2_graph None [0; 1; 2] 2 eq_refl Hnd) Hwf).
  - set (g := [(("tumor", "T"), ["II"]); (("lnl", "II"), ["T"])]).
    assert (Hnd : NoDup (map (fun kv => kv.1.2) g)).
    { vm_compute. repeat constructor; rewrite ?elem_of_cons, ?elem_of_nil;
        intros H; repeat (destruct H as [H | H]; try discriminate H); done. }
    assert (Hwf : ~ well_formed g).
    { intros H. apply Forall_cons in H as [_ H]. apply Forall_cons in H as [[_ H] _].
      apply Forall_cons in H as [H _]. apply elem_of_keys_of_kind in H as [ends H].
      unfold g in H. rewrite !elem_of_cons, elem_of_nil in H.
      destruct H as [H | [H | H]]; [discriminate H | discriminate H | done]. }
    exact (proj2 (init_accepts g None [0; 1; 2] 2 eq_refl Hnd) Hwf).
Defined.

Lemma init_counts_S2 :
  let m := Examples.S2_trinary in
  length (Unilateral.tumors m) = 1%nat /\
  length (Unilateral.lnls m) = 2%nat /\
  length (Unilateral.tumor_edges m) = 1%nat /\
  length (Unilateral.lnl_edges m) = 1%nat /\
  length (Unilateral.growth_edges m) = 2%nat /\
  Forall (fun e => Edge.spread_prob e = 0%Q /\ Edge.micro_mod e = 1%Q)
         (Unilateral.edges m) /\
  Unilateral.diag_time_dists m = [] /\ Unilateral.modalities m = [] /\
  Unilateral._diagnose_matrices m = None /\ Unilateral._patient_data m = None.
Proof.
  exact (init_counts Examples.S2_graph None [0; 1; 2] Examples.S2_trinary eq_refl).
Defined.

(** ** Inspection of a constructed model *)

Section InspectionFacts.
Import Edge Unilateral.
Context {D : Type}.
Implicit Types (m : Unilateral D) (ns : list GraphNode) (nm : string)
  (g : list ((string * string) * list string))
  (kv : (string * string) * list string).

(** The set of the answers of the levels has one element. *)
Lemma single_answer (f : GraphNode -> bool) (l : list GraphNode) (b : bool) :
  (let res : gset bool := list_to_set (map f l) in
   if decide (size res = 1%nat) then head (elements res) else None) = Some b
  <-> l <> [] /\ Forall (fun n => f n = b) l.
Proof.
  cbv zeta. set (res := list_to_set (map f l) : gset bool).
  assert (Hres : forall x, x ∈ res <-> exists n, n ∈ l /\ f n = x).
  { intros x. unfold res. rewrite elem_of_list_to_set.
    change (map f l) with (f <$> l). rewrite list_elem_of_fmap.
    split; intros [n [H1 H2]]; exists n; by split. }
  split.
  - destruct (decide (size res = 1%nat)) as [Hsize | ]; [ | discriminate].
    destruct (size_1_elem_of res Hsize) as [x Hx].
    apply leibniz_equiv in Hx. rewrite Hx, elements_singleton. cbn.
    intros [= ->]. split.
    + intros ->. unfold res in Hx. cbn in Hx.
      assert (H : b ∈ (∅ : gset bool)) by (rewrite Hx; by apply elem_of_singleton).
      by apply elem_of_empty in H.
    + apply Forall_forall. intros n Hn.
      assert (H : f n ∈ res) by (apply Hres; by exists n).
      rewrite Hx in H. by apply elem_of_singleton in H.
  - intros [Hne Hall].
    assert (Hx : res = {[b]}).
    { apply set_eq. intros x. rewrite Hres, elem_of_singleton. split.
      - intros [n [Hn <-]]. by apply (proj1 (Forall_forall _ _) Hall).
      - intros ->. destruct l as [ | n l]; [done | ]. exists n.
        split; [apply elem_of_cons; by left | ].
        apply (proj1 (Forall_forall _ _) Hall). apply elem_of_cons. by left. }
    rewrite Hx, size_singleton, decide_True by done.
    by rewrite elements_singleton.
Qed.

(** X19: [is_binary] and [is_trinary] of a model answer for all its lymph node
    levels at once: the answer is [b] exactly when there is a level and all
    levels answer [b]; without a level, or with levels that disagree, the
    [RuntimeError] is raised.  A constructed model with a level answers by the
    number of the allowed states. *)
Theorem is_binary_of_levels m (b : bool) :
  (is_binary_of m = Some b <->
   lnls m <> [] /\ Forall (fun n => is_binary n = b) (lnls m)) /\
  (is_trinary_of m = Some b <->
   lnls m <> [] /\ Forall (fun n => is_trinary n = b) (lnls m)) /\
  (lnls m = [] -> is_binary_of m = None /\ is_trinary_of m = None) /\
  (forall g (tumor_state : option Z) (al : list Z),
     __init__ g tumor_state (Some al) = Ok m -> lnls m <> [] ->
     is_binary_of m = Some (bool_decide (length al = 2%nat)) /\
     is_trinary_of m = Some (bool_decide (length al = 3%nat))).
Proof.
  split; [apply single_answer | ]. split; [apply single_answer | ].
  split; [intros Hnil; unfold is_binary_of, is_trinary_of; by rewrite Hnil | ].
  intros g tumor_state al H Hne.
  apply init_ok in H as [s [_ [_ [_ ->]]]].
  split; apply single_answer; (split; [done | ]); unfold constructed; cbn [lnls];
    by apply Forall_map, Forall_forall.
Qed.

Section Printing.
Context {repr : Repr}.

(** X18: [print_info] reads the first growth edge and the first edge between
    lymph node levels: it raises [IndexError] exactly when the model lacks one
    of the two, as does every constructed model whose levels do not have three
    states. *)
Theorem print_info_needs_edges m :
  (print_info m = Raise IndexError <-> growth_edges m = [] \/ lnl_edges m = []) /\
  (forall g (tumor_state : option Z) (al : list Z),
     __init__ g tumor_state (Some al) = Ok m -> length al <> 3%nat ->
     print_info m = Raise IndexError).
Proof.
  assert (Hiff : print_info m = Raise IndexError <->
                 growth_edges m = [] \/ lnl_edges m = []).
  { unfold print_info. cbv zeta. rewrite !getitem_zero.
    destruct (growth_edges m) as [ | ge ges]; [by split; [left | ] | ].
    destruct (lnl_edges m) as [ | le les]; [by split; [right | ] | ].
    cbn [mbind except_bind]. split; [discriminate | by intros [H | H]]. }
  split; [done | ]. intros g tumor_state al H Hal.
  apply Hiff. left. apply init_ok in H as [s [_ [_ [_ ->]]]].
  unfold constructed. cbn [growth_edges]. by rewrite decide_False.
Qed.

End Printing.

(** *** The graph of a constructed model *)

Lemma pdict_get_set {A : Type} (k k' : string * string) (v : A)
    (d : list ((string * string) * A)) :
  pdict_get k (pdict_set k' v d)
  = if decide (k = k') then Some v else pdict_get k d.
Proof.
  induction d as [ | [k0 v0] d IH]; cbn [pdict_set pdict_get].
  - by destruct (decide (k = k')).
  - destruct (decide (k' = k0)) as [-> | Hne]; cbn [pdict_get].
    + by destruct (decide (k = k0)).
    + rewrite IH. destruct (decide (k = k0)) as [-> | ]; [ | done].
      by rewrite decide_False.
Qed.

Lemma foldl_keep {A B : Type} (key : B -> string * string) (val : B -> A)
    (k : string * string) (items : list B) :
  k ∉ map key items ->
  forall acc : option A,
    foldl (fun acc y => if decide (k = key y) then Some (val y) else acc) acc items
    = acc.
Proof.
  induction items as [ | y items IH]; intros Hk acc; cbn [foldl]; [done | ].
  cbn [map] in Hk. apply not_elem_of_cons in Hk as [Hy Hk].
  rewrite decide_False by done. by apply IH.
Qed.

Lemma foldl_last_unique {A B : Type} (key : B -> string * string) (val : B -> A)
    (k : string * string) (items : list B) (x : B) :
  NoDup (map key items) -> x ∈ items -> key x = k ->
  forall acc : option A,
    foldl (fun acc y => if decide (k = key y) then Some (val y) else acc) acc items
    = Some (val x).
Proof.
  induction items as [ | y items IH]; intros Hnd Hx Hk acc;
    [by apply elem_of_nil in Hx | ].
  cbn [map] in Hnd. apply NoDup_cons in Hnd as [Hy Hnd]. cbn [foldl].
  apply elem_of_cons in Hx as [-> | Hx]; [ | by apply IH].
  rewrite decide_True by done. apply foldl_keep. by rewrite <- Hk.
Qed.

Lemma pdict_get_fill {A B : Type} (key : B -> string * string) (val : B -> A)
    (items : list B) (d : list ((string * string) * A)) (k : string * string)
    (x : B) :
  NoDup (map key items) -> x ∈ items -> key x = k ->
  pdict_get k (foldl (fun r y => pdict_set (key y) (val y) r) d items)
  = Some (val x).
Proof.
  intros Hnd Hx Hk.
  assert (Hswap : forall d0,
            pdict_get k (foldl (fun r y => pdict_set (key y) (val y) r) d0 items)
            = foldl (fun acc y => if decide (k = key y) then Some (val y) else acc)
                    (pdict_get k d0) items).
  { clear. induction items as [ | w items IHw]; intros d0; cbn [foldl]; [done | ].
    by rewrite IHw, pdict_get_set. }
  rewrite Hswap. by apply foldl_last_unique.
Qed.

Lemma elem_of_concat_2 {A : Type} (x : A) (l : list A) (ls : list (list A)) :
  x ∈ l -> l ∈ ls -> x ∈ concat ls.
Proof.
  intros Hx. induction ls as [ | l' ls IH]; intros Hl; [by apply elem_of_nil in Hl | ].
  cbn [concat]. apply elem_of_app. apply elem_of_cons in Hl as [-> | Hl]; auto.
Qed.

Lemma elem_of_edges_of_kind ns (kind : string) g (e : Edge) :
  e ∈ edges_of_kind ns kind g <->
  exists kv end_name,
    kv ∈ g /\ kv.1.1 = kind /\ end_name ∈ kv.2 /\
    e = mkEdge (position ns kv.1.2) (position ns end_name) 1 0.
Proof.
  unfold edges_of_kind. split.
  - intros Hin. apply elem_of_concat in Hin as [es [He Hes]].
    apply list_elem_of_fmap in Hes as [kv [-> Hkv]].
    apply list_elem_of_filter in Hkv as [Hk Hkv].
    apply list_elem_of_fmap in He as [end_name [-> Hend]].
    by exists kv, end_name.
  - intros [kv [end_name [Hkv [Hk [Hend ->]]]]].
    apply (elem_of_concat_2 _
             (map (fun end_name =>
                     mkEdge (position ns kv.1.2) (position ns end_name) 1 0) kv.2)).
    + apply list_elem_of_fmap. by exists end_name.
    + apply list_elem_of_fmap. exists kv. split; [done | ].
      by apply list_elem_of_filter.
Qed.

(** In a store with unique names a name that is there is found at the position
    of the node that bears it. *)
Lemma position_name ns nm :
  nm ∈ map name ns ->
  exists n, ns !! position ns nm = Some n /\ name n = nm.
Proof.
  intros Hin. unfold position.
  destruct (find_from 0 ns nm) as [i | ] eqn:E.
  - apply find_from_Some in E as [j [n [-> [Hj [Hn _]]]]]. by exists n.
  - by apply find_from_None in E.
Qed.

Lemma position_inj ns nm nm' :
  nm ∈ map name ns -> nm' ∈ map name ns ->
  position ns nm = position ns nm' -> nm = nm'.
Proof.
  intros H H' Heq.
  destruct (position_name ns nm H) as [n [Hn <-]].
  destruct (position_name ns nm' H') as [n' [Hn' <-]].
  rewrite Heq in Hn. congruence.
Qed.

(** X17: the graph that a constructed model reports is the graph it was
    constructed from: under the kind and the name of a tumor or of a lymph node
    level it holds the set of the ends of that key, with the name of the level
    itself added when the levels have three states, because the growth edge of
    a level leads from the level to itself. *)
Theorem graph_round_trip g (tumor_state : option Z) (al : list Z) m
    (kd nm : string) (ends : list string) :
  __init__ g tumor_state (Some al) = Ok m ->
  ((kd, nm), ends) ∈ g ->
  kd = "tumor" \/ kd = "lnl" ->
  pdict_get (kd, nm) (graph m)
  = Some (list_to_set ends
          ∪ (if decide (kd = "lnl" /\ length al = 3%nat) then {[nm]} else ∅)).
Proof.
  intros H Hin Hkd. apply init_ok in H as [s [_ [Hnd [Hwf ->]]]].
  set (m := constructed (D := D) g s al).
  set (ns := nodes m).
  assert (Hnames : map name ns = keys_of_kind "tumor" g ++ keys_of_kind "lnl" g)
    by apply constructed_nodes.
  assert (Hns : NoDup (map name ns)).
  { rewrite Hnames. by apply keys_of_kind_NoDup. }
  (* the names of the keys and of the ends are names of the store *)
  assert (Hkey : forall kv, kv ∈ g -> kv.1.1 = "tumor" \/ kv.1.1 = "lnl" ->
            kv.1.2 ∈ map name ns).
  { intros [[kd' nm'] ends'] Hkv [Hk | Hk]; cbn in Hk; subst kd'; rewrite Hnames;
      apply elem_of_app; [left | right]; apply elem_of_keys_of_kind; by exists ends'. }
  assert (Hend : forall kv end_name, kv ∈ g -> end_name ∈ kv.2 ->
            end_name ∈ map name ns).
  { intros kv end_name Hkv He.
    pose proof (proj1 (Forall_forall _ _) Hwf _ Hkv) as [_ H].
    rewrite Hnames. apply elem_of_app. right.
    by apply (proj1 (Forall_forall _ _) H). }
  assert (Hnm : nm ∈ map name ns) by (by apply (Hkey ((kd, nm), ends))).
  destruct (position_name ns nm Hnm) as [n [Hn Hname]].
  (* the node of the key and its entry *)
  assert (Hkind : (match kind n with Tumor => "tumor" | LymphNodeLevel => "lnl" end)
                  = kd).
  { apply list_elem_of_lookup_2 in Hn. unfold ns, nodes, m, constructed in Hn.
    cbn [tumors lnls] in Hn.
    apply elem_of_app in Hn as [Hn | Hn];
      apply list_elem_of_fmap in Hn as [nm' [-> Hnm']]; cbn in Hname; subst nm';
      apply elem_of_keys_of_kind in Hnm' as [ends' H'];
      pose proof (NoDup_fmap_unique (fun kv => kv.1.2) g _ _ Hnd Hin H' eq_refl) as Heq;
      by injection Heq as -> _. }
  unfold graph. fold ns.
  rewrite (pdict_get_fill
             (fun inode : nat * GraphNode =>
                (match kind inode.2 with Tumor => "tumor" | LymphNodeLevel => "lnl" end,
                 name inode.2))
             _ (imap pair ns) [] (kd, nm) (position ns nm, n)).
  - f_equal. cbn [fst]. apply set_eq. intros x.
    rewrite elem_of_list_to_set, elem_of_union, elem_of_list_to_set.
    change (map (fun o => name (nodes m !!! end_ o)) (out m (position ns nm)))
      with ((fun o => name (ns !!! end_ o)) <$> out m (position ns nm)).
    rewrite list_elem_of_fmap. unfold out, edges. split.
    + intros [e [-> He]]. apply list_elem_of_filter in He as [Hstart He].
      rewrite !elem_of_app in He. destruct He as [He | [He | He]].
      * apply elem_of_edges_of_kind in He as [kv [end_name [Hkv [Hk [He ->]]]]].
        cbn [start end_] in *. left.
        assert (kv.1.2 = nm) as Heq.
        { apply (position_inj ns); [apply Hkey; auto | done | done]. }
        destruct kv as [[kd' nm'] ends']. cbn in Heq, He. subst nm'.
        pose proof (NoDup_fmap_unique (fun kv => kv.1.2) g _ _ Hnd Hin Hkv eq_refl) as Hq.
        injection Hq as _ ->.
        destruct (position_name ns end_name (Hend _ _ Hkv He)) as [n' [Hn' <-]].
        by rewrite (list_lookup_total_correct _ _ _ Hn').
      * apply elem_of_edges_of_kind in He as [kv [end_name [Hkv [Hk [He ->]]]]].
        cbn [start end_] in *. left.
        assert (kv.1.2 = nm) as Heq.
        { apply (position_inj ns); [apply Hkey; auto | done | done]. }
        destruct kv as [[kd' nm'] ends']. cbn in Heq, He. subst nm'.
        pose proof (NoDup_fmap_unique (fun kv => kv.1.2) g _ _ Hnd Hin Hkv eq_refl) as Hq.
        injection Hq as _ ->.
        destruct (position_name ns end_name (Hend _ _ Hkv He)) as [n' [Hn' <-]].
        by rewrite (list_lookup_total_correct _ _ _ Hn').
      * right. unfold m, constructed in He. cbn [growth_edges] in He.
        destruct (decide (length al = 3%nat)) as [H3 | H3];
          [ | by apply elem_of_nil in He].
        unfold growth_edges_of in He.
        apply list_elem_of_fmap in He as [nm' [-> Hnm']]. cbn [start end_] in *.
        assert (nm' = nm) as ->.
        { apply (position_inj ns); [ | done | done].
          rewrite Hnames. apply elem_of_app. by right. }
        apply elem_of_keys_of_kind in Hnm' as [ends' H'].
        pose proof (NoDup_fmap_unique (fun kv => kv.1.2) g _ _ Hnd Hin H' eq_refl) as Hq.
        injection Hq as -> _. rewrite decide_True by done.
        rewrite (list_lookup_total_correct _ _ _ Hn), Hname.
        by apply elem_of_singleton.
    + intros [Hx | Hx].
      * exists (mkEdge (position ns nm) (position ns x) 1 0). cbn [end_]. split.
        { destruct (position_name ns x (Hend _ _ Hin Hx)) as [n' [Hn' <-]].
          by rewrite (list_lookup_total_correct _ _ _ Hn'). }
        apply list_elem_of_filter. split; [done | ].
        rewrite !elem_of_app. destruct Hkd as [-> | ->]; [left | right; left];
          apply elem_of_edges_of_kind;
          [by exists (("tumor", nm), ends), x | by exists (("lnl", nm), ends), x].
      * destruct (decide (kd = "lnl" /\ length al = 3%nat)) as [[-> H3] | ];
          [ | by apply elem_of_empty in Hx].
        apply elem_of_singleton in Hx as ->.
        exists (mkEdge (position ns nm) (position ns nm) 1 0). cbn [end_]. split.
        { by rewrite (list_lookup_total_correct _ _ _ Hn). }
        apply list_elem_of_filter. split; [done | ].
        rewrite !elem_of_app. right. right.
        unfold m, constructed. cbn [growth_edges]. rewrite decide_True by done.
        unfold growth_edges_of. apply list_elem_of_fmap. exists nm.
        split; [done | ]. apply elem_of_keys_of_kind. by exists ends.
  - (* the keys of the entries are pairwise different *)
    apply (NoDup_fmap_1 snd). rewrite map_map. cbn [snd].
    assert (Himap : map (fun x : nat * GraphNode => name x.2) (imap pair ns)
                    = map name ns).
    { clear. generalize 0%nat as k.
      assert (Hgen : forall (l : list GraphNode) (f : nat -> nat),
                map (fun x : nat * GraphNode => name x.2)
                    (imap (fun i n => (f i, n)) l) = map name l).
      { induction l as [ | n l IH]; intros f; cbn; [done | ].
        f_equal. apply (IH (f ∘ S)). }
      intros _. apply (Hgen ns id). }
    by rewrite Himap.
  - apply elem_of_lookup_imap. by exists (position ns nm), n.
  - cbn [snd]. by rewrite Hkind, Hname.
Qed.

End InspectionFacts.

(** The trinary chain [T -> II -> III] reports the level [III] and the level
    [II] itself under the key of the level [II]. *)
Lemma graph_round_trip_S2 :
  pdict_get ("lnl", "II") (Unilateral.graph Examples.S2_trinary)
  = Some (list_to_set ["III"]
          ∪ (if decide ("lnl" = "lnl" /\ length [0; 1; 2] = 3%nat)
             then {["II"]} else ∅)).
Proof.
  assert (Hin : (("lnl", "II"), ["III"]) ∈ Examples.S2_graph).
  { unfold Examples.S2_graph. rewrite !elem_of_cons. auto. }
  exact (graph_round_trip Examples.S2_graph None [0; 1; 2] Examples.S2_trinary
           "lnl" "II" ["III"] eq_refl Hin (or_intror eq_refl)).
Defined.

(** ** The list of the hidden states *)

Section HiddenStates.
Import Edge Unilateral.
Context {D : Type} {distributions : DistributionAPI D} {matrices : MatrixAPI}.
Implicit Types (m : Unilateral D).

(** X20: a model without a lymph node level has no allowed states to ask for:
    [allowed_states] raises [IndexError], and with it the list of the hidden
    states, the evolution and the risk, which leaves the model as it is. *)
Theorem no_levels m :
  lnls m = [] ->
  allowed_states_of m = Raise IndexError /\
  state_list m = Raise IndexError /\
  (forall (t_first : nat) (t_last : option nat),
     _evolve t_first t_last m = Raise IndexError) /\
  (forall involvement given_diagnoses (stage mode : string),
     risk involvement None given_diagnoses stage mode m = (Raise IndexError, m)).
Proof.
  intros Hnil.
  assert (Ha : allowed_states_of m = Raise IndexError)
    by (unfold allowed_states_of; by rewrite Hnil).
  assert (Hsl : state_list m = Raise IndexError)
    by (unfold state_list; by rewrite Ha).
  split; [done | ]. split; [done | ]. split.
  - intros t_first t_last. unfold _evolve. by rewrite Hsl.
  - intros involvement given_diagnoses stage mode. unfold risk.
    erewrite bind_ok; [ | reflexivity].
    erewrite bind_raise; [reflexivity | ].
    unfold for_states. erewrite bind_ok; [ | reflexivity].
    erewrite bind_raise; [reflexivity | ]. unfold lift. by rewrite Hsl.
Qed.

Lemma map_eq_elem {A B : Type} (f h : A -> B) (l : list A) (x : A) :
  map f l = map h l -> x ∈ l -> f x = h x.
Proof.
  induction l as [ | y l IH]; intros Heq Hx; [by apply elem_of_nil in Hx | ].
  injection Heq as Hy Hl. apply elem_of_cons in Hx as [-> | Hx]; auto.
Qed.

(** Two numbers with the same [n] last digits in base [k] agree modulo
    [k ^ n]. *)
Lemma digits_mod (k n i i' : nat) :
  (forall j : nat, (j < n)%nat -> ((i / k ^ j) mod k = (i' / k ^ j) mod k)%nat) ->
  (i mod k ^ n = i' mod k ^ n)%nat.
Proof.
  induction n as [ | n IH]; intros Hd.
  - by rewrite !Nat.pow_0_r, !Nat.mod_1_r.
  - rewrite Nat.pow_succ_r', (Nat.mul_comm k (k ^ n)), !Nat.Div0.mod_mul_r.
    rewrite IH by (intros j Hj; apply Hd; lia).
    by rewrite (Hd n) by lia.
Qed.

Lemma change_base_inj (k n i i' : nat) :
  (i < k ^ n)%nat -> (i' < k ^ n)%nat ->
  change_base i k n = change_base i' k n -> i = i'.
Proof.
  intros Hi Hi' Heq. unfold change_base in Heq.
  rewrite <- (Nat.mod_small i (k ^ n)), <- (Nat.mod_small i' (k ^ n)) by done.
  apply digits_mod. intros j Hj.
  apply Nat2Z.inj.
  apply (map_eq_elem (fun j => Z.of_nat ((i / k ^ j) mod k))
                     (fun j => Z.of_nat ((i' / k ^ j) mod k))
                     (rev (seq 0 n)) j Heq).
  rewrite rev_alt. apply (proj2 (elem_of_reverse j (seq 0 n))), elem_of_seq. lia.
Qed.

Lemma change_base_zero (k n : nat) :
  (0 < k)%nat -> change_base 0 k n = repeat 0 n.
Proof.
  intros Hk. unfold change_base.
  assert (H : forall l : list nat,
            map (fun j => Z.of_nat ((0 / k ^ j) mod k)) l = repeat 0 (length l)).
  { induction l as [ | j l IH]; [done | ]. cbn [map length repeat].
    rewrite IH. f_equal. rewrite Nat.Div0.div_0_l, Nat.Div0.mod_0_l. done. }
  by rewrite H, length_rev, length_seq.
Qed.

(** X21: in a model whose lymph node levels all have the [k] allowed states
    [0, ..., k-1], the list of the hidden states has [k ^ n] rows for [n]
    levels; every row assigns one allowed state to every level, no two rows are
    equal, and the first row is the state in which every level is healthy. *)
Theorem state_list_complete m (k : nat) :
  lnls m <> [] -> (0 < k)%nat ->
  Forall (fun n => allowed_states n = map Z.of_nat (seq 0 k)) (lnls m) ->
  exists sl,
    state_list m = Ok sl /\
    length sl = (k ^ length (lnls m))%nat /\
    Forall (fun st => Forall2 (fun s n => s ∈ allowed_states n) st (lnls m)) sl /\
    NoDup sl /\
    sl !! 0%nat = Some (repeat 0 (length (lnls m))).
Proof.
  intros Hne Hk Hal.
  destruct (state_list_spec m) as [sl [Hsl [_ Hv]]].
  { split; [done | ]. by exists k. }
  exists sl. split; [done | ]. split; [ | split; [done | ]].
  all: unfold state_list, allowed_states_of in Hsl;
    destruct (lnls m) as [ | n0 l] eqn:El; [done | ];
    assert (Hn0 : allowed_states n0 = map Z.of_nat (seq 0 k)) by (by inversion Hal);
    cbn [mbind except_bind] in Hsl; rewrite Hn0, length_map, length_seq in Hsl;
    injection Hsl as <-.
  - by rewrite length_map, length_seq.
  - split.
    + apply (NoDup_fmap_2_strong (fun i => change_base i k (length (n0 :: l)))).
      * intros i i' Hi Hi' Heq. apply elem_of_seq in Hi, Hi'.
        apply (change_base_inj k (length (n0 :: l)) i i'); [ | | exact Heq];
          cbn [length]; rewrite Nat.pow_succ_r'; lia.
      * apply NoDup_seq.
    + assert (HN : (k * k ^ length l <> 0)%nat).
      { apply Nat.neq_mul_0. split; [lia | apply Nat.pow_nonzero; lia]. }
      destruct (k * k ^ length l)%nat as [ | N]; [done | ].
      cbn [seq map lookup list_lookup].
      by rewrite change_base_zero.
Qed.

End HiddenStates.

(** A graph with a tumor and no lymph node level. *)
Lemma no_levels_example :
  let m := Examples.unwrap (Unilateral.binary (D := Examples.Distribution)
                              [(("tumor", "T"), [])]) in
  Unilateral.allowed_states_of m = Raise IndexError /\
  Unilateral.state_list m = Raise IndexError /\
  (forall (t_first : nat) (t_last : option nat),
     Unilateral._evolve t_first t_last m = Raise IndexError) /\
  (forall involvement given_diagnoses (stage mode : string),
     Unilateral.risk involvement None given_diagnoses stage mode m
     = (Raise IndexError, m)).
Proof.
  intros m. exact (no_levels m eq_refl).
Defined.

(** The trinary chain [T -> II -> III] has nine hidden states. *)
Lemma state_list_complete_S2 :
  let m := Examples.S2_trinary in
  exists sl,
    Unilateral.state_list m = Ok sl /\
    length sl = (3 ^ length (Unilateral.lnls m))%nat /\
    Forall (fun st => Forall2 (fun s n => s ∈ Edge.allowed_states n) st
                              (Unilateral.lnls m)) sl /\
    NoDup sl /\
    sl !! 0%nat = Some (repeat 0 (length (Unilateral.lnls m))).
Proof.
  intros m.
  assert (Hne : Unilateral.lnls m <> []) by discriminate.
  assert (Hk : (0 < 3)%nat) by lia.
  assert (Hal : Forall (fun n => Edge.allowed_states n = map Z.of_nat (seq 0 3))
                  (Unilateral.lnls m)) by (by repeat constructor).
  exact (state_list_complete m 3 Hne Hk Hal).
Defined.

(** ** More of the evolution *)

Section EvolutionFacts.
Import Edge Unilateral.
Context {D : Type} {matrices : MatrixAPI}.
Implicit Types (m : Unilateral D) (T : list (list Q)) (n t : nat).

Lemma drop_evolve_rows T (t n : nat) : forall s : list Q,
  drop t (evolve_rows T s (t + n)) = evolve_rows T (Nat.iter t (fun v => vec_mat v T) s) n.
Proof.
  induction t as [ | t IH]; intros s; [done | ].
  cbn [Nat.add evolve_rows drop]. rewrite IH. by rewrite Nat.iter_succ_r.
Qed.

Lemma evolve_rows_proper T n : forall s s' : list Q,
  veq s s' -> meq (evolve_rows T s n) (evolve_rows T s' n).
Proof.
  induction n as [ | n IH]; intros s s' Hs; cbn [evolve_rows].
  - by repeat constructor.
  - constructor; [done | ]. apply IH. unfold vec_mat. by apply vec_mat_n_proper.
Qed.

(** X22: a last time before the first is refused with [ValueError]; otherwise
    the evolution from [t_first] to [t_first + n] returns [n + 1] rows, and
    these are the rows of the evolution from 0 to [t_first + n] from the row
    [t_first] on. *)
Theorem evolve_window m (sl : list (list Z)) (t_first n : nat) :
  state_list m = Ok sl ->
  sl <> [] ->
  square (length sl) (transition_matrix m) ->
  (forall t_last : nat, (t_last < t_first)%nat ->
     _evolve t_first (Some t_last) m = Raise ValueError) /\
  exists Pi Pi0,
    _evolve t_first (Some (t_first + n)%nat) m = Ok (inr Pi) /\
    _evolve 0 (Some (t_first + n)%nat) m = Ok (inr Pi0) /\
    length Pi = S n /\
    meq Pi (drop t_first Pi0).
Proof.
  intros Hsl Hne HT.
  assert (Hn : (0 < length sl)%nat) by (destruct sl; [done | cbn; lia]).
  unfold _evolve. rewrite Hsl. cbn [mbind except_bind].
  destruct (decide (length sl = 0%nat)) as [Hz | _]; [lia | ]. split.
  - intros t_last Hlt. by rewrite (proj2 (Nat.ltb_lt _ _) Hlt).
  - rewrite (proj2 (Nat.ltb_ge (t_first + n) t_first)) by lia.
    rewrite (proj2 (Nat.ltb_ge (t_first + n) 0)) by lia.
    replace (t_first + n - t_first)%nat with n by lia.
    rewrite Nat.sub_0_r.
    eexists. eexists. split; [reflexivity | ]. split; [reflexivity | ].
    split; [apply evolve_rows_length | ].
    rewrite drop_evolve_rows.
    apply evolve_rows_proper. symmetry.
    by apply (iter_vec_mat_pow (length sl)).
Qed.

(** *** Distributions *)

Lemma nonneg_zeros n : Forall (fun x => (0 <= x)%Q) (zeros n).
Proof. induction n; cbn [zeros]; constructor; [apply Qle_refl | done]. Qed.

Lemma nonneg_vadd (u v : list Q) :
  Forall (fun x => (0 <= x)%Q) u -> Forall (fun x => (0 <= x)%Q) v ->
  Forall (fun x => (0 <= x)%Q) (vadd u v).
Proof.
  intros Hu. revert v. induction Hu as [ | x u Hx Hu IH]; intros v Hv; [constructor | ].
  destruct Hv as [ | y v Hy Hv]; cbn [vadd]; constructor; [lra | by apply IH].
Qed.

Lemma nonneg_vscale (a : Q) (u : list Q) :
  (0 <= a)%Q -> Forall (fun x => (0 <= x)%Q) u ->
  Forall (fun x => (0 <= x)%Q) (vscale a u).
Proof.
  intros Ha. induction 1 as [ | x u Hx Hu IH]; cbn [vscale]; constructor;
    [by apply Qmult_le_0_compat | done].
Qed.

Lemma nonneg_vec_mat_n n (v : list Q) (M : list (list Q)) :
  Forall (fun x => (0 <= x)%Q) v ->
  Forall (Forall (fun x => (0 <= x)%Q)) M ->
  Forall (fun x => (0 <= x)%Q) (vec_mat_n n v M).
Proof.
  intros Hv. revert M. induction Hv as [ | x v Hx Hv IH]; intros M HM;
    cbn [vec_mat_n]; [apply nonneg_zeros | ].
  destruct HM as [ | r M Hr HM]; [apply nonneg_zeros | ].
  apply nonneg_vadd; [by apply nonneg_vscale | by apply IH].
Qed.

Lemma stochastic_matrix_square n M : stochastic_matrix n M -> square n M.
Proof.
  intros [Hl Hrows]. split; [done | ].
  eapply Forall_impl; [exact Hrows | ]. by intros r [Hr _].
Qed.

Lemma stochastic_matrix_rows n M : stochastic_matrix n M -> row_stochastic M.
Proof.
  intros [_ Hrows]. eapply Forall_impl; [exact Hrows | ]. by intros r [_ [_ Hr]].
Qed.

(** A distribution multiplied into a stochastic matrix is a distribution. *)
Lemma distribution_step n (v : list Q) M :
  (0 < n)%nat -> stochastic_matrix n M -> distribution n v ->
  distribution n (vec_mat v M).
Proof.
  intros Hn HM [Hl [Hpos Hsum]].
  pose proof (stochastic_matrix_square n M HM) as Hsq.
  unfold vec_mat. rewrite (ncols_square n M Hsq Hn). split; [ | split].
  - apply length_vec_mat_n, Hsq.
  - apply nonneg_vec_mat_n; [done | ]. destruct HM as [_ Hrows].
    eapply Forall_impl; [exact Hrows | ]. by intros r [_ [Hr _]].
  - rewrite <- Hsum. apply vsum_vec_mat_stochastic; [apply Hsq | | ].
    + by apply (stochastic_matrix_rows n).
    + destruct HM as [-> _]. lia.
Qed.

Lemma distribution_unit_vec n (i : nat) : (i < n)%nat -> distribution n (unit_vec n i).
Proof.
  intros Hi. split; [apply length_unit_vec | ]. split.
  - unfold unit_vec. apply Forall_map, Forall_forall. intros j _.
    by destruct (i =? j)%nat.
  - unfold unit_vec. rewrite vsum_indicator. cbn [Nat.add].
    by rewrite bool_decide_eq_true_2 by lia.
Qed.

Lemma stochastic_matrix_identity n : stochastic_matrix n (identity n).
Proof.
  split; [apply identity_square | ].
  unfold identity. apply Forall_map, Forall_forall. intros i Hi.
  apply elem_of_seq in Hi. apply distribution_unit_vec. lia.
Qed.

Lemma stochastic_matrix_mul n A B :
  (0 < n)%nat -> stochastic_matrix n A -> stochastic_matrix n B ->
  stochastic_matrix n (mat_mul A B).
Proof.
  intros Hn [HlA HA] HB. unfold mat_mul. split; [by rewrite length_map | ].
  apply Forall_map. eapply Forall_impl; [exact HA | ].
  intros r Hr. by apply distribution_step.
Qed.

Lemma stochastic_matrix_pow n T t :
  (0 < n)%nat -> stochastic_matrix n T -> stochastic_matrix n (mat_pow T t).
Proof.
  intros Hn HT. induction t as [ | t IH]; cbn [mat_pow].
  - destruct HT as [-> _]. apply stochastic_matrix_identity.
  - by apply stochastic_matrix_mul.
Qed.

Lemma evolve_rows_distributions n T k : forall s : list Q,
  (0 < n)%nat -> stochastic_matrix n T -> distribution n s ->
  Forall (distribution n) (evolve_rows T s k).
Proof.
  induction k as [ | k IH]; intros s Hn HT Hs; cbn [evolve_rows].
  - constructor; [done | constructor].
  - constructor; [done | ]. apply IH; try done. by apply distribution_step.
Qed.

(** X23: when the transition matrix is a stochastic matrix over the hidden
    states, everything that the evolution returns is a distribution over the
    hidden states: the vector at a single time, and every row of the matrix
    over a span of times. *)
Theorem evolve_distributions m (sl : list (list Z)) (t_first n : nat) :
  state_list m = Ok sl ->
  sl <> [] ->
  stochastic_matrix (length sl) (transition_matrix m) ->
  exists v Pi,
    _evolve t_first None m = Ok (inl v) /\
    distribution (length sl) v /\
    _evolve t_first (Some (t_first + n)%nat) m = Ok (inr Pi) /\
    Forall (distribution (length sl)) Pi.
Proof.
  intros Hsl Hne HT.
  assert (Hn : (0 < length sl)%nat) by (destruct sl; [done | cbn; lia]).
  unfold _evolve. rewrite Hsl. cbn [mbind except_bind].
  destruct (decide (length sl = 0%nat)) as [Hz | _]; [lia | ].
  rewrite (proj2 (Nat.ltb_ge (t_first + n) t_first)) by lia.
  replace (t_first + n - t_first)%nat with n by lia.
  assert (Hv : distribution (length sl)
                 (vec_mat (unit_vec (length sl) 0)
                          (mat_pow (transition_matrix m) t_first))).
  { apply distribution_step; [done | by apply stochastic_matrix_pow | ].
    by apply distribution_unit_vec. }
  eexists. eexists. split; [reflexivity | ]. split; [exact Hv | ].
  split; [reflexivity | ]. by apply evolve_rows_distributions.
Qed.

End EvolutionFacts.

Lemma evolve_window_S1 :
  (forall t_last : nat, (t_last < 2)%nat ->
     Unilateral._evolve 2 (Some t_last) Examples.S1_model = Raise ValueError) /\
  exists Pi Pi0,
    Unilateral._evolve 2 (Some (2 + 1)%nat) Examples.S1_model = Ok (inr Pi) /\
    Unilateral._evolve 0 (Some (2 + 1)%nat) Examples.S1_model = Ok (inr Pi0) /\
    length Pi = 2%nat /\
    meq Pi (drop 2 Pi0).
Proof.
  assert (Hsl : Unilateral.state_list Examples.S1_model = Ok [[0]; [1]])
    by reflexivity.
  assert (Hne : [[0]; [1]] <> ([] : list (list Z))) by discriminate.
  assert (HT : square 2 (Unilateral.transition_matrix Examples.S1_model))
    by (split; [reflexivity | repeat constructor]).
  exact (evolve_window Examples.S1_model [[0]; [1]] 2 1 Hsl Hne HT).
Defined.

Lemma evolve_distributions_S1 :
  exists v Pi,
    Unilateral._evolve 2 None Examples.S1_model = Ok (inl v) /\
    distribution 2 v /\
    Unilateral._evolve 2 (Some (2 + 1)%nat) Examples.S1_model = Ok (inr Pi) /\
    Forall (distribution 2) Pi.
Proof.
  assert (Hsl : Unilateral.state_list Examples.S1_model = Ok [[0]; [1]])
    by reflexivity.
  assert (Hne : [[0]; [1]] <> ([] : list (list Z))) by discriminate.
  assert (HT : stochastic_matrix 2 (Unilateral.transition_matrix Examples.S1_model)).
  { split; [reflexivity | ].
    repeat constructor; try reflexivity; cbn; by apply Qle_bool_imp_le. }
  exact (evolve_distributions Examples.S1_model [[0]; [1]] 2 1 Hsl Hne HT).
Defined.

(** ** Data, likelihood and risk at their edges *)

Section DataFacts.
Import Edge Unilateral.
Context {D : Type} {distributions : DistributionAPI D} {matrices : MatrixAPI}
  {numpy : Numpy}.
Implicit Types (m : Unilateral D) (data : list Patient) (mode : string) (log : bool).

(** X24: loading an empty table in HMM mode, or any table in a mode that is
    neither "HMM" nor "BN", succeeds without a warning, sets the modalities that
    are given and deletes the stored diagnose matrices; the likelihood of the
    hidden Markov model then raises [AttributeError]. *)
Theorem load_data_drops_matrices m data
    (spsn : option (list (string * list (list Q)))) mode log :
  (spsn = None -> modalities m <> []) ->
  (mode = "HMM" /\ data = []) \/ (mode <> "HMM" /\ mode <> "BN") ->
  let m' := with_diagnose_matrices
              (with_modalities m (default (modalities m) spsn)) None in
  load_data data spsn mode m = (Ok [], m') /\
  diagnose_matrices m' = Raise AttributeError /\
  _likelihood "HMM" log m' = (Raise AttributeError, m').
Proof.
  intros Hmod Hmode m'. split; [ | split].
  - unfold load_data. erewrite bind_ok; [ | reflexivity].
    erewrite bind_ok with (a := ()) (s' := with_modalities m (default (modalities m) spsn)).
    2:{ destruct spsn as [spsn | ]; [reflexivity | ].
        rewrite decide_False by (by apply Hmod). cbn. by destruct m. }
    erewrite bind_ok; [ | reflexivity].
    erewrite bind_ok; [ | reflexivity].
    destruct Hmode as [[-> ->] | [Hh Hb]].
    + rewrite decide_True by done. cbn [map].
      rewrite list_to_set_nil, elements_empty. reflexivity.
    + by rewrite !decide_False by done.
  - by destruct m.
  - rewrite likelihood_hmm_run. by destruct m.
Qed.

(** X25: without diagnostic modalities, given or defined, loading data raises
    [ValueError] and leaves the model as it is; the setter of [patient_data] has
    stored the table by then, and the likelihood called with data raises the
    [ValueError] instead of returning the worst likelihood. *)
Theorem load_data_without_modalities m data mode
    (given_params : option (list (string * Q))) log :
  modalities m = [] ->
  (forall load_mode : string,
     load_data data None load_mode m = (Raise ValueError, m)) /\
  set_patient_data data m = (Raise ValueError, with_patient_data m (Some data)) /\
  likelihood (Some data) given_params log mode m
  = (Raise ValueError, with_patient_data m (Some data)).
Proof.
  intros Hmod.
  assert (Hload : forall (load_mode : string) m0, modalities m0 = [] ->
            load_data data None load_mode m0 = (Raise ValueError, m0)).
  { intros load_mode m0 H0. unfold load_data. erewrite bind_ok; [ | reflexivity].
    erewrite bind_raise; [reflexivity | ]. by rewrite decide_True. }
  assert (Hset : set_patient_data data m
                 = (Raise ValueError, with_patient_data m (Some data))).
  { unfold set_patient_data. erewrite bind_ok; [ | reflexivity].
    erewrite bind_ok; [ | reflexivity]. apply Hload. by destruct m. }
  split; [intros load_mode; by apply Hload | ]. split; [done | ].
  unfold likelihood. erewrite bind_raise; [reflexivity | ].
  erewrite bind_raise; [reflexivity | exact Hset].
Qed.

(** X26: when no T-stage has both a stored diagnose matrix and a distribution
    over diagnose times, the likelihood of the hidden Markov model is the empty
    product, 0 as a logarithm and 1 otherwise, whatever the data are; the model
    is left as it is. *)
Theorem likelihood_no_common_stage m (dm : list (string * list (list Q)))
    (sl : list (list Z)) log :
  _diagnose_matrices m = Some dm ->
  state_list m = Ok sl -> sl <> [] ->
  (forall stage : string,
     stage ∈ dict_keys dm -> stage ∉ dict_keys (diag_time_dists m)) ->
  _likelihood "HMM" log m = (Ok (Finite (if log then 0%Q else 1%Q)), m).
Proof.
  intros Hdm Hsl Hne Hdisjoint. rewrite likelihood_hmm_run.
  unfold diagnose_matrices. rewrite Hdm. cbn [mbind except_bind].
  assert (Hn : (0 < length sl)%nat) by (destruct sl; [done | cbn; lia]).
  unfold evolved_model, _evolve. rewrite Hsl. cbn [mbind except_bind].
  destruct (decide (length sl = 0%nat)) as [Hz | _]; [lia | ].
  rewrite (proj2 (Nat.ltb_ge (max_t m) 0)) by lia. cbn [mbind except_bind].
  assert (Hnone : likelihood_t_stages m dm = []).
  { destruct (likelihood_t_stages m dm) as [ | stage rest] eqn:E; [done | ].
    assert (Hin : stage ∈ likelihood_t_stages m dm) by (rewrite E; left).
    apply likelihood_t_stages_spec in Hin as [H1 H2]. by destruct (Hdisjoint stage). }
  by rewrite Hnone.
Qed.

(** X27: the risk does not catch what the likelihood catches: with parameters
    of which all keys are known and one, addressing an edge, carries a value
    outside the unit interval, the risk raises [ValueError]. *)
Theorem risk_refuses_parameters (kwargs : list (string * Q)) m
    (involvement : option Involvement)
    (given_diagnoses : option (list (string * list (string * option bool))))
    (stage : string) mode :
  (forall x d e, update x d = Raise e -> e = ValueError) ->
  Forall (fun kv => known_key m kv.1) kwargs ->
  Exists (fun kv => addresses_edge m kv.1 /\ in_unit_interval kv.2 = false) kwargs ->
  exists m',
    risk involvement (Some kwargs) given_diagnoses stage mode m
    = (Raise ValueError, m').
Proof.
  intros Hup Hknown Hbad.
  destruct (assign_params_out_of_range kwargs m Hup Hknown Hbad) as [m' Hm'].
  exists m'. unfold risk. erewrite bind_raise; [reflexivity | exact Hm'].
Qed.

Lemma assign_kwarg_unknown (k : string) (v : Q) m :
  ~ known_key m k -> assign_kwarg k v m = (Raise KeyError, m).
Proof.
  intros Hk. unfold assign_kwarg. erewrite bind_ok; [ | reflexivity].
  destruct (dict_mem k (diag_time_dists m)) eqn:Emem.
  { exfalso. apply Hk. left. unfold dict_mem in Emem.
    by apply bool_decide_eq_true_1 in Emem. }
  destruct (decide (k = "growth")) as [-> | _].
  { exfalso. apply Hk. right. by left. }
  destruct (decide (k = "micro_mod")) as [-> | _].
  { exfalso. apply Hk. right. right. by left. }
  destruct (dict_get k (edge_params m)) as [p | ] eqn:Ep; [ | reflexivity].
  exfalso. apply Hk. right. right. right. by exists p.
Qed.

(** X28: a key that is no name of a distribution, no name of an edge parameter
    and none of the two aggregate keys is refused with [KeyError] before
    anything is assigned; the likelihood and the risk let this error pass and
    leave the model as it is. *)
Theorem unknown_parameter_key m (k : string) (v : Q) (rest : list (string * Q))
    log mode (involvement : option Involvement)
    (given_diagnoses : option (list (string * list (string * option bool))))
    (stage : string) :
  ~ known_key m k ->
  assign_params [] ((k, v) :: rest) m = (Raise KeyError, m) /\
  likelihood None (Some ((k, v) :: rest)) log mode m = (Raise KeyError, m) /\
  risk involvement (Some ((k, v) :: rest)) given_diagnoses stage mode m
  = (Raise KeyError, m).
Proof.
  intros Hk.
  assert (Ha : assign_params [] ((k, v) :: rest) m = (Raise KeyError, m)).
  { rewrite assign_params_kwargs. cbn [for_each fst snd].
    erewrite bind_raise; [reflexivity | by apply assign_kwarg_unknown]. }
  split; [done | ]. split.
  - unfold likelihood. erewrite bind_ok; [ | reflexivity].
    unfold likelihood_given. by rewrite Ha.
  - unfold risk. erewrite bind_raise; [reflexivity | exact Ha].
Qed.

End DataFacts.

(** ** The probability of a diagnosis *)

Section DiagnoseFacts.
Import Edge Unilateral.
Context {D : Type}.
Implicit Types (m : Unilateral D).

Lemma foldl_ext_elem {A B : Type} (f g : A -> B -> A) (l : list B) :
  (forall a x, x ∈ l -> f a x = g a x) ->
  forall a, foldl f a l = foldl g a l.
Proof.
  induction l as [ | x l IH]; intros H a; cbn [foldl]; [done | ].
  rewrite (H a x) by left. apply IH. intros a' y Hy. apply H. by right.
Qed.

Lemma dict_get_filter {A : Type} (keys : list string) (k : string)
    (d : list (string * A)) :
  k ∈ keys -> dict_get k (filter (fun kv => kv.1 ∈ keys) d) = dict_get k d.
Proof.
  intros Hk. induction d as [ | [k' x] d IH]; [done | ].
  rewrite filter_cons. cbn [fst dict_get].
  destruct (decide (k' ∈ keys)) as [Hk' | Hk']; cbn [dict_get].
  - destruct (decide (k = k')); [done | exact IH].
  - rewrite decide_False by (by intros ->). exact IH.
Qed.

Lemma dict_get_map_values {A B : Type} (f : A -> B) (k : string)
    (d : list (string * A)) :
  dict_get k (map (fun kv => (kv.1, f kv.2)) d) = f <$> dict_get k d.
Proof.
  induction d as [ | [k' x] d IH]; [done | ]. cbn [map fst snd dict_get].
  destruct (decide (k = k')); [done | exact IH].
Qed.

(** X29: the probability of a diagnosis reads the findings of the modalities
    of the model for the lymph node levels of the model and nothing else:
    findings under the name of an unknown modality or of an unknown level can be
    taken away without changing it. *)
Theorem comp_diagnose_prob_known_findings m
    (diagnoses : list (string * list (string * option bool))) :
  comp_diagnose_prob (known_findings m diagnoses) m
  = comp_diagnose_prob diagnoses m.
Proof.
  unfold comp_diagnose_prob. apply foldl_ext_elem.
  intros prob modality Hmod. unfold known_findings.
  rewrite dict_get_map_values.
  rewrite (dict_get_filter (dict_keys (modalities m)))
    by (unfold dict_keys; apply list_elem_of_fmap; by exists modality).
  destruct (dict_get modality.1 diagnoses) as [mod_diagnose | ]; [ | done].
  cbn [fmap option_fmap option_map]. apply foldl_ext_elem.
  intros prob' lnl Hlnl.
  rewrite (dict_get_filter (map name (lnls m)))
    by (apply list_elem_of_fmap; by exists lnl).
  done.
Qed.

End DiagnoseFacts.

(** ** Parameters of a constructed model *)

Section RangeFacts.
Import Edge Unilateral.
Context {D : Type} {distributions : DistributionAPI D}.
Implicit Types (m : Unilateral D).

(** X14: the edge parameters of a model are in the unit interval when it has
    been constructed, and they stay there over any number of bulk assignments,
    by position and by keyword, accepted or refused. *)
Theorem model_parameters_in_range (graph : list ((string * string) * list string))
    (k : nat) m (calls : list (list Q * list (string * Q))) :
  (0 < k)%nat ->
  __init__ graph None (Some (map Z.of_nat (seq 0 k))) = Ok m ->
  params_in_range m /\
  params_in_range (foldl (fun s call => (assign_params call.1 call.2 s).2) m calls).
Proof.
  intros Hk Hinit.
  destruct (constructed_invariants graph k m Hk Hinit) as [Hr _].
  split; [done | ]. clear Hinit. revert m Hr.
  induction calls as [ | [args kwargs] calls IH]; intros m Hr; cbn [foldl]; [done | ].
  apply IH. cbn [fst snd].
  destruct (assign_params args kwargs m) as [r m'] eqn:E. cbn [snd].
  by eapply assign_params_in_range.
Qed.

End RangeFacts.

(** Scenario S1 with its patient loaded: loading in a mode "EM" deletes the
    matrix of the patient. *)
Lemma load_data_drops_matrices_S1 :
  let m := Examples.S1_loaded in
  let m' := Unilateral.with_diagnose_matrices
              (Unilateral.with_modalities m
                 (default (Unilateral.modalities m) None)) None in
  Unilateral.load_data Examples.S1_data None "EM" m = (Ok [], m') /\
  Unilateral.diagnose_matrices m' = Raise AttributeError /\
  Unilateral._likelihood "HMM" true m' = (Raise AttributeError, m').
Proof.
  assert (Hmod : (None : option (list (string * list (list Q)))) = None ->
                 Unilateral.modalities Examples.S1_loaded <> []) by discriminate.
  assert (Hmode : ("EM" = "HMM" /\ Examples.S1_data = []) \/
                  ("EM" <> "HMM" /\ "EM" <> "BN"))
    by (right; split; discriminate).
  exact (load_data_drops_matrices Examples.S1_loaded Examples.S1_data None "EM" true
           Hmod Hmode).
Defined.

(** The chain of S2 has no modality. *)
Lemma load_data_without_modalities_S2 :
  let m := Examples.S2_model in
  (forall load_mode : string,
     Unilateral.load_data Examples.S1_data None load_mode m
     = (Raise ValueError, m)) /\
  Unilateral.set_patient_data Examples.S1_data m
  = (Raise ValueError, Unilateral.with_patient_data m (Some Examples.S1_data)) /\
  Unilateral.likelihood (Some Examples.S1_data) None true "HMM" m
  = (Raise ValueError, Unilateral.with_patient_data m (Some Examples.S1_data)).
Proof.
  exact (load_data_without_modalities Examples.S2_model Examples.S1_data "HMM" None
           true eq_refl).
Defined.

(** Scenario S1 with a patient of the T-stage "late" alone, which has no
    distribution: the likelihood is 1. *)
Lemma likelihood_no_common_stage_S1 :
  let m := (Unilateral.load_data
              [Unilateral.mkPatient "late" [("CT", [("II", Some true)])]]
              None "HMM" Examples.S1_model).2 in
  Unilateral._likelihood "HMM" false m = (Ok (Finite 1%Q), m).
Proof.
  intros m.
  assert (Hdm : Unilateral._diagnose_matrices m = Some [("late", [[1 # 10]; [8 # 10]]%Q)])
    by (vm_compute; reflexivity).
  assert (Hsl : Unilateral.state_list m = Ok [[0]; [1]]) by reflexivity.
  assert (Hne : [[0]; [1]] <> ([] : list (list Z))) by discriminate.
  assert (Hdis : forall stage : string,
            stage ∈ dict_keys [("late", [[1 # 10]; [8 # 10]]%Q)] ->
            stage ∉ dict_keys (Unilateral.diag_time_dists m)).
  { intros stage H. apply list_elem_of_singleton in H. subst stage.
    intros H. apply list_elem_of_singleton in H. discriminate H. }
  exact (likelihood_no_common_stage m _ _ false Hdm Hsl Hne Hdis).
Defined.

(** Scenario S1: a spread probability of 1.5 makes the risk raise. *)
Lemma risk_refuses_parameters_S1 :
  exists m',
    Unilateral.risk None (Some [("spread_T_to_II", 3 # 2)%Q]) None "early" "HMM"
      Examples.S1_model
    = (Raise ValueError, m').
Proof.
  assert (Hup : forall x (d : Examples.Distribution) e,
            Unilateral.update x d = Raise e -> e = ValueError).
  { intros x d e. cbn. destruct (in_unit_interval x); [discriminate | ].
    by intros [= <-]. }
  assert (Hknown : Forall (fun kv => known_key Examples.S1_model kv.1)
                     [("spread_T_to_II", 3 # 2)%Q]).
  { constructor; [ | constructor]. right. right. right. eexists.
    vm_compute. reflexivity. }
  assert (Hbad : Exists (fun kv => addresses_edge Examples.S1_model kv.1 /\
                                   in_unit_interval kv.2 = false)
                   [("spread_T_to_II", 3 # 2)%Q]).
  { constructor. split; [ | reflexivity]. split.
    - vm_compute. intros H. apply list_elem_of_singleton in H. discriminate H.
    - right. right. eexists. vm_compute. reflexivity. }
  exact (risk_refuses_parameters [("spread_T_to_II", 3 # 2)%Q] Examples.S1_model
           None None "early" "HMM" Hup Hknown Hbad).
Defined.

(** Scenario S1 has no parameter "spread_T_to_III". *)
Lemma unknown_parameter_key_S1 :
  let m := Examples.S1_model in
  let kwargs := [("spread_T_to_III", 1 # 2); ("spread_T_to_II", 1 # 2)]%Q in
  Unilateral.assign_params [] kwargs m = (Raise KeyError, m) /\
  Unilateral.likelihood None (Some kwargs) true "HMM" m = (Raise KeyError, m) /\
  Unilateral.risk None (Some kwargs) None "early" "HMM" m = (Raise KeyError, m).
Proof.
  intros m kwargs.
  assert (Hk : ~ known_key m "spread_T_to_III").
  { intros [H | [H | [H | [p H]]]]; try discriminate H.
    vm_compute in H. apply list_elem_of_singleton in H. discriminate H. }
  exact (unknown_parameter_key m "spread_T_to_III" (1 # 2)%Q
           [("spread_T_to_II", 1 # 2)%Q] true "HMM" None None "early" Hk).
Defined.

(** The chain of S2 after an accepted and a refused assignment. *)
Lemma model_parameters_in_range_S2 :
  let m := Examples.unwrap (Unilateral.binary (D := Examples.Distribution)
                              Examples.S2_graph) in
  let calls := [([4 # 10; 2 # 10], []); ([], [("spread_T_to_II", 3 # 2)])]%Q in
  params_in_range m /\
  params_in_range
    (foldl (fun s call => (Unilateral.assign_params call.1 call.2 s).2) m calls).
Proof.
  intros m calls.
  assert (Hk : (0 < 2)%nat) by lia.
  exact (model_parameters_in_range Examples.S2_graph 2 m calls Hk eq_refl).
Defined.
